(** * libtracy: a shallow embedding of the tracing engine (libtracy.c)

    The development follows the layout of the C file: the fgrep matcher
    (hash_path, match_words, mkwords), the extended glob matcher
    (find_end_of_glob, match_glob, match_eglob), symbol lookup (getsym),
    the report decisions, addr2name, print_trace, the two
    __cyg_profile_func hooks and tracy_init.

    Conventions.
    - A C string (char const * to NUL-terminated bytes) is the [string] of
      the bytes before the terminator; a pointer into such a string is the
      suffix it points at; reading [*p] at the end of the string yields the
      terminator.
    - [unsigned] and [Elf32_Addr] are 32 bits wide: values are [Z] in
      [0, 2^32) and every arithmetic operation writes its wrap-around out.
    - A linked list ([struct word_st], [struct dso_st]) is a Rocq list, the
      null pointer being the empty list.
    - LOGIT() appends a record holding the format and its arguments to the
      output.
    - A read of memory the library has unmapped kills the process
      (SIGSEGV): the state records it, and nothing is logged or counted
      from there on. *)

From Stdlib Require Import ZArith Lia List Bool Ascii String.
Import ListNotations.

#[local] Open Scope string_scope.
#[local] Open Scope Z_scope.

(** ** Machine arithmetic and C strings *)

Definition wrap32 (z : Z) : Z := z mod 2 ^ 32.

(** [*p] of a C string: the first byte, or the terminator at the end. *)
Definition deref (p : string) : ascii :=
  match p with
  | EmptyString => zero
  | String c _ => c
  end.

(** [p + 1] of a pointer into a C string. *)
Definition advance (p : string) : string :=
  match p with
  | EmptyString => EmptyString
  | String _ p' => p'
  end.

Definition byte_value (c : ascii) : Z := Z.of_N (N_of_ascii c).

(** Plain [char] is signed on the x86 targets the backtrace path is written
    for (it is unsigned on ARM); [(unsigned)*path] sign-extends there. *)
Definition char_is_signed : bool := true.

Definition unsigned_of_char (c : ascii) : Z :=
  if char_is_signed && (128 <=? byte_value c)
  then wrap32 (byte_value c - 256)
  else byte_value c.

(** [memcmp(s1, s2, n)]: the difference of the first pair of bytes that
    differ among the first [n], or 0. *)
Fixpoint memcmp (s1 s2 : string) (n : nat) : Z :=
  match n with
  | O => 0
  | S n' =>
      if Ascii.eqb (deref s1) (deref s2)
      then memcmp (advance s1) (advance s2) n'
      else byte_value (deref s1) - byte_value (deref s2)
  end.

(** ** Output and allocation *)

(** What procinfo() puts in front of a trace line. *)
Inductive prefix : Type :=
| PrefixNone
| PrefixTime
| PrefixTid
| PrefixTimeTid.

(** One LOGIT() call: the message and its arguments. *)
Inductive line : Type :=
| DiagMalloc                       (* "malloc(%u): %m" *)
| DiagMkstemp                      (* "mkstemp: %m" *)
| DiagSignal (env : string)        (* "couldn't understand $TRACY_SIGNAL=%s" *)
| SymtabHeader                     (* "SYMTAB:" *)
| SymtabName (addr : Z) (fname funame : string)  (* "%p = %s:%s()" *)
| SymtabAddr (addr : Z) (fname : string)         (* "%p = %s:[%p]" *)
| TraceAsync (pi : prefix) (dir : string) (depth width addr : Z)
                                   (* "%s%s[%u]%*s[%p]" *)
| TraceName (pi : prefix) (dir : string) (depth width : Z)
            (fname colon funame : string)
                                   (* "%s%s[%u]%*s%s%s%s()" *)
| TraceAddr (pi : prefix) (dir : string) (depth width : Z)
            (fname colon : string) (addr : Z).
                                   (* "%s%s[%u]%*s%s%s[%p]" *)

(** The part of the process every routine may touch: the outcomes of the
    malloc() calls still to come ([true]: memory is returned; an exhausted
    list: memory is returned) and the lines logged so far, oldest first. *)
Record io : Type := mkIo {
  mallocs : list bool;
  output : list line
}.

Definition malloc (s : io) : bool * io :=
  match mallocs s with
  | [] => (true, s)
  | b :: rest => (b, mkIo rest (output s))
  end.

Definition LOGIT (l : line) (s : io) : io :=
  mkIo (mallocs s) (output s ++ [l]).

(** ** fgrep matching *)

Module word_st.
(** [struct word_st] without its [next] link. *)
Record t : Type := mk {
hash : Z;
length : Z;
word : string
}.
End word_st.

(** The while loop of hash_path(). *)
Fixpoint hash_path_loop (word : word_st.t) (path : string) : word_st.t :=
  match path with
  | EmptyString => word
  | String c path' =>
      if negb (Ascii.eqb c "/")
      then hash_path_loop
             (word_st.mk (wrap32 (word_st.hash word + unsigned_of_char c))
                         (wrap32 (word_st.length word + 1))
                         (word_st.word word))
             path'
      else hash_path_loop (word_st.mk 0 0 path') path'
  end.

Definition hash_path (path : string) : word_st.t :=
  hash_path_loop (word_st.mk 0 0 path) path.

(** The do-while loop of match_words(); [continue] goes to the loop test,
    which moves to the next word. *)
Fixpoint match_words_loop (iword : word_st.t) (words : list word_st.t)
  : option string :=
  match words with
  | [] => None
  | w :: next =>
      if negb (word_st.hash iword =? word_st.hash w) then
        match_words_loop iword next
      else if negb (word_st.length iword =? word_st.length w) then
        match_words_loop iword next
      else if negb (memcmp (word_st.word iword) (word_st.word w)
                           (Z.to_nat (word_st.length iword)) =? 0) then
        match_words_loop iword next
      else Some (word_st.word iword)
  end.

Definition match_words (words : list word_st.t) (path : string)
  : option string :=
  match words with
  | [] => None
  | _ => match_words_loop (hash_path path) words
  end.

(** The do-while loop of mkwords(): [word] is the entry being filled, the
    result lists it and the entries allocated after it. *)
Fixpoint mkwords_loop (word : word_st.t) (str : string) (s : io)
  : list word_st.t * io :=
  match str with
  | EmptyString => ([word], s)
  | String c str' =>
      if negb (Ascii.eqb c ":") then
        mkwords_loop
          (word_st.mk (wrap32 (word_st.hash word + unsigned_of_char c))
                      (wrap32 (word_st.length word + 1))
                      (word_st.word word))
          str' s
      else
        match malloc s with
        | (false, s1) => ([word], LOGIT DiagMalloc s1)
        | (true, s1) =>
            let (rest, s2) := mkwords_loop (word_st.mk 0 0 str') str' s1 in
            (word :: rest, s2)
        end
  end.

Definition mkwords (str : string) (s : io) : list word_st.t * io :=
  match str with
  | EmptyString => ([], s)
  | _ =>
      match malloc s with
      | (false, s1) => ([], LOGIT DiagMalloc s1)
      | (true, s1) => mkwords_loop (word_st.mk 0 0 str) str s1
      end
  end.

(** ** (Extended) glob matching *)

(** The for loop of find_end_of_glob(); [depth] is an [unsigned]. *)
Fixpoint find_end_of_glob_loop (depth : Z) (str : string) (c : ascii)
  : option string :=
  match str with
  | EmptyString => None
  | String ch str' =>
      if (depth =? 0) && Ascii.eqb ch c then Some str'
      else if Ascii.eqb ch "(" then
        find_end_of_glob_loop (wrap32 (depth + 1)) str' c
      else if Ascii.eqb ch ")" then
        if 0 <? depth then find_end_of_glob_loop (depth - 1) str' c
        else None
      else find_end_of_glob_loop depth str' c
  end.

Definition find_end_of_glob (str : string) (c : ascii) : option string :=
  find_end_of_glob_loop 0 str c.

(** [!*str] *)
Definition at_end (str : string) : bool :=
  match str with
  | EmptyString => true
  | String _ _ => false
  end.

(** The do-while loop of the ['*'] case of match_glob(): [rest] is
    match_glob() on the pattern after the star; it is tried on [str], then
    on [str + 1], until it succeeds or the terminator has been passed. *)
Fixpoint star_loop (rest : string -> option bool) (str : string)
  : option bool :=
  match rest str with
  | None => None
  | Some true => Some true
  | Some false =>
      match str with
      | EmptyString => Some false
      | String _ str' => star_loop rest str'
      end
  end.

(** match_glob() and match_eglob() call each other and match_glob() jumps
    forward in the pattern, so both recurse on a step budget: every turn of
    the for loop, every call and every turn of match_eglob()'s do-while
    loop takes one unit; [None] means the budget ran out. *)
Fixpoint match_glob_fuel (fuel : nat) (pattern str : string) {struct fuel}
  : option bool :=
  match fuel with
  | O => None
  | S fuel' =>
      match pattern with
      | EmptyString => Some (at_end str)
      | String c pattern' =>
          if Ascii.eqb c "(" then match_eglob_fuel fuel' pattern' str
          else if Ascii.eqb c ")" then match_glob_fuel fuel' pattern' str
          else if Ascii.eqb c ":" then
            match find_end_of_glob pattern ")" with
            | Some pattern'' => match_glob_fuel fuel' pattern'' str
            | None => Some (at_end str)
            end
          else if Ascii.eqb c "*" then
            star_loop (match_glob_fuel fuel' pattern') str
          else if Ascii.eqb c "?" then
            match str with
            | EmptyString => Some false
            | String _ str' => match_glob_fuel fuel' pattern' str'
            end
          else
            match str with
            | EmptyString => Some false
            | String d str' =>
                if Ascii.eqb d c then match_glob_fuel fuel' pattern' str'
                else Some false
            end
      end
  end

with match_eglob_fuel (fuel : nat) (pattern str : string) {struct fuel}
  : option bool :=
  match fuel with
  | O => None
  | S fuel' =>
      match match_glob_fuel fuel' pattern str with
      | None => None
      | Some true => Some true
      | Some false =>
          match find_end_of_glob pattern ":" with
          | Some pattern' => match_eglob_fuel fuel' pattern' str
          | None => Some false
          end
      end
  end.

(** A budget that always suffices (lemma [match_glob_fuel_total]). *)
Definition glob_fuel (pattern : string) : nat :=
  (2 * String.length pattern + 2)%nat.

Definition match_glob (pattern str : string) : option bool :=
  match_glob_fuel (glob_fuel pattern) pattern str.

Definition match_eglob (pattern str : string) : option bool :=
  match_eglob_fuel (glob_fuel pattern) pattern str.

(** ** Function name resolution *)

(** The fields of [Elf32_Sym] that getsym() reads. *)
Record Elf32_Sym : Type := mkSym {
  st_name : Z;
  st_value : Z
}.

(** [struct dso_st] without its [next] link: [fname] is the loader's
    pointer (entries are compared by it), [strtab] the bytes of the string
    table up to [strend], [symtab] the records up to [symend]. *)
Record dso_st : Type := mkDso {
  fname : Z;
  strtab : list ascii;
  symtab : list Elf32_Sym
}.

(** The for loop of getsym(): [closest] and [diff] are the loop's
    variables, [syms] the records from [sym] to [symend]. *)
Fixpoint getsym_loop (dso : dso_st) (base addr : Z)
    (closest : option Elf32_Sym) (diff : Z) (syms : list Elf32_Sym)
  : option Elf32_Sym :=
  match syms with
  | [] => closest
  | sym :: syms' =>
      let eddr := if base <? st_value sym then addr
                  else wrap32 (addr - base) in
      if eddr <? st_value sym then
        getsym_loop dso base addr closest diff syms'
      else
        let now := wrap32 (eddr - st_value sym) in
        if match closest with None => true | Some _ => false end
           || (now <? diff)
        then
          if Z.of_nat (List.length (strtab dso)) <=? st_name sym then
            getsym_loop dso base addr closest diff syms'
          else if Ascii.eqb (nth (Z.to_nat (st_name sym)) (strtab dso) zero)
                            "$" then
            getsym_loop dso base addr closest diff syms'
          else if now =? 0 then Some sym
          else getsym_loop dso base addr (Some sym) now syms'
        else getsym_loop dso base addr closest diff syms'
  end.

(** The result is the pointer [strtab + st_name]: the bytes of the table
    from that offset on. *)
Definition getsym (dso : dso_st) (base addr : Z) : option (list ascii) :=
  match getsym_loop dso base addr None 0 (symtab dso) with
  | None => None
  | Some closest =>
      if st_name closest <? Z.of_nat (List.length (strtab dso))
      then Some (skipn (Z.to_nat (st_name closest)) (strtab dso))
      else None
  end.

(** The C string a pointer into a byte table denotes. *)
Fixpoint cstring (bytes : list ascii) : string :=
  match bytes with
  | [] => EmptyString
  | c :: rest =>
      if Ascii.eqb c zero then EmptyString else String c (cstring rest)
  end.

(** ** The process around the tracer *)

(** What dladdr() fills in [Dl_info]; [dli_fname] is a pointer and the file
    name it points at, a missing name is the null pointer, [dli_saddr] is 0
    when null. *)
Record Dl_info : Type := mkDlInfo {
  dli_fname : option (Z * string);
  dli_fbase : Z;
  dli_sname : option string;
  dli_saddr : Z
}.

(** What the tracer reads and never changes: the environment, the dynamic
    loader, the ELF files (getdso(): the tables of the file of that name,
    or failure), what mkstemp() returns (a descriptor, or -1) and the
    target the library was compiled for ([__ARMEL__]). *)
Record world : Type := mkWorld {
  getenv : string -> option string;
  dladdr : Z -> option Dl_info;
  getdso : string -> option (list ascii * list Elf32_Sym);
  mkstemp : Z;
  ARMEL : bool
}.

Definition is_space (c : ascii) : bool :=
  let n := byte_value c in (n =? 32) || ((9 <=? n) && (n <=? 13)).

Definition is_digit (c : ascii) : bool :=
  let n := byte_value c in (48 <=? n) && (n <=? 57).

Fixpoint skip_space (s : string) : string :=
  match s with
  | EmptyString => EmptyString
  | String c s' => if is_space c then skip_space s' else s
  end.

Fixpoint digits (acc : Z) (s : string) : Z :=
  match s with
  | EmptyString => acc
  | String c s' =>
      if is_digit c then digits (10 * acc + (byte_value c - 48)) s' else acc
  end.

(** libc's atoi(), as glibc defines it for a 32-bit [long]:
    [(int) strtol(s, NULL, 10)], which skips blanks, reads a sign and the
    digits, and saturates. *)
Definition atoi (s : string) : Z :=
  let s := skip_space s in
  let n := match s with
           | String "-" s' => - digits 0 s'
           | String "+" s' => digits 0 s'
           | _ => digits 0 s
           end in
  Z.max (- 2 ^ 31) (Z.min (2 ^ 31 - 1) n).

Definition SIGPROF : Z := 27.

Module report_dso_statics.
Record t : Type := mk {
report_all : bool;
flist : list word_st.t;
is_whitelist : bool
}.
Definition init : t := mk false [] false.
End report_dso_statics.

Module report_function_statics.
Record t : Type := mk {
report_all : bool;
pattern : option string;
is_whitelist : bool
}.
Definition init : t := mk false None false.
End report_function_statics.

Module procinfo_statics.
Record t : Type := mk {
need_time : Z;
need_tid : Z
}.
Definition init : t := mk (-1) (-1).
End procinfo_statics.

Module print_trace_statics.
Record t : Type := mk {
depth_limit : Z;
depth_limited : Z;
be_async : Z;
entries_only : Z;
indent : Z;
log_fname : Z
}.
Definition init : t := mk 0 (-1) (-1) (-1) (-1) (-1).
End print_trace_statics.

(** The process-wide variables of libtracy.c, the function-local statics,
    and what the library has done to the process: the lines logged, the
    addresses written to the async file, whether resolve_backlog() was
    registered with atexit(), the signals toggle_tracing() handles, and
    whether the library has got the process killed by reading memory it
    has unmapped (SIGSEGV).  The functions below say what the code does in
    a process that is alive. *)
Record tracer : Type := mkTracer {
  Tracing : bool;
  Callstack_depth : Z;
  Async_fd : Z;
  dso_statics : report_dso_statics.t;
  fun_statics : report_function_statics.t;
  seen : list dso_st;
  pi_statics : procinfo_statics.t;
  pt_statics : print_trace_statics.t;
  sys : io;
  backlog : list Z;
  at_exit : bool;
  handlers : list Z;
  killed : bool
}.

(** The state the library is loaded with. *)
Definition loaded (s : io) : tracer :=
  mkTracer true 0 (-1) report_dso_statics.init report_function_statics.init
           [] procinfo_statics.init print_trace_statics.init s [] false []
           false.

Definition set_Tracing (b : bool) (t : tracer) : tracer :=
  mkTracer b (Callstack_depth t) (Async_fd t) (dso_statics t) (fun_statics t)
           (seen t) (pi_statics t) (pt_statics t) (sys t) (backlog t)
           (at_exit t) (handlers t) (killed t).

Definition set_Callstack_depth (d : Z) (t : tracer) : tracer :=
  mkTracer (Tracing t) d (Async_fd t) (dso_statics t) (fun_statics t)
           (seen t) (pi_statics t) (pt_statics t) (sys t) (backlog t)
           (at_exit t) (handlers t) (killed t).

Definition set_Async_fd (fd : Z) (t : tracer) : tracer :=
  mkTracer (Tracing t) (Callstack_depth t) fd (dso_statics t) (fun_statics t)
           (seen t) (pi_statics t) (pt_statics t) (sys t) (backlog t)
           (at_exit t) (handlers t) (killed t).

Definition set_dso_statics (x : report_dso_statics.t) (t : tracer) : tracer :=
  mkTracer (Tracing t) (Callstack_depth t) (Async_fd t) x (fun_statics t)
           (seen t) (pi_statics t) (pt_statics t) (sys t) (backlog t)
           (at_exit t) (handlers t) (killed t).

Definition set_fun_statics (x : report_function_statics.t) (t : tracer)
  : tracer :=
  mkTracer (Tracing t) (Callstack_depth t) (Async_fd t) (dso_statics t) x
           (seen t) (pi_statics t) (pt_statics t) (sys t) (backlog t)
           (at_exit t) (handlers t) (killed t).

Definition set_seen (x : list dso_st) (t : tracer) : tracer :=
  mkTracer (Tracing t) (Callstack_depth t) (Async_fd t) (dso_statics t)
           (fun_statics t) x (pi_statics t) (pt_statics t) (sys t)
           (backlog t) (at_exit t) (handlers t) (killed t).

Definition set_pi_statics (x : procinfo_statics.t) (t : tracer) : tracer :=
  mkTracer (Tracing t) (Callstack_depth t) (Async_fd t) (dso_statics t)
           (fun_statics t) (seen t) x (pt_statics t) (sys t) (backlog t)
           (at_exit t) (handlers t) (killed t).

Definition set_pt_statics (x : print_trace_statics.t) (t : tracer) : tracer :=
  mkTracer (Tracing t) (Callstack_depth t) (Async_fd t) (dso_statics t)
           (fun_statics t) (seen t) (pi_statics t) x (sys t) (backlog t)
           (at_exit t) (handlers t) (killed t).

Definition set_sys (x : io) (t : tracer) : tracer :=
  mkTracer (Tracing t) (Callstack_depth t) (Async_fd t) (dso_statics t)
           (fun_statics t) (seen t) (pi_statics t) (pt_statics t) x
           (backlog t) (at_exit t) (handlers t) (killed t).

Definition set_backlog (x : list Z) (t : tracer) : tracer :=
  mkTracer (Tracing t) (Callstack_depth t) (Async_fd t) (dso_statics t)
           (fun_statics t) (seen t) (pi_statics t) (pt_statics t) (sys t) x
           (at_exit t) (handlers t) (killed t).

Definition set_at_exit (x : bool) (t : tracer) : tracer :=
  mkTracer (Tracing t) (Callstack_depth t) (Async_fd t) (dso_statics t)
           (fun_statics t) (seen t) (pi_statics t) (pt_statics t) (sys t)
           (backlog t) x (handlers t) (killed t).

Definition set_handlers (x : list Z) (t : tracer) : tracer :=
  mkTracer (Tracing t) (Callstack_depth t) (Async_fd t) (dso_statics t)
           (fun_statics t) (seen t) (pi_statics t) (pt_statics t) (sys t)
           (backlog t) (at_exit t) x (killed t).

(** The process is killed: a read of unmapped memory. *)
Definition set_killed (x : bool) (t : tracer) : tracer :=
  mkTracer (Tracing t) (Callstack_depth t) (Async_fd t) (dso_statics t)
           (fun_statics t) (seen t) (pi_statics t) (pt_statics t) (sys t)
           (backlog t) (at_exit t) (handlers t) x.

Definition log (l : line) (t : tracer) : tracer :=
  set_sys (LOGIT l (sys t)) t.

(** ** Report decisions *)

(** [strrchr(s, c)]: the pointer at the last [c] of [s]. *)
Fixpoint strrchr (s : string) (c : ascii) : option string :=
  match s with
  | EmptyString => None
  | String ch s' =>
      match strrchr s' c with
      | Some p => Some p
      | None => if Ascii.eqb ch c then Some s else None
      end
  end.

(** [(env = getenv(name)) && (flist = mkwords(env))]: the list assigned to
    [flist], which stays as it was when the variable is unset. *)
Definition getenv_mkwords (w : world) (name : string) (t : tracer)
  : list word_st.t * tracer :=
  match getenv w name with
  | None => (report_dso_statics.flist (dso_statics t), t)
  | Some env =>
      let (l, s) := mkwords env (sys t) in
      (l, set_sys s
            (set_dso_statics
               (report_dso_statics.mk
                  (report_dso_statics.report_all (dso_statics t)) l
                  (report_dso_statics.is_whitelist (dso_statics t))) t))
  end.

Definition set_dso_whitelist (b : bool) (t : tracer) : tracer :=
  set_dso_statics
    (report_dso_statics.mk (report_dso_statics.report_all (dso_statics t))
                           (report_dso_statics.flist (dso_statics t)) b) t.

Definition set_dso_report_all (t : tracer) : tracer :=
  set_dso_statics
    (report_dso_statics.mk true (report_dso_statics.flist (dso_statics t))
                           (report_dso_statics.is_whitelist (dso_statics t)))
    t.

(** Read the environment if we haven't. *)
Definition report_dso_read (w : world) (t : tracer) : tracer :=
  if negb (report_dso_statics.report_all (dso_statics t))
     && match report_dso_statics.flist (dso_statics t) with
        | [] => true
        | _ => false
        end
  then
    match getenv_mkwords w "TRACY_INLIBS" t with
    | (_ :: _, t1) => set_dso_whitelist true t1
    | ([], t1) =>
        match getenv_mkwords w "TRACY_EXLIBS" t1 with
        | (_ :: _, t2) => set_dso_whitelist false t2
        | ([], t2) => set_dso_report_all t2
        end
    end
  else t.

Definition report_dso (w : world) (fname : string) (t : tracer)
  : option string * tracer :=
  let t := report_dso_read w t in
  let st := dso_statics t in
  let basename := match strrchr fname "/" with
                  | None => fname
                  | Some base => advance base
                  end in
  (* Match against $flist if we have one. *)
  if negb (report_dso_statics.report_all st) then
    match match_words (report_dso_statics.flist st) fname with
    | Some base =>
        (if report_dso_statics.is_whitelist st then Some base else None, t)
    | None =>
        if report_dso_statics.is_whitelist st then (None, t)
        else (Some basename, t)
    end
  else (Some basename, t).

(** [pattern = getenv(name)) && pattern[0]] *)
Definition getenv_pattern (w : world) (name : string) (t : tracer)
  : bool * tracer :=
  let st := fun_statics t in
  let p := getenv w name in
  (match p with
   | Some (String _ _) => true
   | _ => false
   end,
   set_fun_statics
     (report_function_statics.mk (report_function_statics.report_all st) p
        (report_function_statics.is_whitelist st)) t).

Definition set_fun_whitelist (b : bool) (t : tracer) : tracer :=
  set_fun_statics
    (report_function_statics.mk
       (report_function_statics.report_all (fun_statics t))
       (report_function_statics.pattern (fun_statics t)) b) t.

Definition set_fun_report_all (t : tracer) : tracer :=
  set_fun_statics
    (report_function_statics.mk true
       (report_function_statics.pattern (fun_statics t))
       (report_function_statics.is_whitelist (fun_statics t))) t.

(** match_eglob() as report_function() uses it; the budget never runs out
    (lemma [match_eglob_total]). *)
Definition eglob_matches (pattern str : string) : bool :=
  match match_eglob pattern str with
  | Some b => b
  | None => false
  end.

(** Read the environment if we haven't. *)
Definition report_function_read (w : world) (t : tracer) : tracer :=
  if negb (report_function_statics.report_all (fun_statics t))
     && match report_function_statics.pattern (fun_statics t) with
        | None => true
        | Some _ => false
        end
  then
    match getenv_pattern w "TRACY_INFUNS" t with
    | (true, t1) => set_fun_whitelist true t1
    | (false, t1) =>
        match getenv_pattern w "TRACY_EXFUNS" t1 with
        | (true, t2) => set_fun_whitelist false t2
        | (false, t2) => set_fun_report_all t2
        end
    end
  else t.

Definition report_function (w : world) (funame : option string) (t : tracer)
  : bool * tracer :=
  let t := report_function_read w t in
  let st := fun_statics t in
  if report_function_statics.report_all st then (true, t)
  else
    match funame, report_function_statics.pattern st with
    | Some name, Some pattern =>
        if eglob_matches pattern name
        then (report_function_statics.is_whitelist st, t)
        else (negb (report_function_statics.is_whitelist st), t)
    | _, _ => (negb (report_function_statics.is_whitelist st), t)
    end.

(** ** addr2name *)

(** The walk over the [seen] list. *)
Fixpoint find_seen (dli_fname : Z) (l : list dso_st) : option dso_st :=
  match l with
  | [] => None
  | dso :: next =>
      if fname dso =? dli_fname then Some dso else find_seen dli_fname next
  end.

(** The value returned, [*fnamep] and the string [*funamep] points at
    ([None]: the pointer is null, was never assigned, or points into
    memory that cannot be read).

    When malloc() fails for the cache entry addr2name() unmaps the file
    and goes on with [*funamep] pointing into it.  The pointer is not
    null, so the code returned is 1 if report_function() lets it pass;
    unless everything is reported report_function() hands the name to
    match_eglob(), which reads it: the process is killed there, and the
    value given for the call is the one it would have returned. *)
Definition addr2name (w : world) (addr : Z) (t : tracer)
  : (Z * string * option string) * tracer :=
  let unknown (t : tracer) : (Z * string * option string) * tracer :=
    let (r, t1) := report_function w None t in
    ((if r then 0 else -1, "[???]", None), t1) in
  match dladdr w addr with
  | None => unknown t
  | Some info =>
      match dli_fname info with
      | None => unknown t
      | Some (fname_ptr, fname_text) =>
          match report_dso w fname_text t with
          | (None, t1) => ((-1, "[???]", None), t1)
          | (Some fname, t1) =>
              match dli_sname info with
              | Some sname =>
                  let (r, t2) := report_function w (Some sname) t1 in
                  ((if r then 1 else -1, fname, Some sname), t2)
              | None =>
                  let addr := if negb (dli_saddr info =? 0)
                              then dli_saddr info else addr in
                  let finish (funame : option string) (t : tracer)
                    : (Z * string * option string) * tracer :=
                    let (r, t') := report_function w funame t in
                    ((if r
                      then match funame with Some _ => 1 | None => 0 end
                      else -1, fname, funame), t') in
                  match find_seen fname_ptr (seen t1) with
                  | Some dso =>
                      finish (option_map cstring
                                (getsym dso (dli_fbase info) addr)) t1
                  | None =>
                      match getdso w fname_text with
                      | None =>
                          let (r, t2) := report_function w None t1 in
                          ((if r then 0 else -1, fname, None), t2)
                      | Some (strs, syms) =>
                          let newdso := mkDso fname_ptr strs syms in
                          let funame :=
                            option_map cstring
                              (getsym newdso (dli_fbase info) addr) in
                          (* Try to remember it. *)
                          match malloc (sys t1) with
                          | (true, s) =>
                              finish funame
                                (set_seen (newdso :: seen t1) (set_sys s t1))
                          | (false, s) =>
                              (* Failed, clean up what getdso() did. *)
                              let t2 := log DiagMalloc (set_sys s t1) in
                              match funame with
                              | None => finish None t2
                              | Some _ =>
                                  let t3 := report_function_read w t2 in
                                  ((1, fname, None),
                                   if report_function_statics.report_all
                                        (fun_statics t3)
                                   then t3 else set_killed true t3)
                              end
                          end
                      end
                  end
              end
          end
      end
  end.

(** ** Printing the trace *)

Definition Z_of_bool (b : bool) : Z := if b then 1 else 0.

(** [(env = getenv(name)) && env[0] == '1'] *)
Definition getenv_is_1 (w : world) (name : string) : bool :=
  match getenv w name with
  | Some env => Ascii.eqb (deref env) "1"
  | None => false
  end.

Definition procinfo (w : world) (t : tracer) : prefix * tracer :=
  let t :=
    if procinfo_statics.need_time (pi_statics t) <? 0 then
      set_pi_statics
        (procinfo_statics.mk (Z_of_bool (getenv_is_1 w "TRACY_LOG_TIME"))
                             (Z_of_bool (getenv_is_1 w "TRACY_LOG_TID"))) t
    else t in
  let need_time := negb (procinfo_statics.need_time (pi_statics t) =? 0) in
  let need_tid := negb (procinfo_statics.need_tid (pi_statics t) =? 0) in
  (match need_time, need_tid with
   | false, false => PrefixNone
   | true, false => PrefixTime
   | false, true => PrefixTid
   | true, true => PrefixTimeTid
   end, t).

(** The value of an [unsigned] read as an [int]. *)
Definition to_int (z : Z) : Z := if z <? 2 ^ 31 then z else z - 2 ^ 32.

(** The field width [1 + indent*Callstack_depth] handed to [%*s]. *)
Definition indent_width (t : tracer) : Z :=
  to_int (wrap32 (1 + print_trace_statics.indent (pt_statics t)
                      * Callstack_depth t)).

Definition set_depth_limit (limit limited : Z) (t : tracer) : tracer :=
  let st := pt_statics t in
  set_pt_statics
    (print_trace_statics.mk limit limited
       (print_trace_statics.be_async st) (print_trace_statics.entries_only st)
       (print_trace_statics.indent st) (print_trace_statics.log_fname st)) t.

Definition set_be_async (x : Z) (t : tracer) : tracer :=
  let st := pt_statics t in
  set_pt_statics
    (print_trace_statics.mk
       (print_trace_statics.depth_limit st)
       (print_trace_statics.depth_limited st) x
       (print_trace_statics.entries_only st)
       (print_trace_statics.indent st) (print_trace_statics.log_fname st)) t.

Definition set_entries_only (x : Z) (t : tracer) : tracer :=
  let st := pt_statics t in
  set_pt_statics
    (print_trace_statics.mk
       (print_trace_statics.depth_limit st)
       (print_trace_statics.depth_limited st)
       (print_trace_statics.be_async st) x
       (print_trace_statics.indent st) (print_trace_statics.log_fname st)) t.

Definition set_indent (x : Z) (t : tracer) : tracer :=
  let st := pt_statics t in
  set_pt_statics
    (print_trace_statics.mk
       (print_trace_statics.depth_limit st)
       (print_trace_statics.depth_limited st)
       (print_trace_statics.be_async st)
       (print_trace_statics.entries_only st) x
       (print_trace_statics.log_fname st)) t.

Definition set_log_fname (x : Z) (t : tracer) : tracer :=
  let st := pt_statics t in
  set_pt_statics
    (print_trace_statics.mk
       (print_trace_statics.depth_limit st)
       (print_trace_statics.depth_limited st)
       (print_trace_statics.be_async st)
       (print_trace_statics.entries_only st)
       (print_trace_statics.indent st) x) t.

(** Read $TRACY_MAXDEPTH if we haven't. *)
Definition read_maxdepth (w : world) (t : tracer) : tracer :=
  if print_trace_statics.depth_limited (pt_statics t) <? 0 then
    match getenv w "TRACY_MAXDEPTH" with
    | Some (String c env') =>
        set_depth_limit (wrap32 (atoi (String c env'))) 1 t
    | _ => set_depth_limit (print_trace_statics.depth_limit (pt_statics t)) 0 t
    end
  else t.

(** Have we reached the limit? *)
Definition limit_reached (t : tracer) : bool :=
  negb (print_trace_statics.depth_limited (pt_statics t) =? 0)
  && (print_trace_statics.depth_limit (pt_statics t) <=? Callstack_depth t).

(** The [be_async < 0] block. *)
Definition read_async (w : world) (t : tracer) : tracer :=
  if print_trace_statics.be_async (pt_statics t) <? 0 then
    if getenv_is_1 w "TRACY_ASYNC" then
      let t := set_Async_fd (mkstemp w) (set_be_async 1 t) in
      if Async_fd t <? 0 then set_be_async 0 (log DiagMkstemp t)
      else set_at_exit true t
    else set_be_async 0 t
  else t.

Definition read_entries_only (w : world) (t : tracer) : tracer :=
  if print_trace_statics.entries_only (pt_statics t) <? 0 then
    set_entries_only (Z_of_bool (getenv_is_1 w "TRACY_LOG_ENTRIES_ONLY")) t
  else t.

Definition read_indent (w : world) (t : tracer) : tracer :=
  if print_trace_statics.indent (pt_statics t) <? 0 then
    set_indent (match getenv w "TRACY_LOG_INDENT" with
                | Some env => atoi env
                | None => 0
                end) t
  else t.

Definition read_log_fname (w : world) (t : tracer) : tracer :=
  if print_trace_statics.log_fname (pt_statics t) <? 0 then
    set_log_fname (match getenv w "TRACY_LOG_FNAME" with
                   | Some env => Z_of_bool (Ascii.eqb (deref env) "1")
                   | None => 1
                   end) t
  else t.

(** print_trace(): [frames] is what backtrace() would fill a long enough
    array with at this call; the value returned is 0 (omitted, not to be
    counted) or 1.  When the name addr2name() hands out cannot be read,
    nothing is logged and the process is killed; print_trace() does not
    return then, and the value given is the one on which the hook that
    called it leaves the depth counter as it is. *)
Definition print_trace (w : world) (addr : Z) (dir : string)
    (frames : list Z) (t : tracer) : Z * tracer :=
  let t := read_maxdepth w t in
  if limit_reached t then (1, t)
  else if negb (ARMEL w) && (Z.of_nat (List.length (firstn 3 frames)) <? 3)
  then (1, t)
  else
    let addr := if ARMEL w then addr else nth 2 frames 0 in
    let t := read_async w t in
    (* Log only function entries? *)
    let is_entry := Ascii.eqb (deref dir) "E" in
    let t := read_entries_only w t in
    let entries_only :=
      negb (print_trace_statics.entries_only (pt_statics t) =? 0) in
    let dir := if entries_only then "" else dir in
    let t := read_indent w t in
    if 0 <=? Async_fd t then
      (* Write the async file if necessary. *)
      let t :=
        if negb entries_only || is_entry then
          let (pi, t) := procinfo w t in
          log (TraceAsync pi dir (Callstack_depth t) (indent_width t) addr) t
        else t in
      let t := if is_entry then set_backlog (backlog t ++ [addr]) t else t in
      (1, t)
    else
      (* Resolve $addr. *)
      match addr2name w addr t with
      | ((success, fname, funame), t) =>
          if success <? 0 then (0, t)
          else if entries_only && negb is_entry then (1, t)
          else
            let t := read_log_fname w t in
            let log_fname :=
              negb (print_trace_statics.log_fname (pt_statics t) =? 0) in
            let colon := if log_fname then ":" else "" in
            let fname := if log_fname then fname else "" in
            let (pi, t) := procinfo w t in
            if negb (success =? 0) then
              match funame with
              | Some name =>
                  (1, log (TraceName pi dir (Callstack_depth t)
                                     (indent_width t) fname colon name) t)
              | None =>
                  (* fprintf() reads a name that has been unmapped *)
                  (if is_entry then 0 else 1, set_killed true t)
              end
            else
              (1, log (TraceAddr pi dir (Callstack_depth t) (indent_width t)
                                 fname colon addr) t)
      end.

(** The read loop of resolve_backlog() over the addresses in the file. *)
Fixpoint resolve_backlog_loop (w : world) (addrs : list Z) (t : tracer)
  : tracer :=
  match addrs with
  | [] => t
  | addr :: addrs' =>
      match addr2name w addr t with
      | ((r, fname, funame), t) =>
          if r =? 1 then
            match funame with
            | Some name =>
                resolve_backlog_loop w addrs'
                  (log (SymtabName addr fname name) t)
            | None =>
                (* fprintf() reads a name that has been unmapped *)
                set_killed true t
            end
          else
            resolve_backlog_loop w addrs'
              (if r =? 0 then log (SymtabAddr addr fname) t else t)
      end
  end.

(** Print the symbol address => name resolution table in $TRACY_ASYNC
    mode. *)
Definition resolve_backlog (w : world) (t : tracer) : tracer :=
  resolve_backlog_loop w (backlog t) (log SymtabHeader t).

(** ** The entry points *)

Definition __cyg_profile_func_enter (w : world) (self callsite : Z)
    (frames : list Z) (t : tracer) : tracer :=
  if negb (Tracing t) then t
  else
    let (r, t) := print_trace w self "ENTER" frames t in
    if negb (r =? 0)
    then set_Callstack_depth (wrap32 (Callstack_depth t + 1)) t
    else t.

Definition __cyg_profile_func_exit (w : world) (self callsite : Z)
    (frames : list Z) (t : tracer) : tracer :=
  if negb (Tracing t) then t
  else
    let t := set_Callstack_depth (wrap32 (Callstack_depth t - 1)) t in
    let (r, t) := print_trace w self "LEAVE" frames t in
    if r =? 0
    then set_Callstack_depth (wrap32 (Callstack_depth t + 1)) t
    else t.

(** ** Initialization *)

Definition toggle_tracing (signum : Z) (t : tracer) : tracer :=
  set_Tracing (negb (Tracing t)) t.

(** signal(signum, toggle_tracing): the handler is installed for the
    signals 1..64 other than SIGKILL and SIGSTOP, which the kernel
    refuses, and 32 and 33, which glibc keeps for itself and refuses with
    EINVAL; the call fails for any other number. *)
Definition signal (signum : Z) (t : tracer) : tracer :=
  if (1 <=? signum) && (signum <=? 64)
     && negb (signum =? 9) && negb (signum =? 19)
     && negb (signum =? 32) && negb (signum =? 33)
  then set_handlers (signum :: handlers t) t
  else t.

(** The delivery of a signal to the process: the handler runs if one is
    installed for it. *)
Definition deliver (signum : Z) (t : tracer) : tracer :=
  if existsb (Z.eqb signum) (handlers t) then toggle_tracing signum t else t.

Definition tracy_init (w : world) (t : tracer) : tracer :=
  match getenv w "TRACY_SIGNAL" with
  | None => t
  | Some env =>
      let (signum, t) :=
        if Ascii.eqb (deref env) "y" || Ascii.eqb (deref env) "Y"
        then (SIGPROF, t)
        else
          let signum := atoi env in
          if signum <=? 0 then (signum, log (DiagSignal env) t)
          else (signum, t) in
      set_Tracing false (signal signum t)
  end.

(** ** Reading the ELF image

    A mapped file is the list of its bytes and a pointer into it an
    offset.  The structures of <elf.h> are read on a little-endian target
    (x86, ARMEL) with the layout of the 32-bit ELF format: [Elf32_Ehdr]
    has [e_ident] at 0, [e_shoff] at 32 and [e_shnum] at 48; an
    [Elf32_Shdr] is 40 bytes with [sh_type] at 4, [sh_offset] at 16,
    [sh_size] at 20 and [sh_entsize] at 36; an [Elf32_Sym] is 16 bytes with
    [st_name] at 0 and [st_value] at 4.  A read beyond the end of the
    mapping is outside the model and yields 0. *)

Definition byte_at (file : list ascii) (off : Z) : Z :=
  if off <? 0 then 0 else byte_value (nth (Z.to_nat off) file zero).

Definition Elf32_Half_at (file : list ascii) (off : Z) : Z :=
  byte_at file off + 256 * byte_at file (off + 1).

Definition Elf32_Word_at (file : list ascii) (off : Z) : Z :=
  byte_at file off + 256 * byte_at file (off + 1)
  + 65536 * byte_at file (off + 2) + 16777216 * byte_at file (off + 3).

(** The fields of [Elf32_Shdr] that getelf() reads. *)
Record Elf32_Shdr : Type := mkShdr {
  sh_type : Z;
  sh_offset : Z;
  sh_size : Z;
  sh_entsize : Z
}.

Definition Elf32_Shdr_at (file : list ascii) (off : Z) : Elf32_Shdr :=
  mkShdr (Elf32_Word_at file (off + 4)) (Elf32_Word_at file (off + 16))
         (Elf32_Word_at file (off + 20)) (Elf32_Word_at file (off + 36)).

Definition Elf32_Sym_at (file : list ascii) (off : Z) : Elf32_Sym :=
  mkSym (Elf32_Word_at file off) (Elf32_Word_at file (off + 4)).

Definition SHT_SYMTAB : Z := 2.
Definition SHT_STRTAB : Z := 3.
Definition sizeof_Elf32_Shdr : Z := 40.
Definition sizeof_Elf32_Sym : Z := 16.

(** The bytes from [begin] up to [end_], as far as the mapping goes: a
    string table. *)
Definition bytes_between (file : list ascii) (begin end_ : Z) : list ascii :=
  firstn (Z.to_nat (end_ - begin)) (skipn (Z.to_nat begin) file).

(** The records a loop [for (sym = symtab; sym < symend; sym++)] visits;
    [n] bounds their number. *)
Fixpoint syms_between (file : list ascii) (n : nat) (sym symend : Z)
  : list Elf32_Sym :=
  match n with
  | O => []
  | S n' =>
      if sym <? symend
      then Elf32_Sym_at file sym
           :: syms_between file n' (sym + sizeof_Elf32_Sym) symend
      else []
  end.

(** The for loop of getelf() over the section headers: [n] headers are
    left, [sec] is the offset of the next one. *)
Fixpoint getelf_loop (file : list ascii) (n : nat) (sec : Z)
    (strsec symsec : option Elf32_Shdr)
  : option Elf32_Shdr * option Elf32_Shdr :=
  match n with
  | O => (strsec, symsec)
  | S n' =>
      let hdr := Elf32_Shdr_at file sec in
      if sh_type hdr =? SHT_STRTAB then
        getelf_loop file n' (sec + sizeof_Elf32_Shdr) (Some hdr) symsec
      else if sh_type hdr =? SHT_SYMTAB then
        getelf_loop file n' (sec + sizeof_Elf32_Shdr) strsec (Some hdr)
      else getelf_loop file n' (sec + sizeof_Elf32_Shdr) strsec symsec
  end.

(** getelf(): the string table and the symbol table it fills [dso] with,
    or failure. *)
Definition getelf (file : list ascii) : option (list ascii * list Elf32_Sym) :=
  (* Is it ELF at all? *)
  if negb (byte_at file 0 =? 127) || negb (byte_at file 1 =? 69) then None
  else if negb (byte_at file 2 =? 76) || negb (byte_at file 3 =? 70) then None
  else
    (* Find the string and symbol tables. *)
    match getelf_loop file (Z.to_nat (Elf32_Half_at file 48))
                      (Elf32_Word_at file 32) None None with
    | (Some strsec, Some symsec) =>
        (* Sanity checking. *)
        if negb (sh_entsize symsec =? sizeof_Elf32_Sym) then None
        else
          Some (bytes_between file (sh_offset strsec)
                              (sh_offset strsec + sh_size strsec),
                syms_between file (Z.to_nat (sh_size symsec))
                             (sh_offset symsec)
                             (sh_offset symsec + sh_size symsec))
    | _ => None
    end.

(** What getdso() asks of the system: whether open() of a path succeeds,
    whether fstat() of the file then does, and what mmap() makes of it. *)
Record files : Type := mkFiles {
  can_open : string -> bool;
  can_fstat : string -> bool;
  mapping : string -> option (list ascii)
}.

(** The calls getdso() and its caller make on a file; the descriptor and
    the mapping are named by the path that was opened. *)
Inductive syscall : Type :=
| sys_open (path : string) (ok : bool)
| sys_fstat (path : string) (ok : bool)
| sys_mmap (path : string) (ok : bool)
| sys_munmap (path : string)
| sys_close (path : string).

(** getdso(): the tables, or failure, and the calls made. *)
Definition getdso_on (fs : files) (fname : string)
  : option (list ascii * list Elf32_Sym) * list syscall :=
  let opened :=
    if can_open fs fname then (Some fname, [sys_open fname true])
    else if Ascii.eqb (deref fname) "/" then (None, [sys_open fname false])
    else if can_open fs "/proc/self/exe"
    then (Some "/proc/self/exe",
          [sys_open fname false; sys_open "/proc/self/exe" true])
    else (None, [sys_open fname false; sys_open "/proc/self/exe" false]) in
  match opened with
  | (None, calls) => (None, calls)
  | (Some hfile, calls) =>
      if negb (can_fstat fs hfile) then
        (None, (calls ++ [sys_fstat hfile false; sys_close hfile])%list)
      else
        match mapping fs hfile with
        | None =>
            (None, (calls ++ [sys_fstat hfile true; sys_mmap hfile false;
                              sys_close hfile])%list)
        | Some file =>
            match getelf file with
            | None =>
                (None, (calls ++ [sys_fstat hfile true; sys_mmap hfile true;
                                  sys_munmap hfile; sys_close hfile])%list)
            | Some tables =>
                (Some tables,
                 (calls ++ [sys_fstat hfile true; sys_mmap hfile true])%list)
            end
        end
  end.

(** A process whose files are [fs]: getdso() is the function above. *)
Definition world_on (fs : files) (env : string -> option string)
    (loader : Z -> option Dl_info) (tmpfile : Z) (armel : bool) : world :=
  mkWorld env loader (fun fname => fst (getdso_on fs fname)) tmpfile armel.

(** The descriptors and mappings a run of calls leaves open. *)
Fixpoint left_open (calls : list syscall) (held : list syscall)
  : list syscall :=
  match calls with
  | [] => held
  | sys_open path true :: calls' =>
      left_open calls' (sys_open path true :: held)
  | sys_mmap path true :: calls' =>
      left_open calls' (sys_mmap path true :: held)
  | sys_munmap path :: calls' =>
      left_open calls'
        (filter (fun c => match c with
                          | sys_mmap p _ => negb (String.eqb p path)
                          | _ => true
                          end) held)
  | sys_close path :: calls' =>
      left_open calls'
        (filter (fun c => match c with
                          | sys_open p _ => negb (String.eqb p path)
                          | _ => true
                          end) held)
  | _ :: calls' => left_open calls' held
  end.

(** The headers getelf() walks over, in the order of the file. *)
Fixpoint section_headers (file : list ascii) (n : nat) (sec : Z)
  : list Elf32_Shdr :=
  match n with
  | O => []
  | S n' =>
      Elf32_Shdr_at file sec
      :: section_headers file n' (sec + sizeof_Elf32_Shdr)
  end.

(** The last header of a type. *)
Definition last_of_type (type : Z) (headers : list Elf32_Shdr)
  : option Elf32_Shdr :=
  find (fun hdr => sh_type hdr =? type) (rev headers).

(** The path a call is about. *)
Definition path_of (call : syscall) : string :=
  match call with
  | sys_open path _ | sys_fstat path _ | sys_mmap path _
  | sys_munmap path | sys_close path => path
  end.

(** A small image to try the readers on: the ELF header, two section
    headers at offset 52 (a string table and a symbol table), the strings
    at 132 and two symbols at 142. *)
Definition Elf32_Word_bytes (v : Z) : list ascii :=
  map (fun k => ascii_of_N (Z.to_N ((v / 256 ^ k) mod 256))) [0; 1; 2; 3].

Definition Elf32_Half_bytes (v : Z) : list ascii :=
  map (fun k => ascii_of_N (Z.to_N ((v / 256 ^ k) mod 256))) [0; 1].

Definition Elf32_Shdr_bytes (hdr : Elf32_Shdr) : list ascii :=
  (Elf32_Word_bytes 0 ++ Elf32_Word_bytes (sh_type hdr)
   ++ Elf32_Word_bytes 0 ++ Elf32_Word_bytes 0
   ++ Elf32_Word_bytes (sh_offset hdr) ++ Elf32_Word_bytes (sh_size hdr)
   ++ Elf32_Word_bytes 0 ++ Elf32_Word_bytes 0 ++ Elf32_Word_bytes 0
   ++ Elf32_Word_bytes (sh_entsize hdr))%list.

Definition Elf32_Sym_bytes (sym : Elf32_Sym) : list ascii :=
  (Elf32_Word_bytes (st_name sym) ++ Elf32_Word_bytes (st_value sym)
   ++ Elf32_Word_bytes 0 ++ Elf32_Word_bytes 0)%list.

Definition small_strtab : list ascii :=
  list_ascii_of_string (String zero ("main" ++ String zero ("foo" ++ String zero ""))).

Definition small_symtab : list Elf32_Sym := [mkSym 1 4096; mkSym 6 4160].

Definition small_elf : list ascii :=
  (list_ascii_of_string (String (ascii_of_N 127) "ELF")
   ++ repeat zero 28 ++ Elf32_Word_bytes 52 ++ repeat zero 12
   ++ Elf32_Half_bytes 2 ++ repeat zero 2
   ++ Elf32_Shdr_bytes (mkShdr SHT_STRTAB 132 10 0)
   ++ Elf32_Shdr_bytes (mkShdr SHT_SYMTAB 142 32 16)
   ++ small_strtab
   ++ Elf32_Sym_bytes (mkSym 1 4096) ++ Elf32_Sym_bytes (mkSym 6 4160))%list.

(** ** The notions of the specification

    The definitions below follow the words of the specification, or name
    what the theorems and their proofs speak about; none of them is part
    of the program. *)

(** *** Word lists (section 4.2) *)

(** The basename of a path: the substring after the last ['/'], or the
    whole string if there is none. *)
Fixpoint after_last_slash (x : string) : option string :=
  match x with
  | EmptyString => None
  | String c x' =>
      match after_last_slash x' with
      | Some b => Some b
      | None => if Ascii.eqb c "/" then Some x' else None
      end
  end.

Definition basename (x : string) : string :=
  match after_last_slash x with
  | Some b => b
  | None => x
  end.

(** The segments a string falls into at its colons. *)
Fixpoint split_colons (s : string) : list string :=
  match s with
  | EmptyString => [EmptyString]
  | String c s' =>
      if Ascii.eqb c ":" then EmptyString :: split_colons s'
      else match split_colons s' with
           | seg :: more => String c seg :: more
           | [] => [String c EmptyString]
           end
  end.

(** The segments of a colon-separated list; the empty string lists
    nothing. *)
Definition colon_segments (s : string) : list string :=
  match s with
  | EmptyString => []
  | _ => split_colons s
  end.

(** The unsigned sum of the bytes of a string. *)
Fixpoint byte_sum (s : string) : Z :=
  match s with
  | EmptyString => 0
  | String c s' => unsigned_of_char c + byte_sum s'
  end.

(** Every malloc() still to come returns memory. *)
Definition enough_memory (s : io) : Prop := Forall (eq true) (mallocs s).

(** The segments mkwords() gets an entry for: those before the first
    allocation that fails. *)
Fixpoint built_segments (mallocs : list bool) (segs : list string)
    {struct segs} : list string :=
  match segs with
  | [] => []
  | seg :: more =>
      match mallocs with
      | [] => segs
      | false :: _ => []
      | true :: mallocs' => seg :: built_segments mallocs' more
      end
  end.

(** A list entry stands for a segment: it holds its hash and length and
    points at it. *)
Definition represents (w : word_st.t) (seg : string) : Prop :=
  word_st.hash w = wrap32 (byte_sum seg)
  /\ word_st.length w = wrap32 (Z.of_nat (String.length seg))
  /\ exists rest, word_st.word w = seg ++ rest.

(** *** Extended globs (section 4.3) *)

(** The pattern grammar: an alternation is a list of sequences separated by
    [':'], a sequence is a run of items, an item is ['*'], ['?'], a literal
    byte or a parenthesised alternation. *)
Inductive glob_seq : Type :=
| SNil
| SCons (i : glob_item) (s : glob_seq)
with glob_item : Type :=
| Star
| Quest
| Lit (c : ascii)
| Group (a : glob_alt)
with glob_alt : Type :=
| AOne (s : glob_seq)
| ACons (s : glob_seq) (a : glob_alt).

(** The pattern string of a term of the grammar. *)
Fixpoint print_seq (s : glob_seq) : string :=
  match s with
  | SNil => EmptyString
  | SCons i s' => print_item i ++ print_seq s'
  end
with print_item (i : glob_item) : string :=
  match i with
  | Star => "*"
  | Quest => "?"
  | Lit c => String c EmptyString
  | Group a => "(" ++ print_alt a ++ ")"
  end
with print_alt (a : glob_alt) : string :=
  match a with
  | AOne s => print_seq s
  | ACons s a' => print_seq s ++ ":" ++ print_alt a'
  end.

(** The bytes with a meaning of their own cannot stand for themselves. *)
Definition is_meta (c : ascii) : bool :=
  Ascii.eqb c "*" || Ascii.eqb c "?" || Ascii.eqb c ":"
  || Ascii.eqb c "(" || Ascii.eqb c ")".

Fixpoint literals_ok_seq (s : glob_seq) : bool :=
  match s with
  | SNil => true
  | SCons i s' => literals_ok_item i && literals_ok_seq s'
  end
with literals_ok_item (i : glob_item) : bool :=
  match i with
  | Star | Quest => true
  | Lit c => negb (is_meta c)
  | Group a => literals_ok_alt a
  end
with literals_ok_alt (a : glob_alt) : bool :=
  match a with
  | AOne s => literals_ok_seq s
  | ACons s a' => literals_ok_seq s && literals_ok_alt a'
  end.

(** The strings a pattern derives: ['*'] any run of bytes, ['?'] exactly
    one byte, a literal itself, a group what one of its alternatives
    derives, a sequence the concatenations of what its items derive. *)
Fixpoint derives_seq (s : glob_seq) (t : string) : Prop :=
  match s with
  | SNil => t = EmptyString
  | SCons i s' =>
      exists t1 t2, t = t1 ++ t2 /\ derives_item i t1 /\ derives_seq s' t2
  end
with derives_item (i : glob_item) (t : string) : Prop :=
  match i with
  | Star => True
  | Quest => exists c, t = String c EmptyString
  | Lit c => t = String c EmptyString
  | Group a => derives_alt a t
  end
with derives_alt (a : glob_alt) (t : string) : Prop :=
  match a with
  | AOne s => derives_seq s t
  | ACons s a' => derives_seq s t \/ derives_alt a' t
  end.

(** What follows a sequence inside a pattern: the alternatives after it in
    its group, then, for each group around it from the innermost out, the
    closing parenthesis, the rest of the sequence the group stands in and
    the alternatives after that one. *)
Definition print_rest (more : option glob_alt) : string :=
  match more with
  | None => EmptyString
  | Some a => ":" ++ print_alt a
  end.

Fixpoint print_after (ctx : list (glob_seq * option glob_alt)) : string :=
  match ctx with
  | [] => EmptyString
  | (s, more) :: ctx' =>
      ")" ++ print_seq s ++ print_rest more ++ print_after ctx'
  end.

(** What the sequences after the enclosing groups derive, one after the
    other. *)
Fixpoint derives_after (ctx : list (glob_seq * option glob_alt))
    (t : string) : Prop :=
  match ctx with
  | [] => t = EmptyString
  | (s, _) :: ctx' =>
      exists t1 t2, t = t1 ++ t2 /\ derives_seq s t1 /\ derives_after ctx' t2
  end.

Definition literals_ok_rest (more : option glob_alt) : bool :=
  match more with
  | None => true
  | Some a => literals_ok_alt a
  end.

Fixpoint literals_ok_after (ctx : list (glob_seq * option glob_alt)) : bool :=
  match ctx with
  | [] => true
  | (s, more) :: ctx' =>
      literals_ok_seq s && literals_ok_rest more && literals_ok_after ctx'
  end.

(** What a sequence followed by the sequences after the enclosing groups
    derives. *)
Definition derives_conc (s : glob_seq)
    (ctx : list (glob_seq * option glob_alt)) (t : string) : Prop :=
  exists t1 t2, t = t1 ++ t2 /\ derives_seq s t1 /\ derives_after ctx t2.

(** match_glob() with a budget of [fuel] decides what the rest of a
    pattern derives, from any point where a sequence starts. *)
Definition match_glob_decides (fuel : nat) : Prop :=
  forall s more ctx t,
    literals_ok_seq s = true -> literals_ok_rest more = true ->
    literals_ok_after ctx = true ->
    Z.of_nat (String.length
                (print_seq s ++ print_rest more ++ print_after ctx))
    < 2 ^ 32 ->
    (2 * String.length (print_seq s ++ print_rest more ++ print_after ctx)
     + 1 <= fuel)%nat ->
    exists b,
      match_glob_fuel fuel
        (print_seq s ++ print_rest more ++ print_after ctx) t = Some b
      /\ (b = true <-> derives_conc s ctx t).

(** match_eglob() with a budget of [fuel] decides what an alternation and
    what follows its group derive. *)
Definition match_eglob_decides (fuel : nat) : Prop :=
  forall a ctx t,
    literals_ok_alt a = true -> literals_ok_after ctx = true ->
    Z.of_nat (String.length (print_alt a ++ print_after ctx)) < 2 ^ 32 ->
    (2 * String.length (print_alt a ++ print_after ctx) + 2 <= fuel)%nat ->
    exists b,
      match_eglob_fuel fuel (print_alt a ++ print_after ctx) t = Some b
      /\ (b = true <->
          exists t1 t2, t = t1 ++ t2 /\ derives_alt a t1
                        /\ derives_after ctx t2).

(** The grammar derives [t] from the pattern string [p]: [p] is the
    string of a term of the grammar, and that term derives [t]. *)
Definition grammar_derives (p t : string) : Prop :=
  exists a, literals_ok_alt a = true /\ print_alt a = p /\ derives_alt a t.

(** The depth of grouping at the end of a string that is entered at depth
    [d]; none if a [')'] on the way closes no group. *)
Fixpoint nesting (d : nat) (p : string) : option nat :=
  match p with
  | EmptyString => Some d
  | String c p' =>
      if Ascii.eqb c "(" then nesting (S d) p'
      else if Ascii.eqb c ")" then
        match d with
        | O => None
        | S d' => nesting d' p'
        end
      else nesting d p'
  end.

Scheme glob_seq_mut := Induction for glob_seq Sort Prop
  with glob_item_mut := Induction for glob_item Sort Prop
  with glob_alt_mut := Induction for glob_alt Sort Prop.

Combined Scheme glob_mutind from glob_seq_mut, glob_item_mut, glob_alt_mut.

(** *** Symbol lookup (section 4.5, step 5) *)

(** The address a symbol's value is compared with: [pc] itself when the
    value is greater than the load base (absolute addresses), [pc] minus
    the load base otherwise (offsets). *)
Definition comparison_address (base pc : Z) (sym : Elf32_Sym) : Z :=
  if st_value sym >? base then pc else wrap32 (pc - base).

Definition gap (base pc : Z) (sym : Elf32_Sym) : Z :=
  comparison_address base pc sym - st_value sym.

(** A candidate: at or below the comparison address, its name inside the
    string table and not beginning with ['$']. *)
Definition qualifies (dso : dso_st) (base pc : Z) (sym : Elf32_Sym) : Prop :=
  st_value sym <= comparison_address base pc sym
  /\ st_name sym < Z.of_nat (List.length (strtab dso))
  /\ nth (Z.to_nat (st_name sym)) (strtab dso) zero <> "$"%char.

(** The candidate with the smallest gap, the earliest of them on a tie. *)
Definition selected (dso : dso_st) (base pc : Z) (table : list Elf32_Sym)
    (sym : Elf32_Sym) : Prop :=
  exists before after,
    table = (before ++ sym :: after)%list
    /\ qualifies dso base pc sym
    /\ (forall s, In s before -> qualifies dso base pc s ->
                  gap base pc sym < gap base pc s)
    /\ (forall s, In s after -> qualifies dso base pc s ->
                  gap base pc sym <= gap base pc s).

(** The fields of a 32-bit ELF image and the addresses of a 32-bit
    process. *)
Definition u32 (z : Z) : Prop := 0 <= z < 2 ^ 32.

Definition elf32_dso (dso : dso_st) : Prop :=
  Forall (fun sym => u32 (st_name sym) /\ u32 (st_value sym)) (symtab dso).

(** *** The trace (sections 4.8 and 4.9) *)

(** The depth a trace line shows; diagnostics and the SYMTAB block are no
    trace lines. *)
Definition trace_depth (l : line) : option Z :=
  match l with
  | TraceAsync _ _ depth _ _ => Some depth
  | TraceName _ _ depth _ _ _ _ => Some depth
  | TraceAddr _ _ depth _ _ _ _ => Some depth
  | _ => None
  end.

Definition is_trace (l : line) : bool :=
  match trace_depth l with
  | Some _ => true
  | None => false
  end.

(** The trace lines emitted so far. *)
Definition emitted (t : tracer) : list line :=
  filter is_trace (output (sys t)).

(** A step that leaves the counters, the flags and print_trace()'s own
    statics alone and emits no trace line: what the report decisions and
    addr2name() do. *)
Definition silent_step (t t' : tracer) : Prop :=
  Tracing t' = Tracing t
  /\ Callstack_depth t' = Callstack_depth t
  /\ Async_fd t' = Async_fd t
  /\ pi_statics t' = pi_statics t
  /\ pt_statics t' = pt_statics t
  /\ backlog t' = backlog t
  /\ at_exit t' = at_exit t
  /\ handlers t' = handlers t
  /\ emitted t' = emitted t.

(** A step that changes neither the depth counter nor the tracing flag nor
    the signal handlers and emits no trace line. *)
Definition quiet_step (t t' : tracer) : Prop :=
  Tracing t' = Tracing t
  /\ Callstack_depth t' = Callstack_depth t
  /\ handlers t' = handlers t
  /\ emitted t' = emitted t.

(** What one call of print_trace() does to the trace: nothing, or one line
    that shows the depth counter. *)
Definition emits_at_most_one (t t' : tracer) (r : Z) : Prop :=
  Tracing t' = Tracing t
  /\ Callstack_depth t' = Callstack_depth t
  /\ handlers t' = handlers t
  /\ (r = 0 \/ r = 1)
  /\ (emitted t' = emitted t
      \/ exists l, emitted t' = (emitted t ++ [l])%list
                   /\ trace_depth l = Some (Callstack_depth t) /\ r = 1).

(** The depth limit the environment asks for: none, or what atoi() makes
    of a non-empty $TRACY_MAXDEPTH, as an unsigned. *)
Definition env_depth_limit (w : world) : option Z :=
  match getenv w "TRACY_MAXDEPTH" with
  | Some (String c env') => Some (wrap32 (atoi (String c env')))
  | _ => None
  end.

(** Synchronous mode: async mode is not asked for, or its file cannot be
    created. *)
Definition synchronous (w : world) : Prop :=
  getenv_is_1 w "TRACY_ASYNC" = false \/ mkstemp w < 0.

(** print_trace()'s statics are unread or hold what the environment says,
    and the depth counter is an unsigned: true of the state the library
    is loaded with and kept by every entry point. *)
Definition agrees (w : world) (t : tracer) : Prop :=
  let st := pt_statics t in
  (print_trace_statics.depth_limited st < 0
   \/ match env_depth_limit w with
      | Some limit => print_trace_statics.depth_limited st = 1
                      /\ print_trace_statics.depth_limit st = limit
      | None => print_trace_statics.depth_limited st = 0
      end)
  /\ ((print_trace_statics.be_async st < 0 /\ Async_fd t < 0)
      \/ (print_trace_statics.be_async st = 0 /\ Async_fd t < 0
          /\ synchronous w)
      \/ (print_trace_statics.be_async st = 1 /\ 0 <= Async_fd t
          /\ ~ synchronous w))
  /\ (print_trace_statics.entries_only st < 0
      \/ print_trace_statics.entries_only st
         = Z_of_bool (getenv_is_1 w "TRACY_LOG_ENTRIES_ONLY"))
  /\ 0 <= Callstack_depth t < 2 ^ 32.

(** The state once print_trace() has read the configuration it reads
    before it resolves the address. *)
Definition config_read (w : world) (t : tracer) : tracer :=
  read_indent w (read_entries_only w (read_async w (read_maxdepth w t))).

(** *** A small process to run the entry points in *)

(** An environment given as a list of assignments. *)
Definition environment (l : list (string * string)) (name : string)
  : option string :=
  match find (fun p => String.eqb (fst p) name) l with
  | Some p => Some (snd p)
  | None => None
  end.

(** A program /bin/prog whose functions main, foo, bar and g the loader
    knows by name, at the addresses 1000, 2000, 3000 and 4000. *)
Definition prog_loader (addr : Z) : option Dl_info :=
  let known name start :=
    Some (mkDlInfo (Some (1, "/bin/prog")) 0 (Some name) start) in
  if (1000 <=? addr) && (addr <? 2000) then known "main" 1000
  else if (2000 <=? addr) && (addr <? 3000) then known "foo" 2000
  else if (3000 <=? addr) && (addr <? 4000) then known "bar" 3000
  else if (4000 <=? addr) && (addr <? 5000) then known "g" 4000
  else None.

Definition prog (env : list (string * string)) : world :=
  mkWorld (environment env) prog_loader (fun _ => None) (-1) false.

(** The backtrace print_trace() gets when called from the hook of the
    function at [addr]. *)
Definition called_from (addr : Z) : list Z := [10; 20; addr + 4].

Definition enter (w : world) (addr : Z) (t : tracer) : tracer :=
  __cyg_profile_func_enter w addr 0 (called_from addr) t.

Definition leave (w : world) (addr : Z) (t : tracer) : tracer :=
  __cyg_profile_func_exit w addr 0 (called_from addr) t.

(** *** Patterns put together *)

(** The alternation of two alternations, [a:b]. *)
Fixpoint alt_app (a b : glob_alt) : glob_alt :=
  match a with
  | AOne s => ACons s b
  | ACons s a' => ACons s (alt_app a' b)
  end.

(** One sequence after another. *)
Fixpoint seq_app (s1 s2 : glob_seq) : glob_seq :=
  match s1 with
  | SNil => s2
  | SCons i s1' => SCons i (seq_app s1' s2)
  end.

(** The sequence of literals that spells a string. *)
Fixpoint literal (p : string) : glob_seq :=
  match p with
  | EmptyString => SNil
  | String c p' => SCons (Lit c) (literal p')
  end.

(** No byte of the string is one of the five special ones. *)
Fixpoint plain (p : string) : bool :=
  match p with
  | EmptyString => true
  | String c p' => negb (is_meta c) && plain p'
  end.

(** *** Paths *)

(** The string has no ['/']. *)
Fixpoint slash_free (s : string) : bool :=
  match s with
  | EmptyString => true
  | String c s' => negb (Ascii.eqb c "/") && slash_free s'
  end.

(** *** The report decisions *)

(** What the environment says about a function name: $TRACY_INFUNS, if
    not empty, admits the names it matches, and no unknown name; otherwise
    $TRACY_EXFUNS, if not empty, admits the names it does not match;
    otherwise every name is admitted. *)
Definition function_reported (w : world) (funame : option string) : bool :=
  match getenv w "TRACY_INFUNS" with
  | Some (String c p) =>
      match funame with
      | Some name => eglob_matches (String c p) name
      | None => false
      end
  | _ =>
      match getenv w "TRACY_EXFUNS" with
      | Some (String c p) =>
          match funame with
          | Some name => negb (eglob_matches (String c p) name)
          | None => true
          end
      | _ => true
      end
  end.

(** What the environment says about the file of a DSO: the name to report
    it under, if it is to be reported. *)
Definition library_reported (w : world) (fname : string) : option string :=
  let listed (env : string) : bool :=
    existsb (String.eqb (basename fname)) (colon_segments env) in
  match getenv w "TRACY_INLIBS" with
  | Some (String c s) =>
      if listed (String c s) then Some (basename fname) else None
  | _ =>
      match getenv w "TRACY_EXLIBS" with
      | Some (String c s) =>
          if listed (String c s) then None else Some (basename fname)
      | _ => Some (basename fname)
      end
  end.

(** The second half of report_dso(): what the statics, once read, make of
    a file name. *)
Definition dso_verdict (st : report_dso_statics.t) (fname : string)
  : option string :=
  if negb (report_dso_statics.report_all st) then
    match match_words (report_dso_statics.flist st) fname with
    | Some base =>
        if report_dso_statics.is_whitelist st then Some base else None
    | None =>
        if report_dso_statics.is_whitelist st then None
        else Some (basename fname)
    end
  else Some (basename fname).

(** *** The name in a file that is unmapped again *)

(** addr2name() is on the path where it unmaps the file the name lies in:
    the file of the address passes the library filter and is not in the
    cache, the loader gave no symbol name, getdso() succeeds, the tables
    have a name for the address, and malloc() fails for the cache
    entry. *)
Definition name_unmapped (w : world) (addr : Z) (t : tracer) : Prop :=
  exists info fname_ptr fname_text strs syms,
    dladdr w addr = Some info
    /\ dli_fname info = Some (fname_ptr, fname_text)
    /\ dli_sname info = None
    /\ fst (report_dso w fname_text t) <> None
    /\ find_seen fname_ptr (seen t) = None
    /\ getdso w fname_text = Some (strs, syms)
    /\ getsym (mkDso fname_ptr strs syms) (dli_fbase info)
              (if negb (dli_saddr info =? 0) then dli_saddr info else addr)
       <> None
    /\ fst (malloc (sys (snd (report_dso w fname_text t)))) = false.

(** *** Runs of the entry points *)

(** What happens to the library in a process: the instrumented code calls
    one of the two hooks, or a signal is delivered. *)
Inductive event : Type :=
| ev_enter (self callsite : Z) (frames : list Z)
| ev_exit (self callsite : Z) (frames : list Z)
| ev_signal (signum : Z).

(** Nothing happens any more in a process that has been killed. *)
Definition step (w : world) (e : event) (t : tracer) : tracer :=
  if killed t then t
  else
    match e with
    | ev_enter self callsite frames =>
        __cyg_profile_func_enter w self callsite frames t
    | ev_exit self callsite frames =>
        __cyg_profile_func_exit w self callsite frames t
    | ev_signal signum => deliver signum t
    end.

Fixpoint run (w : world) (events : list event) (t : tracer) : tracer :=
  match events with
  | [] => t
  | e :: events' => run w events' (step w e t)
  end.

(** Every trace line emitted so far shows a depth below [limit]. *)
Definition below_limit (limit : Z) (t : tracer) : Prop :=
  Forall (fun l => forall d, trace_depth l = Some d -> d < limit)
         (emitted t).

(** The signal $TRACY_SIGNAL names. *)
Definition env_signal (env : string) : Z :=
  if Ascii.eqb (deref env) "y" || Ascii.eqb (deref env) "Y" then SIGPROF
  else atoi env.

(** The address a line of the symbol table is about. *)
Definition symtab_address (l : line) : list Z :=
  match l with
  | SymtabName addr _ _ => [addr]
  | SymtabAddr addr _ => [addr]
  | _ => []
  end.

(** A line of the symbol table. *)
Definition is_table (l : line) : bool :=
  match l with
  | SymtabName _ _ _ | SymtabAddr _ _ => true
  | _ => false
  end.

(** The loader alone tells what addr2name() makes of the address: it knows
    no file for it, or it knows the name of the function too, so that no
    symbol table is asked. *)
Definition loader_resolves (w : world) (addr : Z) : bool :=
  match dladdr w addr with
  | Some info =>
      match dli_fname info, dli_sname info with
      | Some _, None => false
      | _, _ => true
      end
  | None => true
  end.

(** The line of the table for such an address, with the filters answering
    as they do in the state [t]. *)
Definition table_line (w : world) (t : tracer) (addr : Z) : list line :=
  let unknown :=
    if fst (report_function w None t) then [SymtabAddr addr "[???]"]
    else [] in
  match dladdr w addr with
  | None => unknown
  | Some info =>
      match dli_fname info with
      | None => unknown
      | Some (_, fname_text) =>
          match fst (report_dso w fname_text t), dli_sname info with
          | Some fname, Some sname =>
              if fst (report_function w (Some sname) t)
              then [SymtabName addr fname sname] else []
          | _, _ => []
          end
      end
  end.

(** The two filters hold in [t] what they hold, or would come to hold, in
    [t0]. *)
Definition same_filters (w : world) (t0 t : tracer) : Prop :=
  dso_statics (report_dso_read w t) = dso_statics (report_dso_read w t0)
  /\ fun_statics (report_function_read w t)
     = fun_statics (report_function_read w t0).

(** [xs] is [ys] with some of its elements left out. *)
Inductive subsequence : list Z -> list Z -> Prop :=
| subsequence_nil : subsequence [] []
| subsequence_skip (y : Z) (xs ys : list Z) :
    subsequence xs ys -> subsequence xs (y :: ys)
| subsequence_take (y : Z) (xs ys : list Z) :
    subsequence xs ys -> subsequence (y :: xs) (y :: ys).

(** A step that touches neither the filters nor the cache nor the backlog:
    what print_trace() does when it reads its own settings. *)
Definition keeps_filters (t t' : tracer) : Prop :=
  dso_statics t' = dso_statics t
  /\ fun_statics t' = fun_statics t
  /\ seen t' = seen t
  /\ backlog t' = backlog t.

(** A step that logs nothing but allocation diagnostics. *)
Definition logs_diagnostics (t t' : tracer) : Prop :=
  exists diags,
    output (sys t') = (output (sys t) ++ diags)%list
    /\ Forall (eq DiagMalloc) diags.

(** * Proofs *)

(** ** Machine arithmetic and strings *)

Lemma wrap32_small (z : Z) : 0 <= z < 2 ^ 32 -> wrap32 z = z.
Proof. intros H. unfold wrap32. now apply Z.mod_small. Qed.

Lemma wrap32_add_l (a b : Z) : wrap32 (wrap32 a + b) = wrap32 (a + b).
Proof. unfold wrap32. now rewrite Zplus_mod_idemp_l. Qed.

Lemma append_nil_r (s : string) : s ++ "" = s.
Proof. induction s as [|c s IH]; simpl; [reflexivity | now rewrite IH]. Qed.

Lemma append_assoc (a b c : string) : (a ++ b) ++ c = a ++ (b ++ c).
Proof. induction a as [|x a IH]; simpl; [reflexivity | now rewrite IH]. Qed.

Lemma length_append (a b : string) :
  String.length (a ++ b) = (String.length a + String.length b)%nat.
Proof. induction a as [|x a IH]; simpl; [reflexivity | now rewrite IH]. Qed.

Lemma byte_sum_append (a b : string) :
  byte_sum (a ++ b) = byte_sum a + byte_sum b.
Proof. induction a as [|x a IH]; simpl; [reflexivity | rewrite IH; ring]. Qed.

Lemma byte_value_inj (a b : ascii) : byte_value a = byte_value b -> a = b.
Proof.
  unfold byte_value. intros H. apply N2Z.inj in H.
  rewrite <- (ascii_N_embedding a), <- (ascii_N_embedding b). now rewrite H.
Qed.

(** ** fgrep matching *)

Lemma hash_path_loop_spec (path : string) : forall (h l : Z) (p : string),
  hash_path_loop (word_st.mk (wrap32 h) (wrap32 l) p) path =
  match after_last_slash path with
  | Some b => word_st.mk (wrap32 (byte_sum b))
                         (wrap32 (Z.of_nat (String.length b))) b
  | None => word_st.mk (wrap32 (h + byte_sum path))
                       (wrap32 (l + Z.of_nat (String.length path))) p
  end.
Proof.
  induction path as [|c path IH]; intros h l p.
  - simpl. now rewrite !Z.add_0_r.
  - simpl hash_path_loop. simpl after_last_slash.
    destruct (Ascii.eqb c "/") eqn:Ec; simpl negb; cbv iota.
    + change (word_st.mk 0 0 path)
        with (word_st.mk (wrap32 0) (wrap32 0) path).
      rewrite IH. destruct (after_last_slash path); reflexivity.
    + cbn [word_st.hash word_st.length word_st.word].
      rewrite !wrap32_add_l, IH.
      destruct (after_last_slash path); [reflexivity|].
      cbn [byte_sum String.length]. f_equal; f_equal; lia.
Qed.

Lemma hash_path_spec (path : string) :
  hash_path path =
  word_st.mk (wrap32 (byte_sum (basename path)))
             (wrap32 (Z.of_nat (String.length (basename path))))
             (basename path).
Proof.
  unfold hash_path, basename.
  change (word_st.mk 0 0 path) with (word_st.mk (wrap32 0) (wrap32 0) path).
  rewrite hash_path_loop_spec. destruct (after_last_slash path); reflexivity.
Qed.

Lemma split_colons_cons (s : string) :
  exists seg more, split_colons s = seg :: more.
Proof.
  induction s as [|c s [seg [more IH]]]; simpl.
  - now eexists _, _.
  - destruct (Ascii.eqb c ":"); [now eexists _, _|].
    rewrite IH. now eexists _, _.
Qed.

Lemma represents_intro (h l : Z) (p pre rest : string) :
  h = byte_sum pre -> l = Z.of_nat (String.length pre) -> p = pre ++ rest ->
  represents (word_st.mk (wrap32 h) (wrap32 l) p) pre.
Proof. intros -> -> ->. repeat split. now exists rest. Qed.

(** A failed allocation ends the list at the entry being filled, which is
    complete: the colon that asked for the next entry ended its segment. *)
Lemma mkwords_loop_spec (str : string) :
  forall (h l : Z) (p pre : string) (s : io) (seg : string)
         (more : list string),
  h = byte_sum pre -> l = Z.of_nat (String.length pre) ->
  p = pre ++ str -> split_colons str = seg :: more ->
  Forall2 represents
          (fst (mkwords_loop (word_st.mk (wrap32 h) (wrap32 l) p) str s))
          ((pre ++ seg) :: built_segments (mallocs s) more)
  /\ output (snd (mkwords_loop (word_st.mk (wrap32 h) (wrap32 l) p) str s))
     = (output s ++
        if (List.length (built_segments (mallocs s) more)
            <? List.length more)%nat
        then [DiagMalloc] else [])%list.
Proof.
  induction str as [|c str IH]; intros h l p pre s seg more Hh Hl Hp Hs.
  - simpl in Hs. injection Hs as <- <-. simpl. split.
    + constructor; [|constructor].
      rewrite append_nil_r in *. eapply represents_intro; eauto.
      now rewrite append_nil_r.
    + now rewrite app_nil_r.
  - simpl in Hs. simpl mkwords_loop.
    destruct (Ascii.eqb c ":") eqn:Ec; simpl negb; cbv iota.
    + injection Hs as <- <-.
      apply Ascii.eqb_eq in Ec. subst c.
      destruct (split_colons_cons str) as [seg' [more' Hs']].
      rewrite Hs', append_nil_r. unfold malloc.
      assert (Hw : represents (word_st.mk (wrap32 h) (wrap32 l) p) pre)
        by (eapply represents_intro; eauto).
      destruct (mallocs s) as [|[|] ms] eqn:Em.
      * (* the list of outcomes is exhausted: memory is returned *)
        specialize (IH 0 0 str "" s seg' more' eq_refl eq_refl eq_refl Hs').
        rewrite Em in IH. 
        change (word_st.mk 0 0 str)
          with (word_st.mk (wrap32 0) (wrap32 0) str).
        destruct (mkwords_loop _ str s) as [rest s2]. simpl in *.
        destruct IH as [IH1 IH2]. split.
        -- constructor; [exact Hw|].
           destruct more'; simpl in *; exact IH1.
        -- rewrite IH2. f_equal. rewrite Nat.ltb_irrefl.
           destruct more'; simpl; rewrite ?Nat.ltb_irrefl; reflexivity.
      * specialize (IH 0 0 str "" (mkIo ms (output s)) seg' more'
                       eq_refl eq_refl eq_refl Hs').
        change (word_st.mk 0 0 str)
          with (word_st.mk (wrap32 0) (wrap32 0) str).
        destruct (mkwords_loop _ str (mkIo ms (output s))) as [rest s2].
        simpl in *. destruct IH as [IH1 IH2]. split.
        -- constructor; [exact Hw|]. exact IH1.
        -- rewrite IH2. reflexivity.
      * simpl. split.
        -- constructor; [exact Hw | constructor].
        -- reflexivity.
    + destruct (split_colons_cons str) as [seg' [more' Hs']].
      rewrite Hs' in Hs. injection Hs as <- <-.
      cbn [word_st.hash word_st.length word_st.word].
      rewrite !wrap32_add_l.
      specialize (IH (h + unsigned_of_char c) (l + 1) p
                     (pre ++ String c "") s seg' more').
      replace (pre ++ String c seg') with ((pre ++ String c "") ++ seg')
        by now rewrite append_assoc.
      apply IH; auto.
      * rewrite byte_sum_append. simpl. lia.
      * rewrite length_append. simpl. lia.
      * now rewrite append_assoc.
Qed.

Lemma mkwords_spec (str : string) (s : io) :
  Forall2 represents (fst (mkwords str s))
          (built_segments (mallocs s) (colon_segments str))
  /\ output (snd (mkwords str s))
     = (output s ++
        if (List.length (built_segments (mallocs s) (colon_segments str))
            <? List.length (colon_segments str))%nat
        then [DiagMalloc] else [])%list.
Proof.
  destruct str as [|c str'].
  - simpl. split; [constructor | now rewrite app_nil_r].
  - set (str := String c str').
    destruct (split_colons_cons str) as [seg [more Hs]].
    assert (Hc : colon_segments str = seg :: more) by exact Hs.
    rewrite Hc. unfold mkwords, malloc. fold str.
    change (word_st.mk 0 0 str) with (word_st.mk (wrap32 0) (wrap32 0) str).
    destruct (mallocs s) as [|[|] ms] eqn:Em.
    + destruct (mkwords_loop_spec str 0 0 str "" s seg more
                  eq_refl eq_refl eq_refl Hs) as [H1 H2].
      rewrite Em in H1, H2. simpl in *. split.
      * destruct more; exact H1.
      * rewrite H2, Nat.ltb_irrefl.
        destruct more; simpl; now rewrite ?Nat.ltb_irrefl.
    + destruct (mkwords_loop_spec str 0 0 str "" (mkIo ms (output s)) seg
                  more eq_refl eq_refl eq_refl Hs) as [H1 H2].
      simpl in *. split; assumption.
    + simpl. split; [constructor | reflexivity].
Qed.

Lemma memcmp_segment (b : string) : forall (seg rest : string),
  String.length b = String.length seg ->
  memcmp b (seg ++ rest) (String.length b) = 0 <-> b = seg.
Proof.
  induction b as [|a b IH]; intros [|c seg] rest Hlen; try discriminate.
  - simpl. tauto.
  - simpl in Hlen. injection Hlen as Hlen. simpl.
    destruct (Ascii.eqb_spec a c) as [-> | Hne].
    + rewrite IH by assumption. split; [now intros -> | now intros [= ->]].
    + split.
      * intros H. exfalso. apply Hne, byte_value_inj. lia.
      * now intros [= -> _].
Qed.

Lemma match_words_loop_spec (b : string) :
  Z.of_nat (String.length b) < 2 ^ 32 ->
  forall (words : list word_st.t) (segs : list string),
  Forall2 represents words segs ->
  Forall (fun seg => Z.of_nat (String.length seg) < 2 ^ 32) segs ->
  match_words_loop
    (word_st.mk (wrap32 (byte_sum b)) (wrap32 (Z.of_nat (String.length b))) b)
    words
  = if existsb (String.eqb b) segs then Some b else None.
Proof.
  intros Hb words segs HF.
  set (iword := word_st.mk (wrap32 (byte_sum b))
                           (wrap32 (Z.of_nat (String.length b))) b).
  assert (Hih : word_st.hash iword = wrap32 (byte_sum b)) by reflexivity.
  assert (Hil : word_st.length iword = Z.of_nat (String.length b))
    by (apply wrap32_small; lia).
  assert (Hiw : word_st.word iword = b) by reflexivity.
  clearbody iword.
  induction HF as [|w seg words segs Hw HF IH]; intros Hsegs.
  - reflexivity.
  - apply Forall_cons_iff in Hsegs as [Hseg Hsegs'].
    destruct Hw as [Hh [Hl [rest Hp]]].
    cbn [match_words_loop existsb].
    rewrite Hih, Hil, Hiw, Hh, Hl, Hp.
    rewrite (wrap32_small (Z.of_nat (String.length seg))) by lia.
    rewrite Nat2Z.id.
    destruct (String.eqb_spec b seg) as [-> | Hne].
    + rewrite !Z.eqb_refl. simpl.
      assert (H0 : memcmp seg (seg ++ rest) (String.length seg) = 0)
        by now apply memcmp_segment.
      now rewrite H0.
    + simpl orb.
      destruct (wrap32 (byte_sum b) =? wrap32 (byte_sum seg)); simpl;
        [|now apply IH].
      destruct (Z.eqb_spec (Z.of_nat (String.length b))
                           (Z.of_nat (String.length seg))) as [He | He];
        simpl; [|now apply IH].
      apply Nat2Z.inj in He.
      destruct (Z.eqb_spec (memcmp b (seg ++ rest) (String.length b)) 0)
        as [Hm | Hm]; simpl; [|now apply IH].
      apply memcmp_segment in Hm; [contradiction | assumption].
Qed.

Lemma split_colons_length (s : string) :
  Forall (fun seg => (String.length seg <= String.length s)%nat)
         (split_colons s).
Proof.
  induction s as [|c s IH]; simpl.
  - constructor; [simpl; lia | constructor].
  - destruct (Ascii.eqb c ":").
    + constructor; [simpl; lia|].
      eapply Forall_impl; [|exact IH]. simpl. intros; lia.
    + destruct (split_colons s) as [|seg more].
      * constructor; [simpl; lia | constructor].
      * inversion IH; subst. constructor; [simpl; lia|].
        eapply Forall_impl; [|eassumption]. simpl. intros; lia.
Qed.

Lemma built_segments_incl (ms : list bool) :
  forall (segs : list string) (x : string),
  In x (built_segments ms segs) -> In x segs.
Proof.
  induction ms as [|[|] ms IH]; intros [|seg more] x H; simpl in *;
    try contradiction; try assumption.
  destruct H as [H | H]; [now left | right; now apply IH].
Qed.

Lemma existsb_eqb_In (b : string) (segs : list string) :
  existsb (String.eqb b) segs = true <-> In b segs.
Proof.
  rewrite existsb_exists. split.
  - intros [x [Hx He]]. apply String.eqb_eq in He. now subst.
  - intros H. exists b. split; [assumption | apply String.eqb_refl].
Qed.

(** match_words() over what mkwords() built: a search for the basename
    among the segments that got an entry. *)
Lemma match_words_mkwords (str path : string) (s : io) :
  Z.of_nat (String.length str) < 2 ^ 32 ->
  Z.of_nat (String.length path) < 2 ^ 32 ->
  match_words (fst (mkwords str s)) path
  = if existsb (String.eqb (basename path))
               (built_segments (mallocs s) (colon_segments str))
    then Some (basename path) else None.
Proof.
  intros Hstr Hpath.
  destruct (mkwords_spec str s) as [HF _].
  assert (Hb : Z.of_nat (String.length (basename path)) < 2 ^ 32).
  { enough ((String.length (basename path) <= String.length path)%nat) by lia.
    unfold basename. clear. induction path as [|c p IH]; simpl; [lia|].
    destruct (after_last_slash p); [lia|].
    destruct (Ascii.eqb c "/"); simpl; lia. }
  assert (Hsegs : Forall (fun seg => Z.of_nat (String.length seg) < 2 ^ 32)
                         (built_segments (mallocs s) (colon_segments str))).
  { apply Forall_forall. intros x Hx. apply built_segments_incl in Hx.
    destruct str as [|c str']; [contradiction|].
    pose proof (split_colons_length (String c str')) as HL.
    rewrite Forall_forall in HL. specialize (HL x Hx). lia. }
  unfold match_words.
  destruct (fst (mkwords str s)) as [|w ws] eqn:E.
  - inversion HF. reflexivity.
  - rewrite hash_path_spec. now apply match_words_loop_spec.
Qed.

Lemma built_segments_enough (ms : list bool) :
  Forall (eq true) ms ->
  forall segs : list string, built_segments ms segs = segs.
Proof.
  induction 1 as [|b ms <- _ IH]; intros [|seg more]; simpl;
    try reflexivity.
  now rewrite IH.
Qed.

(** C3. With every allocation succeeding, match_words(mkwords(s), x) is the
    pointer at the basename of x exactly when that basename is, byte for
    byte, one of the colon-separated segments of s, and null otherwise (so
    the length and hash tests never change the outcome of the comparison);
    mkwords("") is the null list, which matches nothing.  The two strings
    fit the 32-bit address space. *)
Theorem match_words_mkwords_basename (s x : string) (m : io) :
  enough_memory m ->
  Z.of_nat (String.length s) < 2 ^ 32 ->
  Z.of_nat (String.length x) < 2 ^ 32 ->
  (In (basename x) (colon_segments s) ->
   match_words (fst (mkwords s m)) x = Some (basename x))
  /\ (~ In (basename x) (colon_segments s) ->
      match_words (fst (mkwords s m)) x = None)
  /\ fst (mkwords "" m) = []
  /\ match_words (fst (mkwords "" m)) x = None.
Proof.
  intros Hm Hs Hx.
  pose proof (match_words_mkwords s x m Hs Hx) as H.
  rewrite (built_segments_enough _ Hm) in H.
  repeat split; try reflexivity.
  - intros Hin. apply existsb_eqb_In in Hin. now rewrite Hin in H.
  - intros Hnin. destruct (existsb _ _) eqn:E; [|assumption].
    apply existsb_eqb_In in E. contradiction.
Qed.

Lemma match_words_mkwords_basename_witness :
  match_words (fst (mkwords "libm.so:libc.so" (mkIo [] [])))
              "/usr/lib/libc.so"
  = Some "libc.so".
Proof.
  apply (match_words_mkwords_basename "libm.so:libc.so" "/usr/lib/libc.so"
           (mkIo [] [])).
  - constructor.
  - reflexivity.
  - reflexivity.
  - vm_compute. right. left. reflexivity.
Defined.

(** C7, as the code has it.  A diagnostic is logged exactly when an
    allocation fails; the list returned holds an entry for each segment
    that precedes the failed allocation, and match_words() over it is a
    search among those segments; when the first allocation fails that is
    the null list. *)
Theorem mkwords_allocation_failure (s x : string) (m : io) :
  Z.of_nat (String.length s) < 2 ^ 32 ->
  Z.of_nat (String.length x) < 2 ^ 32 ->
  let built := built_segments (mallocs m) (colon_segments s) in
  output (snd (mkwords s m))
  = (output m ++ if (List.length built <? List.length (colon_segments s))%nat
                 then [DiagMalloc] else [])%list
  /\ (In (basename x) built ->
      match_words (fst (mkwords s m)) x = Some (basename x))
  /\ (~ In (basename x) built -> match_words (fst (mkwords s m)) x = None)
  /\ (forall ms, mallocs m = false :: ms -> fst (mkwords s m) = []).
Proof.
  intros Hs Hx built.
  pose proof (match_words_mkwords s x m Hs Hx) as H. fold built in H.
  destruct (mkwords_spec s m) as [_ Hout].
  repeat split.
  - exact Hout.
  - intros Hin. apply existsb_eqb_In in Hin. now rewrite Hin in H.
  - intros Hnin. destruct (existsb _ _) eqn:E; [|assumption].
    apply existsb_eqb_In in E. contradiction.
  - intros ms Hms. destruct s; [reflexivity|].
    unfold mkwords, malloc. now rewrite Hms.
Qed.

Lemma mkwords_allocation_failure_witness :
  output (snd (mkwords "a:b:c" (mkIo [true; true; false] []))) = [DiagMalloc]
  /\ match_words (fst (mkwords "a:b:c" (mkIo [true; true; false] [])))
                 "lib/b" = Some "b".
Proof.
  destruct (mkwords_allocation_failure "a:b:c" "lib/b"
              (mkIo [true; true; false] [])) as [H1 [H2 _]];
    [reflexivity | reflexivity |].
  split.
  - exact H1.
  - apply H2. vm_compute. right. left. reflexivity.
Defined.

(** C7, as the specification has it, fails: with the second allocation
    failing on "a:b" the diagnostic is logged and the list is kept, a
    filter over the segment "a" alone; a whitelist read from it reports
    "a" and omits "b", whereas with no list built everything is
    reported. *)
Lemma mkwords_partial_list_kept :
  let m := mkIo [true; false] [] in
  let w := prog [("TRACY_INLIBS", "a:b")] in
  output (snd (mkwords "a:b" m)) = [DiagMalloc]
  /\ fst (mkwords "a:b" m) <> []
  /\ match_words (fst (mkwords "a:b" m)) "a" = Some "a"
  /\ match_words (fst (mkwords "a:b" m)) "b" = None
  /\ fst (report_dso w "a" (loaded m)) = Some "a"
  /\ fst (report_dso w "b" (loaded m)) = None
  /\ fst (report_dso w "b" (loaded (mkIo [false] []))) = Some "b".
Proof.
  vm_compute. repeat split; try reflexivity. discriminate.
Qed.

(** ** Function name resolution *)

Lemma wrap32_range (z : Z) : 0 <= wrap32 z < 2 ^ 32.
Proof. unfold wrap32. apply Z.mod_pos_bound. reflexivity. Qed.

Section Getsym.
Variables (dso : dso_st) (base pc : Z).
Hypothesis pc_u32 : u32 pc.

Lemma comparison_address_u32 (sym : Elf32_Sym) :
u32 (comparison_address base pc sym).
Proof.
unfold comparison_address. destruct (st_value sym >? base).
- exact pc_u32.
- apply wrap32_range.
Qed.

(** One test of the loop body per component of [qualifies]. *)
Lemma qualifies_dec (sym : Elf32_Sym) :
u32 (st_name sym) ->
qualifies dso base pc sym <->
(comparison_address base pc sym <? st_value sym) = false
/\ (Z.of_nat (List.length (strtab dso)) <=? st_name sym) = false
/\ Ascii.eqb (nth (Z.to_nat (st_name sym)) (strtab dso) zero) "$" = false.
Proof.
intros Hn. unfold qualifies.
rewrite Z.ltb_ge, Z.leb_gt.
destruct (Ascii.eqb_spec (nth (Z.to_nat (st_name sym)) (strtab dso) zero)
                       "$"); intuition congruence.
Qed.

Lemma getsym_loop_selected (syms : list Elf32_Sym) :
forall (done : list Elf32_Sym) (closest : option Elf32_Sym) (diff : Z),
Forall (fun sym => u32 (st_name sym) /\ u32 (st_value sym)) syms ->
match closest with
| None => forall s, In s done -> ~ qualifies dso base pc s
| Some c =>
  diff = gap base pc c /\ 0 < diff /\ qualifies dso base pc c
  /\ exists before after,
      done = (before ++ c :: after)%list
      /\ (forall s, In s before -> qualifies dso base pc s ->
                    gap base pc c < gap base pc s)
      /\ (forall s, In s after -> qualifies dso base pc s ->
                    gap base pc c <= gap base pc s)
end ->
match getsym_loop dso base pc closest diff syms with
| None => forall s, In s (done ++ syms) -> ~ qualifies dso base pc s
| Some c => selected dso base pc (done ++ syms) c
end.
Proof.
induction syms as [|sym syms IH]; intros done closest diff Hwf Hinv.
- simpl. rewrite app_nil_r. destruct closest as [c|]; [|exact Hinv].
destruct Hinv as [_ [_ [Hq [before [after [Hd [Hb Ha]]]]]]].
exists before, after. auto.
- apply Forall_cons_iff in Hwf as [[Hname Hvalue] Hwf].
pose proof (comparison_address_u32 sym) as Heddr.
pose proof (qualifies_dec sym Hname) as Hq.
replace (done ++ sym :: syms)%list with ((done ++ [sym]) ++ syms)%list
  by now rewrite <- app_assoc.
simpl getsym_loop.
replace (if base <? st_value sym then pc else wrap32 (pc - base))
  with (comparison_address base pc sym)
  by (unfold comparison_address; now rewrite Z.gtb_ltb).
(* the entry is passed over: it does not qualify, or is no closer *)
assert (Hskip : (qualifies dso base pc sym ->
                 match closest with
                 | None => False
                 | Some c => gap base pc c <= gap base pc sym
                 end) ->
                match getsym_loop dso base pc closest diff syms with
                | None => forall s, In s ((done ++ [sym]) ++ syms) ->
                                    ~ qualifies dso base pc s
                | Some c => selected dso base pc
                                     ((done ++ [sym]) ++ syms) c
                end).
{ intros Hno. apply IH; [exact Hwf|].
  destruct closest as [c|].
  - destruct Hinv as [Hd [Hpos [Hqc [before [after [Hdone [Hb Ha]]]]]]].
    do 3 (split; [assumption|]).
    exists before, (after ++ [sym])%list.
    split; [|split].
    + rewrite Hdone, <- app_assoc. reflexivity.
    + exact Hb.
    + intros s Hs Hqs. apply in_app_or in Hs as [Hs | [<- | []]].
      * now apply Ha.
      * now apply Hno.
  - intros s Hs. apply in_app_or in Hs as [Hs | [<- | []]].
    + now apply Hinv.
    + intros Hqs. exact (Hno Hqs). }
destruct (comparison_address base pc sym <? st_value sym) eqn:E1.
{ apply Hskip. intros Hqs. apply Hq in Hqs. destruct Hqs; discriminate. }
apply Z.ltb_ge in E1.
assert (Hnow : wrap32 (comparison_address base pc sym - st_value sym)
               = gap base pc sym).
{ unfold gap. apply wrap32_small. unfold u32 in *. lia. }
rewrite Hnow.
destruct (match closest with None => true | Some _ => false end
          || (gap base pc sym <? diff)) eqn:E2.
2:{ apply Hskip. intros _. destruct closest as [c|]; [|discriminate].
    simpl in E2. apply Z.ltb_ge in E2.
    destruct Hinv as [Hd _]. lia. }
destruct (Z.of_nat (List.length (strtab dso)) <=? st_name sym) eqn:E3.
{ apply Hskip. intros Hqs. apply Hq in Hqs.
  destruct Hqs as [_ [? _]]; discriminate. }
destruct (Ascii.eqb (nth (Z.to_nat (st_name sym)) (strtab dso) zero) "$")
  eqn:E4.
{ apply Hskip. intros Hqs. apply Hq in Hqs.
  destruct Hqs as [_ [_ ?]]; discriminate. }
assert (Hqs : qualifies dso base pc sym).
{ apply Hq. auto. }
(* the entry is closer than everything before it *)
assert (Hbefore : forall s, In s done -> qualifies dso base pc s ->
                            gap base pc sym < gap base pc s).
{ intros s Hs Hq'. destruct closest as [c|].
  - simpl in E2. apply Z.ltb_lt in E2.
    destruct Hinv as [Hd [_ [_ [before [after [Hdone [Hb Ha]]]]]]].
    rewrite Hdone in Hs. apply in_app_or in Hs as [Hs | [<- | Hs]].
    + specialize (Hb s Hs Hq'). lia.
    + lia.
    + specialize (Ha s Hs Hq'). lia.
  - exfalso. exact (Hinv s Hs Hq'). }
destruct (gap base pc sym =? 0) eqn:E5.
+ apply Z.eqb_eq in E5.
  exists done, syms. split; [|split; [|split]].
  * now rewrite <- app_assoc.
  * exact Hqs.
  * exact Hbefore.
  * intros s _ [Hle _]. unfold gap in *. lia.
+ apply Z.eqb_neq in E5. apply IH; [exact Hwf|].
  split; [reflexivity|]. split; [|split].
  * unfold gap in *. lia.
  * exact Hqs.
  * exists done, []. split; [reflexivity|]. split.
    -- exact Hbefore.
    -- intros s [].
Qed.
End Getsym.

(** A candidate at the comparison address itself ends the scan. *)
Lemma getsym_loop_exact (dso : dso_st) (base pc : Z)
    (closest : option Elf32_Sym) (diff : Z) (sym : Elf32_Sym)
    (rest : list Elf32_Sym) :
  u32 pc -> u32 (st_name sym) -> u32 (st_value sym) ->
  qualifies dso base pc sym -> gap base pc sym = 0 ->
  closest = None \/ 0 < diff ->
  getsym_loop dso base pc closest diff (sym :: rest) = Some sym.
Proof.
  intros Hpc Hname Hvalue Hq Hgap Hc.
  pose proof (comparison_address_u32 base pc Hpc sym) as Heddr.
  apply (qualifies_dec dso base pc sym Hname) in Hq as [E1 [E3 E4]].
  simpl getsym_loop.
  replace (if base <? st_value sym then pc else wrap32 (pc - base))
    with (comparison_address base pc sym)
    by (unfold comparison_address; now rewrite Z.gtb_ltb).
  rewrite E1, E3, E4. fold (gap base pc sym). rewrite Hgap.
  change (wrap32 0) with 0.
  destruct Hc as [-> | Hd]; [reflexivity|].
  destruct closest; simpl; [|reflexivity].
  apply Z.ltb_lt in Hd. now rewrite Hd.
Qed.

(** C9. getsym() compares each symbol with pc itself when the symbol's
    value exceeds the load base and with pc minus the load base otherwise;
    among the symbols at or below their comparison address whose name
    offset lies inside the string table and whose name does not begin with
    '$' it returns the name of the one with the smallest gap, the earliest
    of them on a tie, and null when there is none; a candidate with gap
    zero ends the scan. *)
Theorem getsym_closest_symbol (dso : dso_st) (base pc : Z) :
  elf32_dso dso -> u32 pc ->
  match getsym dso base pc with
  | Some name =>
      exists sym, selected dso base pc (symtab dso) sym
                  /\ name = skipn (Z.to_nat (st_name sym)) (strtab dso)
  | None => forall sym, In sym (symtab dso) -> ~ qualifies dso base pc sym
  end
  /\ (forall closest diff before sym after,
        symtab dso = (before ++ sym :: after)%list ->
        qualifies dso base pc sym -> gap base pc sym = 0 ->
        closest = None \/ 0 < diff ->
        getsym_loop dso base pc closest diff (sym :: after) = Some sym).
Proof.
  intros Hdso Hpc. split.
  - pose proof (getsym_loop_selected dso base pc Hpc (symtab dso) [] None 0
                  Hdso) as H.
    simpl in H. unfold getsym.
    destruct (getsym_loop dso base pc None 0 (symtab dso)) as [c|].
    + specialize (H (fun _ F => match F with end)).
      pose proof H as [before [after [_ [[_ [Hin _]] _]]]].
      apply Z.ltb_lt in Hin. rewrite Hin. now exists c.
    + apply H. intros s [].
  - intros closest diff before sym after Htab Hq Hgap Hc.
    unfold elf32_dso in Hdso. rewrite Htab in Hdso.
    apply Forall_app in Hdso as [_ Hdso].
    apply Forall_cons_iff in Hdso as [[Hn Hv] _].
    now apply getsym_loop_exact.
Qed.

Lemma getsym_closest_symbol_witness :
  let dso :=
    mkDso 0 ["000"; "m"; "a"; "i"; "n"; "000"; "f"; "o"; "o"; "000";
             "$"; "a"; "000"]%char
          [mkSym 1 4096; mkSym 6 4160; mkSym 10 4176; mkSym 100 4168] in
  match getsym dso 1073741824 1073746008 with
  | Some name =>
      exists sym, selected dso 1073741824 1073746008 (symtab dso) sym
                  /\ name = skipn (Z.to_nat (st_name sym)) (strtab dso)
  | None =>
      forall sym, In sym (symtab dso) ->
                  ~ qualifies dso 1073741824 1073746008 sym
  end.
Proof.
  intros dso.
  apply (getsym_closest_symbol dso 1073741824 1073746008).
  - repeat constructor; vm_compute; congruence.
  - split; vm_compute; congruence.
Defined.

Example getsym_foo :
  option_map cstring
    (getsym (mkDso 0 ["000"; "m"; "a"; "i"; "n"; "000"; "f"; "o"; "o"; "000";
                      "$"; "a"; "000"]%char
                   [mkSym 1 4096; mkSym 6 4160; mkSym 10 4176;
                    mkSym 100 4168])
            1073741824 1073746008)
  = Some "foo".
Proof. reflexivity. Qed.

(** ** (Extended) glob matching *)

Lemma is_meta_false (c : ascii) :
  is_meta c = false ->
  Ascii.eqb c "*" = false /\ Ascii.eqb c "?" = false
  /\ Ascii.eqb c ":" = false /\ Ascii.eqb c "(" = false
  /\ Ascii.eqb c ")" = false.
Proof.
  unfold is_meta. intros H.
  repeat (apply orb_false_elim in H as [H ?]). auto.
Qed.

(** find_end_of_glob() walks over a balanced stretch of pattern without
    finding [':'] or [')'] at depth 0 in it, and comes out at the depth it
    went in with; a whole alternation is such a stretch unless its colons
    are looked for at depth 0. *)
Lemma find_end_of_glob_loop_skip (c : ascii) :
  c = ":"%char \/ c = ")"%char ->
  (forall s, literals_ok_seq s = true ->
     forall d rest, 0 <= d ->
       d + Z.of_nat (String.length (print_seq s)) < 2 ^ 32 ->
       find_end_of_glob_loop d (print_seq s ++ rest) c
       = find_end_of_glob_loop d rest c)
  /\ (forall i, literals_ok_item i = true ->
        forall d rest, 0 <= d ->
          d + Z.of_nat (String.length (print_item i)) < 2 ^ 32 ->
          find_end_of_glob_loop d (print_item i ++ rest) c
          = find_end_of_glob_loop d rest c)
  /\ (forall a, literals_ok_alt a = true ->
        forall d rest, 0 <= d -> (d = 0 -> c = ")"%char) ->
          d + Z.of_nat (String.length (print_alt a)) < 2 ^ 32 ->
          find_end_of_glob_loop d (print_alt a ++ rest) c
          = find_end_of_glob_loop d rest c).
Proof.
  intros Hc. apply glob_mutind.
  - reflexivity.
  - intros i IHi s IHs Hok d rest Hd Hlen.
    simpl in Hok. apply andb_prop in Hok as [Hi Hs].
    simpl print_seq in *. rewrite length_append in Hlen.
    rewrite append_assoc, IHi, IHs; auto; lia.
  - intros _ d rest Hd _. simpl.
    destruct Hc as [-> | ->]; simpl; now rewrite andb_false_r.
  - intros _ d rest Hd _. simpl.
    destruct Hc as [-> | ->]; simpl; now rewrite andb_false_r.
  - intros c0 Hok d rest Hd _. simpl in Hok.
    apply negb_true_iff, is_meta_false in Hok as [_ [_ [H1 [H2 H3]]]].
    simpl. rewrite H2, H3.
    destruct Hc as [-> | ->]; [rewrite H1 | rewrite H3];
      now rewrite andb_false_r.
  - intros a IHa Hok d rest Hd Hlen. simpl in Hok.
    assert (HL : String.length (print_item (Group a))
                 = S (String.length (print_alt a) + 1))
      by (simpl; now rewrite length_append).
    rewrite HL in Hlen. clear HL.
    cbn [print_item append find_end_of_glob_loop].
    replace (Ascii.eqb "(" c) with false
      by (destruct Hc as [-> | ->]; reflexivity).
    rewrite andb_false_r. cbn [Ascii.eqb Bool.eqb andb].
    rewrite (wrap32_small (d + 1)) by lia.
    rewrite append_assoc, IHa by (auto; lia).
    cbn [append find_end_of_glob_loop].
    replace (d + 1 =? 0) with false by (symmetry; apply Z.eqb_neq; lia).
    cbn [Ascii.eqb Bool.eqb andb].
    replace (0 <? d + 1) with true by (symmetry; apply Z.ltb_lt; lia).
    f_equal. lia.
  - intros s IHs Hok d rest Hd _ Hlen. simpl in *. now apply IHs.
  - intros s IHs a IHa Hok d rest Hd Hd0 Hlen.
    simpl in Hok. apply andb_prop in Hok as [Hs Ha].
    assert (HL : String.length (print_alt (ACons s a))
                 = (String.length (print_seq s)
                    + S (String.length (print_alt a)))%nat)
      by (simpl; now rewrite length_append).
    rewrite HL in Hlen. clear HL.
    cbn [print_alt].
    rewrite append_assoc, IHs by (auto; lia).
    cbn [append find_end_of_glob_loop].
    replace ((d =? 0) && Ascii.eqb ":" c) with false.
    2:{ destruct (Z.eqb_spec d 0) as [E | E]; [|reflexivity].
        now rewrite (Hd0 E). }
    cbn [Ascii.eqb Bool.eqb andb].
    apply IHa; auto; lia.
Qed.

Lemma find_end_of_glob_next_alternative (s : glob_seq) (rest : string) :
  literals_ok_seq s = true ->
  Z.of_nat (String.length (print_seq s)) < 2 ^ 32 ->
  find_end_of_glob (print_seq s ++ ":" ++ rest) ":" = Some rest.
Proof.
  intros Hok Hlen. unfold find_end_of_glob.
  destruct (find_end_of_glob_loop_skip ":") as [H _]; [now left|].
  rewrite H by (auto; lia). reflexivity.
Qed.

Lemma find_end_of_glob_last_alternative (s : glob_seq)
    (ctx : list (glob_seq * option glob_alt)) :
  literals_ok_seq s = true ->
  Z.of_nat (String.length (print_seq s)) < 2 ^ 32 ->
  find_end_of_glob (print_seq s ++ print_after ctx) ":" = None.
Proof.
  intros Hok Hlen. unfold find_end_of_glob.
  destruct (find_end_of_glob_loop_skip ":") as [H _]; [now left|].
  rewrite H by (auto; lia). destruct ctx as [|[s' more] ctx]; reflexivity.
Qed.

Lemma find_end_of_glob_close (a : glob_alt)
    (ctx : list (glob_seq * option glob_alt)) :
  literals_ok_alt a = true ->
  Z.of_nat (String.length (print_alt a)) < 2 ^ 32 ->
  find_end_of_glob (":" ++ print_alt a ++ print_after ctx) ")"
  = match ctx with
    | [] => None
    | (s, more) :: ctx' =>
        Some (print_seq s ++ print_rest more ++ print_after ctx')
    end.
Proof.
  intros Hok Hlen. unfold find_end_of_glob.
  cbn [append find_end_of_glob_loop Z.eqb Ascii.eqb Bool.eqb andb].
  destruct (find_end_of_glob_loop_skip ")") as [_ [_ H]]; [now right|].
  rewrite H by (auto; lia). destruct ctx as [|[s' more] ctx]; reflexivity.
Qed.

Lemma find_end_of_glob_loop_shorter (str : string) :
  forall (d : Z) (c : ascii) (p : string),
  find_end_of_glob_loop d str c = Some p ->
  (String.length p < String.length str)%nat.
Proof.
  induction str as [|ch str IH]; intros d c p; simpl; [discriminate|].
  destruct ((d =? 0) && Ascii.eqb ch c).
  - intros [= ->]. lia.
  - destruct (Ascii.eqb ch "("); [intros H; apply IH in H; lia|].
    destruct (Ascii.eqb ch ")").
    + destruct (0 <? d); [intros H; apply IH in H; lia | discriminate].
    + intros H; apply IH in H; lia.
Qed.

(** The star loop succeeds exactly when the rest of the pattern matches
    some suffix of the string. *)
Lemma star_loop_spec (rest : string -> option bool)
    (P : string -> Prop) (str : string) :
  (forall t, exists b, rest t = Some b /\ (b = true <-> P t)) ->
  exists b, star_loop rest str = Some b
            /\ (b = true <-> exists t1 t2, str = t1 ++ t2 /\ P t2).
Proof.
  intros Hrest. induction str as [|c str [b [IH1 IH2]]].
  - simpl. destruct (Hrest "") as [b [H1 H2]]. rewrite H1.
    exists b. split; [now destruct b|]. rewrite H2. split.
    + intros H. now exists "", "".
    + intros [[|] [t2 [E H]]]; [|discriminate]. simpl in E. now subst.
  - simpl. destruct (Hrest (String c str)) as [b0 [H1 H2]]. rewrite H1.
    destruct b0.
    + exists true. split; [reflexivity|]. split; [|reflexivity].
      intros _. exists "", (String c str). split; [reflexivity|].
      now apply H2.
    + exists b. split; [assumption|]. rewrite IH2. split.
      * intros [t1 [t2 [-> H]]]. now exists (String c t1), t2.
      * intros [[|c' t1] [t2 [E H]]]; simpl in E.
        -- subst t2. apply H2 in H. discriminate.
        -- injection E as -> ->. now exists t1, t2.
Qed.

(** The budget of [glob_fuel] suffices whatever the pattern. *)
Lemma match_glob_fuel_total (fuel : nat) :
  (forall pattern str,
     (2 * String.length pattern + 1 <= fuel)%nat ->
     exists b, match_glob_fuel fuel pattern str = Some b)
  /\ (forall pattern str,
        (2 * String.length pattern + 2 <= fuel)%nat ->
        exists b, match_eglob_fuel fuel pattern str = Some b).
Proof.
  induction fuel as [|fuel [IHg IHe]].
  - split; intros; lia.
  - assert (Hg : forall pattern str,
               (2 * String.length pattern + 1 <= S fuel)%nat ->
               exists b, match_glob_fuel (S fuel) pattern str = Some b).
    { intros [|c pattern] str Hlen; cbn [match_glob_fuel]; [now eexists|].
      cbn [String.length] in Hlen.
      destruct (Ascii.eqb c "("); [apply IHe; lia|].
      destruct (Ascii.eqb c ")"); [apply IHg; lia|].
      destruct (Ascii.eqb c ":").
      { destruct (find_end_of_glob (String c pattern) ")") as [p|] eqn:E;
          [|now eexists].
        apply find_end_of_glob_loop_shorter in E. cbn [String.length] in E.
        apply IHg. lia. }
      destruct (Ascii.eqb c "*").
      { destruct (star_loop_spec (match_glob_fuel fuel pattern)
                    (fun t => match_glob_fuel fuel pattern t = Some true)
                    str) as [b [Hb _]]; [|now exists b].
        intros t. destruct (IHg pattern t) as [b Hb]; [lia|].
        exists b. split; [assumption|]. rewrite Hb. split; congruence. }
      destruct (Ascii.eqb c "?").
      { destruct str; [now eexists | apply IHg; lia]. }
      destruct str as [|d str]; [now eexists|].
      destruct (Ascii.eqb d c); [apply IHg; lia | now eexists]. }
    split; [exact Hg|].
    intros pattern str Hlen. cbn [match_eglob_fuel].
    destruct (IHg pattern str) as [[|] Hb]; [lia | | ]; rewrite Hb;
      [now eexists|].
    destruct (find_end_of_glob pattern ":") as [p|] eqn:E; [|now eexists].
    apply find_end_of_glob_loop_shorter in E. apply IHe. lia.
Qed.

Lemma match_eglob_total (pattern str : string) :
  exists b, match_eglob pattern str = Some b.
Proof.
  apply (proj2 (match_glob_fuel_total (glob_fuel pattern))).
  unfold glob_fuel. lia.
Qed.

Lemma derives_conc_nil ctx t :
  derives_conc SNil ctx t <-> derives_after ctx t.
Proof.
  unfold derives_conc. simpl. split.
  - intros [t1 [t2 [-> [-> H]]]]. exact H.
  - intros H. now exists "", t.
Qed.

Lemma derives_conc_star s ctx t :
  derives_conc (SCons Star s) ctx t
  <-> exists t1 t2, t = t1 ++ t2 /\ derives_conc s ctx t2.
Proof.
  unfold derives_conc. simpl. split.
  - intros [t1 [t2 [-> [[u1 [u2 [-> [_ Hs]]]] Hc]]]].
    exists u1, (u2 ++ t2). split; [apply append_assoc|].
    now exists u2, t2.
  - intros [t1 [t2 [-> [u1 [u2 [-> [Hs Hc]]]]]]].
    exists (t1 ++ u1), u2. split; [now rewrite append_assoc|].
    split; [|assumption]. now exists t1, u1.
Qed.

Lemma derives_conc_quest s ctx t :
  derives_conc (SCons Quest s) ctx t
  <-> exists c t', t = String c t' /\ derives_conc s ctx t'.
Proof.
  unfold derives_conc. simpl. split.
  - intros [t1 [t2 [-> [[u1 [u2 [-> [[c ->] Hs]]]] Hc]]]].
    exists c, (u2 ++ t2). split; [reflexivity|]. now exists u2, t2.
  - intros [c [t' [-> [u1 [u2 [-> [Hs Hc]]]]]]].
    exists (String c u1), u2. split; [reflexivity|].
    split; [|assumption]. exists (String c ""), u1. eauto.
Qed.

Lemma derives_conc_lit c s ctx t :
  derives_conc (SCons (Lit c) s) ctx t
  <-> exists t', t = String c t' /\ derives_conc s ctx t'.
Proof.
  unfold derives_conc. simpl. split.
  - intros [t1 [t2 [-> [[u1 [u2 [-> [-> Hs]]]] Hc]]]].
    exists (u2 ++ t2). split; [reflexivity|]. now exists u2, t2.
  - intros [t' [-> [u1 [u2 [-> [Hs Hc]]]]]].
    exists (String c u1), u2. split; [reflexivity|].
    split; [|assumption]. exists (String c ""), u1. eauto.
Qed.

Lemma derives_conc_group a s more ctx t :
  derives_conc (SCons (Group a) s) ctx t
  <-> exists t1 t2, t = t1 ++ t2 /\ derives_alt a t1
                    /\ derives_after ((s, more) :: ctx) t2.
Proof.
  unfold derives_conc. simpl. split.
  - intros [t1 [t2 [-> [[u1 [u2 [-> [Ha Hs]]]] Hc]]]].
    exists u1, (u2 ++ t2). split; [apply append_assoc|].
    split; [assumption|]. now exists u2, t2.
  - intros [t1 [t2 [-> [Ha [u1 [u2 [-> [Hs Hc]]]]]]]].
    exists (t1 ++ u1), u2. split; [now rewrite append_assoc|].
    split; [|assumption]. now exists t1, u1.
Qed.

Lemma match_glob_decides_step (fuel : nat) :
  match_glob_decides fuel -> match_eglob_decides fuel ->
  match_glob_decides (S fuel).
Proof.
  intros IHg IHe s more ctx t Hs Hm Hc Hlen Hfuel.
  destruct s as [|i s].
  - (* the sequence is over *)
    setoid_rewrite derives_conc_nil.
    cbn [print_seq append] in *.
    destruct more as [a|]; cbn [print_rest append] in *.
    + (* an alternative was matched: on to the end of the group *)
      cbn [match_glob_fuel].
      change (Ascii.eqb ":" "(") with false.
      change (Ascii.eqb ":" ")") with false.
      change (Ascii.eqb ":" ":") with true. cbv iota.
      pose proof (find_end_of_glob_close a ctx) as Hf.
      cbn [append] in Hf. rewrite Hf; clear Hf.
      2:{ exact Hm. }
      2:{ cbn [String.length] in Hlen. rewrite length_append in Hlen. lia. }
      destruct ctx as [|[s' more'] ctx'].
      * exists (at_end t). split; [reflexivity|].
        destruct t; simpl; split; congruence.
      * cbn [literals_ok_after] in Hc.
        apply andb_prop in Hc as [Hc Hc3]. apply andb_prop in Hc as [Hc1 Hc2].
        cbn [print_after append String.length] in Hlen, Hfuel.
        rewrite length_append in Hlen, Hfuel.
        cbn [String.length] in Hlen, Hfuel.
        destruct (IHg s' more' ctx' t) as [b [Hb1 Hb2]]; auto; try lia.
        exists b. split; [assumption|]. exact Hb2.
    + destruct ctx as [|[s' more'] ctx'].
      * exists (at_end t). split; [reflexivity|].
        destruct t; simpl; split; congruence.
      * cbn [literals_ok_after] in Hc.
        apply andb_prop in Hc as [Hc Hc3]. apply andb_prop in Hc as [Hc1 Hc2].
        cbn [print_after append String.length] in *.
        cbn [match_glob_fuel].
        change (Ascii.eqb ")" "(") with false.
        change (Ascii.eqb ")" ")") with true. cbv iota.
        destruct (IHg s' more' ctx' t) as [b [Hb1 Hb2]]; auto; try lia.
        exists b. split; [assumption|]. exact Hb2.
  - cbn [literals_ok_seq] in Hs. apply andb_prop in Hs as [Hi Hs].
    cbn [print_seq] in *. rewrite append_assoc in *.
    destruct i as [| |c|a]; cbn [print_item append String.length] in *.
    + (* '*' *)
      cbn [match_glob_fuel].
      change (Ascii.eqb "*" "(") with false.
      change (Ascii.eqb "*" ")") with false.
      change (Ascii.eqb "*" ":") with false.
      change (Ascii.eqb "*" "*") with true. cbv iota.
      setoid_rewrite derives_conc_star.
      apply star_loop_spec. intros t'.
      apply IHg; auto; lia.
    + (* '?' *)
      cbn [match_glob_fuel].
      change (Ascii.eqb "?" "(") with false.
      change (Ascii.eqb "?" ")") with false.
      change (Ascii.eqb "?" ":") with false.
      change (Ascii.eqb "?" "*") with false.
      change (Ascii.eqb "?" "?") with true. cbv iota.
      setoid_rewrite derives_conc_quest.
      destruct t as [|d t].
      * exists false. split; [reflexivity|]. split; [discriminate|].
        intros [c [t' [E _]]]. discriminate.
      * destruct (IHg s more ctx t) as [b [Hb1 Hb2]]; auto; try lia.
        exists b. split; [assumption|]. rewrite Hb2. split.
        -- intros H. exists d, t. split; [reflexivity | exact H].
        -- intros [c [t' [[= -> ->] H]]]. exact H.
    + (* a literal *)
      cbn [literals_ok_item] in Hi.
      apply negb_true_iff, is_meta_false in Hi as [H1 [H2 [H3 [H4 H5]]]].
      cbn [match_glob_fuel]. rewrite H1, H2, H3, H4, H5.
      setoid_rewrite derives_conc_lit.
      destruct t as [|d t].
      * exists false. split; [reflexivity|]. split; [discriminate|].
        intros [t' [E _]]. discriminate.
      * destruct (Ascii.eqb_spec d c) as [-> | Hne].
        -- destruct (IHg s more ctx t) as [b [Hb1 Hb2]]; auto; try lia.
           exists b. split; [assumption|]. rewrite Hb2. split.
           ++ intros H. exists t. split; [reflexivity | exact H].
           ++ intros [t' [[= ->] H]]. exact H.
        -- exists false. split; [reflexivity|]. split; [discriminate|].
           intros [t' [[= E _] _]]. contradiction.
    + (* a group: match_eglob() takes over *)
      cbn [literals_ok_item] in Hi.
      cbn [match_glob_fuel].
      change (Ascii.eqb "(" "(") with true. cbv iota.
      rewrite append_assoc in *.
      change (print_alt a ++ ")" ++ print_seq s ++ print_rest more
              ++ print_after ctx)
        with (print_alt a ++ print_after ((s, more) :: ctx)) in *.
      setoid_rewrite (derives_conc_group a s more ctx).
      apply IHe; auto; try lia.
      cbn [literals_ok_after]. rewrite Hs, Hm, Hc. reflexivity.
Qed.

Lemma match_eglob_decides_step (fuel : nat) :
  match_glob_decides fuel -> match_eglob_decides fuel ->
  match_eglob_decides (S fuel).
Proof.
  intros IHg IHe a ctx t Ha Hc Hlen Hfuel.
  cbn [match_eglob_fuel].
  destruct a as [s|s a']; cbn [print_alt literals_ok_alt derives_alt] in *.
  - (* the last alternative of the group *)
    pose proof (IHg s None ctx t) as IH. cbn [print_rest append] in IH.
    destruct IH as [b [Hb1 Hb2]]; auto; try lia.
    rewrite Hb1.
    rewrite length_append in Hlen.
    destruct b.
    + exists true. split; [reflexivity|]. split; [|reflexivity].
      intros _. apply Hb2. reflexivity.
    + rewrite find_end_of_glob_last_alternative by (auto; lia).
      exists false. split; [reflexivity|]. split; [discriminate|].
      intros H. apply Hb2. exact H.
  - apply andb_prop in Ha as [Hs Ha].
    rewrite append_assoc in *. cbn [append] in *.
    pose proof (IHg s (Some a') ctx t) as IH.
    cbn [print_rest append] in IH.
    destruct IH as [b [Hb1 Hb2]]; auto; try lia.
    rewrite Hb1.
    rewrite length_append in Hlen, Hfuel.
    cbn [append String.length] in Hlen, Hfuel.
    destruct b.
    + exists true. split; [reflexivity|]. split; [|reflexivity].
      intros _. destruct (proj1 Hb2 eq_refl) as [t1 [t2 [E [H1 H2]]]].
      exists t1, t2. auto.
    + pose proof (find_end_of_glob_next_alternative s
                    (print_alt a' ++ print_after ctx)) as Hf.
      cbn [append] in Hf. rewrite Hf by (auto; lia). clear Hf.
      destruct (IHe a' ctx t) as [b [Hb3 Hb4]]; auto; try lia.
      exists b. split; [assumption|]. rewrite Hb4. split.
      * intros [t1 [t2 [E [H1 H2]]]]. exists t1, t2. auto.
      * intros [t1 [t2 [E [[H1 | H1] H2]]]].
        -- assert (F : false = true) by (apply Hb2; exists t1, t2; auto).
           discriminate.
        -- exists t1, t2. auto.
Qed.

Lemma match_glob_eglob_decide (fuel : nat) :
  match_glob_decides fuel /\ match_eglob_decides fuel.
Proof.
  induction fuel as [|fuel [IHg IHe]].
  - split.
    + intros s more ctx t _ _ _ _ H. lia.
    + intros a ctx t _ _ _ H. lia.
  - split; [now apply match_glob_decides_step
           | now apply match_eglob_decides_step].
Qed.

(** match_eglob() on a pattern of the grammar. *)
Lemma match_eglob_derives_alt (a : glob_alt) (t : string) :
  literals_ok_alt a = true ->
  Z.of_nat (String.length (print_alt a)) < 2 ^ 32 ->
  exists b, match_eglob (print_alt a) t = Some b
            /\ (b = true <-> derives_alt a t).
Proof.
  intros Ha Hlen.
  destruct (proj2 (match_glob_eglob_decide (glob_fuel (print_alt a)))
              a [] t) as [b [Hb1 Hb2]]; auto.
  - cbn [print_after]. now rewrite append_nil_r.
  - cbn [print_after]. rewrite append_nil_r. unfold glob_fuel. lia.
  - cbn [print_after] in Hb1. rewrite append_nil_r in Hb1.
    exists b. split; [exact Hb1|]. rewrite Hb2. cbn [derives_after].
    split.
    + intros [t1 [t2 [-> [H ->]]]]. now rewrite append_nil_r.
    + intros H. exists t, "". now rewrite append_nil_r.
Qed.

(** Takes a derivation from a closed pattern apart. *)
Ltac derivation H :=
  simpl in H;
  repeat match goal with
         | H : exists _, _ |- _ => destruct H
         | H : _ /\ _ |- _ => destruct H
         | H : _ \/ _ |- _ => destruct H
         end;
  subst; simpl; auto.

Lemma match_eglob_true_derives (a : glob_alt) (t : string) :
  literals_ok_alt a = true ->
  Z.of_nat (String.length (print_alt a)) < 2 ^ 32 ->
  match_eglob (print_alt a) t = Some true <-> derives_alt a t.
Proof.
  intros Ha Hlen.
  destruct (match_eglob_derives_alt a t Ha Hlen) as [b [H1 H2]].
  rewrite H1, <- H2. split; congruence.
Qed.

(** C2, as the code has it.  For every pattern of the grammar of section
    4.3, written out as its string, and every subject, match_eglob()
    returns, and accepts
    exactly when the grammar derives the subject from the pattern; so "*"
    matches the empty string, "a:b" matches "a" and "b" and nothing else,
    "a(b:c)d" matches "abd" and "acd" and nothing else, "a(b:)c" matches
    "abc" and "ac" and nothing else, and a pattern that begins with '?'
    does not match the empty string.  The pattern fits the 32-bit address
    space and its literals are none of the five special bytes. *)
Theorem match_eglob_grammar (a : glob_alt) (t : string) :
  literals_ok_alt a = true ->
  Z.of_nat (String.length (print_alt a)) < 2 ^ 32 ->
  (match_eglob (print_alt a) t = Some true <-> derives_alt a t)
  /\ (match_eglob (print_alt a) t = Some false <-> ~ derives_alt a t)
  /\ match_eglob "*" "" = Some true
  /\ (forall u, match_eglob "a:b" u = Some true <-> u = "a" \/ u = "b")
  /\ (forall u, match_eglob "a(b:c)d" u = Some true
                <-> u = "abd" \/ u = "acd")
  /\ (forall u, match_eglob "a(b:)c" u = Some true
                <-> u = "abc" \/ u = "ac")
  /\ (forall pattern, match_glob ("?" ++ pattern) "" = Some false)
  /\ match_eglob "?" "" = Some false.
Proof.
  intros Ha Hlen.
  split; [now apply match_eglob_true_derives|].
  split.
  { destruct (match_eglob_derives_alt a t Ha Hlen) as [b [H1 H2]].
    rewrite H1, <- H2. destruct b; split; congruence. }
  split; [reflexivity|].
  split.
  { intros u. split.
    - intros H.
      apply (match_eglob_true_derives
               (ACons (SCons (Lit "a") SNil) (AOne (SCons (Lit "b") SNil))))
        in H; [|reflexivity..].
      derivation H.
    - intros [-> | ->]; reflexivity. }
  split.
  { intros u. split.
    - intros H.
      apply (match_eglob_true_derives
               (AOne (SCons (Lit "a")
                       (SCons (Group (ACons (SCons (Lit "b") SNil)
                                            (AOne (SCons (Lit "c") SNil))))
                          (SCons (Lit "d") SNil)))))
        in H; [|reflexivity..].
      derivation H.
    - intros [-> | ->]; reflexivity. }
  split.
  { intros u. split.
    - intros H.
      apply (match_eglob_true_derives
               (AOne (SCons (Lit "a")
                       (SCons (Group (ACons (SCons (Lit "b") SNil)
                                            (AOne SNil)))
                          (SCons (Lit "c") SNil)))))
        in H; [|reflexivity..].
      derivation H.
    - intros [-> | ->]; reflexivity. }
  split; [|reflexivity].
  intros pattern. reflexivity.
Qed.

Lemma match_eglob_grammar_witness :
  match_eglob "foo_*:bar_(alpha:beta)" "bar_beta" = Some true
  <-> derives_alt
        (ACons (SCons (Lit "f") (SCons (Lit "o") (SCons (Lit "o")
                 (SCons (Lit "_") (SCons Star SNil)))))
           (AOne (SCons (Lit "b") (SCons (Lit "a") (SCons (Lit "r")
                   (SCons (Lit "_")
                      (SCons (Group
                                (ACons (SCons (Lit "a") (SCons (Lit "l")
                                          (SCons (Lit "p") (SCons (Lit "h")
                                             (SCons (Lit "a") SNil)))))
                                   (AOne (SCons (Lit "b") (SCons (Lit "e")
                                            (SCons (Lit "t")
                                               (SCons (Lit "a") SNil)))))))
                         SNil)))))))
        "bar_beta".
Proof.
  apply (match_eglob_grammar
           (ACons (SCons (Lit "f") (SCons (Lit "o") (SCons (Lit "o")
                    (SCons (Lit "_") (SCons Star SNil)))))
              (AOne (SCons (Lit "b") (SCons (Lit "a") (SCons (Lit "r")
                      (SCons (Lit "_")
                         (SCons (Group
                                   (ACons (SCons (Lit "a") (SCons (Lit "l")
                                             (SCons (Lit "p") (SCons (Lit "h")
                                                (SCons (Lit "a") SNil)))))
                                      (AOne (SCons (Lit "b") (SCons (Lit "e")
                                               (SCons (Lit "t")
                                                  (SCons (Lit "a") SNil)))))))
                            SNil)))))))
           "bar_beta").
  - reflexivity.
  - reflexivity.
Defined.

(** The parentheses of a pattern of the grammar are balanced. *)
Lemma nesting_print :
  (forall s, literals_ok_seq s = true ->
     forall d rest, nesting d (print_seq s ++ rest) = nesting d rest)
  /\ (forall i, literals_ok_item i = true ->
       forall d rest, nesting d (print_item i ++ rest) = nesting d rest)
  /\ (forall a, literals_ok_alt a = true ->
       forall d rest, nesting d (print_alt a ++ rest) = nesting d rest).
Proof.
  apply glob_mutind.
  - reflexivity.
  - intros i IHi s IHs H d rest. cbn [literals_ok_seq print_seq] in *.
    apply andb_prop in H as [Hi Hs].
    now rewrite append_assoc, (IHi Hi), (IHs Hs).
  - reflexivity.
  - reflexivity.
  - intros c H d rest. cbn [literals_ok_item] in H.
    apply negb_true_iff, is_meta_false in H as (_ & _ & _ & Ho & Hc).
    cbn [print_item append nesting]. now rewrite Ho, Hc.
  - intros a IHa H d rest. cbn [literals_ok_item print_item] in *.
    rewrite !append_assoc. cbn [append nesting Ascii.eqb Bool.eqb].
    now rewrite (IHa H).
  - intros s IHs H d rest. exact (IHs H d rest).
  - intros s IHs a IHa H d rest. cbn [literals_ok_alt print_alt] in *.
    apply andb_prop in H as [Hs Ha].
    rewrite !append_assoc, (IHs Hs). cbn [append nesting Ascii.eqb Bool.eqb].
    now rewrite (IHa Ha).
Qed.

Lemma grammar_derives_balanced (p t : string) :
  grammar_derives p t -> nesting 0 p = Some O.
Proof.
  intros (a & Ha & <- & _).
  rewrite <- (append_nil_r (print_alt a)).
  now rewrite (proj2 (proj2 nesting_print) a Ha).
Qed.

(** C2, as the specification has it, fails: not every pattern string is
    a pattern of the grammar, and match_eglob() accepts subjects on
    pattern strings the grammar derives nothing from.  A [')'] that
    closes no group is skipped, so that "a)b" accepts "ab" and ")" the
    empty string; a group that is not closed ends with the pattern, so
    that "(a" accepts "a" and "(" the empty string. *)
Lemma match_eglob_outside_grammar :
  (match_eglob "a)b" "ab" = Some true
   /\ forall t, ~ grammar_derives "a)b" t)
  /\ (match_eglob "(a" "a" = Some true
      /\ forall t, ~ grammar_derives "(a" t)
  /\ (match_eglob "(" "" = Some true
      /\ forall t, ~ grammar_derives "(" t)
  /\ (match_eglob ")" "" = Some true
      /\ forall t, ~ grammar_derives ")" t).
Proof.
  repeat split; try reflexivity;
    intros t H; apply grammar_derives_balanced in H; discriminate H.
Qed.

(** Scenario S3 of the specification. *)
Example eglob_infuns_scenario :
  map (eglob_matches "foo_*:bar_(alpha:beta)")
      ["foo_x"; "foo_"; "bar_alpha"; "bar_beta"; "foo"; "bar_gamma";
       "baz_alpha"]
  = [true; true; true; true; false; false; false].
Proof. reflexivity. Qed.

(** ** Report decisions and addr2name *)

Lemma silent_step_refl (t : tracer) : silent_step t t.
Proof. repeat split. Qed.

Lemma silent_step_trans (t1 t2 t3 : tracer) :
  silent_step t1 t2 -> silent_step t2 t3 -> silent_step t1 t3.
Proof.
  unfold silent_step. intros H1 H2.
  decompose [and] H1. decompose [and] H2.
  repeat split; congruence.
Qed.

Lemma emitted_log_diag (l : line) (t : tracer) :
  is_trace l = false -> emitted (log l t) = emitted t.
Proof.
  intros H. unfold emitted, log. simpl.
  rewrite filter_app. simpl. rewrite H. apply app_nil_r.
Qed.

Lemma emitted_set_sys_mkwords (str : string) (t : tracer) :
  filter is_trace (output (snd (mkwords str (sys t)))) = emitted t.
Proof.
  destruct (mkwords_spec str (sys t)) as [_ H]. rewrite H.
  unfold emitted. rewrite filter_app.
  destruct (_ <? _)%nat; simpl; apply app_nil_r.
Qed.

Lemma getenv_mkwords_silent (w : world) (name : string) (t : tracer) :
  silent_step t (snd (getenv_mkwords w name t)).
Proof.
  unfold getenv_mkwords. destruct (getenv w name) as [env|].
  - pose proof (emitted_set_sys_mkwords env t) as H.
    destruct (mkwords env (sys t)) as [l s]. simpl in *.
    repeat split. exact H.
  - apply silent_step_refl.
Qed.

Lemma report_dso_read_silent (w : world) (t : tracer) :
  silent_step t (report_dso_read w t).
Proof.
  unfold report_dso_read.
  destruct (_ && _); [|apply silent_step_refl].
  pose proof (getenv_mkwords_silent w "TRACY_INLIBS" t) as H1.
  destruct (getenv_mkwords w "TRACY_INLIBS" t) as [[|x l] t1];
    simpl in H1.
  - pose proof (getenv_mkwords_silent w "TRACY_EXLIBS" t1) as H2.
    destruct (getenv_mkwords w "TRACY_EXLIBS" t1) as [[|y l2] t2];
      simpl in H2.
    + eapply silent_step_trans; [exact H1|].
      eapply silent_step_trans; [exact H2|]. repeat split.
    + eapply silent_step_trans; [exact H1|].
      eapply silent_step_trans; [exact H2|]. repeat split.
  - eapply silent_step_trans; [exact H1|]. repeat split.
Qed.

Lemma report_dso_silent (w : world) (fname : string) (t : tracer) :
  silent_step t (snd (report_dso w fname t)).
Proof.
  unfold report_dso.
  pose proof (report_dso_read_silent w t) as H.
  destruct (negb _); [|exact H].
  destruct (match_words _ _); destruct (report_dso_statics.is_whitelist _);
    exact H.
Qed.

Lemma report_function_read_silent (w : world) (t : tracer) :
  silent_step t (report_function_read w t).
Proof.
  unfold report_function_read.
  destruct (_ && _); [|apply silent_step_refl].
  unfold getenv_pattern.
  destruct (getenv w "TRACY_INFUNS") as [[|c p]|]; simpl;
    try (repeat split; fail);
    destruct (getenv w "TRACY_EXFUNS") as [[|c' p']|]; simpl;
    repeat split.
Qed.

Lemma report_function_silent (w : world) (funame : option string)
    (t : tracer) :
  silent_step t (snd (report_function w funame t)).
Proof.
  unfold report_function.
  pose proof (report_function_read_silent w t) as H.
  destruct (report_function_statics.report_all _); [exact H|].
  destruct funame; [|exact H].
  destruct (report_function_statics.pattern _); [|exact H].
  destruct (eglob_matches _ _); exact H.
Qed.

Lemma set_seen_malloc_silent (t : tracer) (dso : dso_st) :
  silent_step t
    match malloc (sys t) with
    | (true, s) => set_seen (dso :: seen t) (set_sys s t)
    | (false, s) => log DiagMalloc (set_sys s t)
    end.
Proof.
  unfold malloc. destruct (mallocs (sys t)) as [|[|] ms].
  - repeat split.
  - repeat split.
  - repeat split. unfold emitted. simpl. rewrite filter_app. simpl.
    apply app_nil_r.
Qed.

Lemma addr2name_silent (w : world) (addr : Z) (t : tracer) :
  silent_step t (snd (addr2name w addr t)).
Proof.
  unfold addr2name.
  assert (Hu : forall f t0, silent_step t t0 ->
                 silent_step t
                   (snd (let (r, t1) := report_function w f t0 in
                         ((if r then 0 else -1, "[???]", @None string),
                          t1)))).
  { intros f t0 H0. pose proof (report_function_silent w f t0) as H.
    destruct (report_function w f t0) as [r t1]. simpl in *.
    eapply silent_step_trans; eassumption. }
  destruct (dladdr w addr) as [info|];
    [|apply Hu, silent_step_refl].
  destruct (dli_fname info) as [[fname_ptr fname_text]|];
    [|apply Hu, silent_step_refl].
  pose proof (report_dso_silent w fname_text t) as H1.
  destruct (report_dso w fname_text t) as [[fname|] t1]; simpl in H1;
    [|exact H1].
  assert (Hf : forall (v : bool -> Z) f (x : string) (y : option string) t0,
                 silent_step t t0 ->
                 silent_step t
                   (snd (let (r, t2) := report_function w f t0 in
                         ((v r, x, y), t2)))).
  { intros v f x y t0 H0. pose proof (report_function_silent w f t0) as H.
    destruct (report_function w f t0) as [r t2]. simpl in *.
    eapply silent_step_trans; eassumption. }
  destruct (dli_sname info) as [sname|].
  { apply (Hf (fun r : bool => if r then 1 else -1)). exact H1. }
  destruct (find_seen fname_ptr (seen t1)) as [dso|].
  { apply (Hf (fun r : bool =>
                 if r
                 then match option_map cstring
                              (getsym dso (dli_fbase info)
                                 (if negb (dli_saddr info =? 0)
                                  then dli_saddr info else addr)) with
                      | Some _ => 1
                      | None => 0
                      end
                 else -1)). exact H1. }
  destruct (getdso w fname_text) as [[strs syms]|].
  - pose proof (set_seen_malloc_silent t1 (mkDso fname_ptr strs syms)) as H2.
    destruct (malloc (sys t1)) as [[|] s].
    + match goal with
      | |- silent_step _ (snd (let (r, t') := report_function _ ?f ?t0 in
                               ((@?v r, ?x, ?y), t'))) =>
          apply (Hf v f x y t0)
      end.
      eapply silent_step_trans; [exact H1 | exact H2].
    + assert (H3 : silent_step t (log DiagMalloc (set_sys s t1)))
        by (eapply silent_step_trans; [exact H1 | exact H2]).
      destruct (option_map cstring _) as [name|].
      * cbn [snd].
        assert (H4 : silent_step t
                       (report_function_read w
                          (log DiagMalloc (set_sys s t1))))
          by (eapply silent_step_trans;
              [exact H3 | apply report_function_read_silent]).
        destruct (report_function_statics.report_all _); [exact H4|].
        exact H4.
      * apply (Hf (fun r : bool => if r then 0 else -1)). exact H3.
  - apply (Hf (fun r : bool => if r then 0 else -1)). exact H1.
Qed.

(** ** Printing the trace *)

Lemma quiet_step_refl (t : tracer) : quiet_step t t.
Proof. repeat split. Qed.

Lemma quiet_step_trans (t1 t2 t3 : tracer) :
  quiet_step t1 t2 -> quiet_step t2 t3 -> quiet_step t1 t3.
Proof.
  unfold quiet_step. intros H1 H2.
  decompose [and] H1. decompose [and] H2.
  repeat split; congruence.
Qed.

Lemma silent_step_quiet (t t' : tracer) : silent_step t t' -> quiet_step t t'.
Proof.
  unfold silent_step, quiet_step. intros H. decompose [and] H.
  repeat split; assumption.
Qed.

Lemma read_maxdepth_quiet (w : world) (t : tracer) :
  quiet_step t (read_maxdepth w t).
Proof.
  unfold read_maxdepth. destruct (_ <? 0); [|apply quiet_step_refl].
  destruct (getenv w "TRACY_MAXDEPTH") as [[|c env]|]; repeat split.
Qed.

Lemma read_async_quiet (w : world) (t : tracer) :
  quiet_step t (read_async w t).
Proof.
  unfold read_async. destruct (_ <? 0); [|apply quiet_step_refl].
  destruct (getenv_is_1 w "TRACY_ASYNC"); [|repeat split].
  destruct (Async_fd _ <? 0); repeat split.
  unfold emitted. simpl. rewrite filter_app. simpl. apply app_nil_r.
Qed.

Lemma read_entries_only_quiet (w : world) (t : tracer) :
  quiet_step t (read_entries_only w t).
Proof.
  unfold read_entries_only. destruct (_ <? 0); repeat split.
Qed.

Lemma read_indent_quiet (w : world) (t : tracer) :
  quiet_step t (read_indent w t).
Proof. unfold read_indent. destruct (_ <? 0); repeat split. Qed.

Lemma read_log_fname_quiet (w : world) (t : tracer) :
  quiet_step t (read_log_fname w t).
Proof. unfold read_log_fname. destruct (_ <? 0); repeat split. Qed.

Lemma procinfo_quiet (w : world) (t : tracer) :
  quiet_step t (snd (procinfo w t)).
Proof. unfold procinfo. destruct (_ <? 0); repeat split. Qed.

Lemma config_read_quiet (w : world) (t : tracer) :
  quiet_step t (config_read w t).
Proof.
  unfold config_read.
  eapply quiet_step_trans; [apply read_maxdepth_quiet|].
  eapply quiet_step_trans; [apply read_async_quiet|].
  eapply quiet_step_trans; [apply read_entries_only_quiet|].
  apply read_indent_quiet.
Qed.

Lemma addr2name_quiet (w : world) (addr : Z) (t : tracer) :
  quiet_step t (snd (addr2name w addr t)).
Proof. apply silent_step_quiet, addr2name_silent. Qed.

Lemma quiet_emits (t t' : tracer) (r : Z) :
  quiet_step t t' -> r = 0 \/ r = 1 -> emits_at_most_one t t' r.
Proof.
  intros [H1 [H2 [H3 H4]]] Hr. repeat split; auto.
Qed.

Lemma quiet_then_line (t t' : tracer) (l : line) :
  quiet_step t t' -> trace_depth l = Some (Callstack_depth t') ->
  emits_at_most_one t (log l t') 1.
Proof.
  intros [H1 [H2 [H3 H4]]] Hl. repeat split; auto.
  right. exists l. repeat split.
  - rewrite <- H4. unfold emitted, log. simpl. rewrite filter_app. simpl.
    unfold is_trace at 2. now rewrite Hl.
  - now rewrite <- H2.
Qed.

Lemma print_trace_emits (w : world) (addr : Z) (dir : string)
    (frames : list Z) (t : tracer) :
  emits_at_most_one t (snd (print_trace w addr dir frames t))
                    (fst (print_trace w addr dir frames t)).
Proof.
  unfold print_trace.
  pose proof (read_maxdepth_quiet w t) as Q1.
  pose proof (config_read_quiet w t) as Q4. unfold config_read in Q4.
  set (t1 := read_maxdepth w t) in *.
  destruct (limit_reached t1); [apply quiet_emits; auto|].
  destruct (negb (ARMEL w) && _); [apply quiet_emits; auto|].
  set (addr' := if ARMEL w then addr else nth 2 frames 0).
  set (eo := negb (print_trace_statics.entries_only _ =? 0)).
  set (t4 := read_indent w (read_entries_only w (read_async w t1))) in *.
  clearbody t4 eo addr' t1.
  destruct (0 <=? Async_fd t4).
  - destruct (negb eo || Ascii.eqb (deref dir) "E").
    + pose proof (procinfo_quiet w t4) as Q5.
      destruct (procinfo w t4) as [pi t5]. simpl in Q5.
      assert (H : emits_at_most_one t
                    (log (TraceAsync pi (if eo then "" else dir)
                            (Callstack_depth t5) (indent_width t5) addr') t5)
                    1).
      { apply quiet_then_line; [|reflexivity].
        eapply quiet_step_trans; eassumption. }
      destruct (Ascii.eqb (deref dir) "E"); exact H.
    + destruct (Ascii.eqb (deref dir) "E"); apply quiet_emits; auto.
  - pose proof (addr2name_quiet w addr' t4) as Q5.
    destruct (addr2name w addr' t4) as [[[success fname] funame] t5].
    simpl in Q5.
    assert (Q : quiet_step t t5) by (eapply quiet_step_trans; eassumption).
    destruct (success <? 0); [apply quiet_emits; auto|].
    destruct (eo && negb (Ascii.eqb (deref dir) "E"));
      [apply quiet_emits; auto|].
    pose proof (read_log_fname_quiet w t5) as Q6.
    set (t6 := read_log_fname w t5) in *.
    pose proof (procinfo_quiet w t6) as Q7.
    destruct (procinfo w t6) as [pi t7]. simpl in Q7.
    assert (Q' : quiet_step t t7).
    { eapply quiet_step_trans; [exact Q|].
      eapply quiet_step_trans; eassumption. }
    destruct (negb (success =? 0)); [destruct funame as [name|]|];
      cbn [fst snd].
    + apply quiet_then_line; auto.
    + apply quiet_emits; [exact Q'|].
      destruct (Ascii.eqb (deref dir) "E"); auto.
    + apply quiet_then_line; auto.
Qed.

(** *** The statics agree with the environment *)

Lemma agrees_loaded (w : world) (s : io) : agrees w (loaded s).
Proof.
  unfold agrees. simpl. repeat split; try lia; left; lia.
Qed.

Lemma agrees_ext (w : world) (t t' : tracer) :
  print_trace_statics.depth_limited (pt_statics t')
  = print_trace_statics.depth_limited (pt_statics t) ->
  print_trace_statics.depth_limit (pt_statics t')
  = print_trace_statics.depth_limit (pt_statics t) ->
  print_trace_statics.be_async (pt_statics t')
  = print_trace_statics.be_async (pt_statics t) ->
  print_trace_statics.entries_only (pt_statics t')
  = print_trace_statics.entries_only (pt_statics t) ->
  Async_fd t' = Async_fd t ->
  Callstack_depth t' = Callstack_depth t ->
  agrees w t -> agrees w t'.
Proof.
  unfold agrees. intros -> -> -> -> -> ->. auto.
Qed.

Lemma agrees_silent (w : world) (t t' : tracer) :
  silent_step t t' -> agrees w t -> agrees w t'.
Proof.
  intros [_ [H1 [H2 [_ [H3 _]]]]]. apply agrees_ext; congruence.
Qed.

(** Once read, the limit is the one the environment asks for. *)
Lemma read_maxdepth_agrees (w : world) (t : tracer) :
  agrees w t ->
  agrees w (read_maxdepth w t)
  /\ match env_depth_limit w with
     | Some limit =>
         print_trace_statics.depth_limited (pt_statics (read_maxdepth w t))
         = 1
         /\ print_trace_statics.depth_limit (pt_statics (read_maxdepth w t))
            = limit
     | None =>
         print_trace_statics.depth_limited (pt_statics (read_maxdepth w t))
         = 0
     end.
Proof.
  intros [H1 H]. unfold read_maxdepth, agrees, env_depth_limit in *.
  destruct (Z.ltb_spec (print_trace_statics.depth_limited (pt_statics t)) 0)
    as [Hlt | Hge].
  - destruct (getenv w "TRACY_MAXDEPTH") as [[|c env]|]; simpl;
      repeat split; auto; apply H.
  - destruct H1 as [H1 | H1]; [lia|].
    split; [split; [right|]; assumption|]. exact H1.
Qed.

Lemma read_async_agrees (w : world) (t : tracer) :
  agrees w t ->
  agrees w (read_async w t)
  /\ (synchronous w -> Async_fd (read_async w t) < 0)
  /\ (~ synchronous w -> 0 <= Async_fd (read_async w t)).
Proof.
  intros [H1 [H2 [H3 H4]]]. unfold read_async, agrees, synchronous in *.
  destruct (Z.ltb_spec (print_trace_statics.be_async (pt_statics t)) 0)
    as [Hlt | Hge].
  - destruct (getenv_is_1 w "TRACY_ASYNC") eqn:Ea.
    + cbn [Async_fd set_Async_fd].
      destruct (Z.ltb_spec (mkstemp w) 0) as [Hm | Hm]; simpl.
      * split; [split; [exact H1 | split; [|split; [exact H3 | exact H4]]]|].
        -- right. left. auto.
        -- split; [auto|]. intros F. exfalso. apply F. now right.
      * split; [split; [exact H1 | split; [|split; [exact H3 | exact H4]]]|].
        -- right. right. split; [reflexivity|]. split; [assumption|].
           intros [F | F]; [discriminate | lia].
        -- split; [|auto]. intros [F | F]; [discriminate | lia].
    + simpl.
      assert (Hfd : Async_fd t < 0) by (destruct H2 as [H2 | [H2 | H2]]; lia).
      split; [split; [exact H1 | split; [|split; [exact H3 | exact H4]]]|].
      * right. left. auto.
      * split; [auto|]. intros F. exfalso. apply F. now left.
  - destruct H2 as [H2 | [H2 | H2]]; [lia | |].
    + split; [split; [exact H1 | split; [|split; [exact H3 | exact H4]]]|].
      * right. left. exact H2.
      * split; [intros _; apply H2|]. intros F. exfalso. apply F, H2.
    + split; [split; [exact H1 | split; [|split; [exact H3 | exact H4]]]|].
      * right. right. exact H2.
      * split; [|intros _; apply H2]. intros F. exfalso. now apply H2.
Qed.

Lemma read_entries_only_agrees (w : world) (t : tracer) :
  agrees w t ->
  agrees w (read_entries_only w t)
  /\ print_trace_statics.entries_only (pt_statics (read_entries_only w t))
     = Z_of_bool (getenv_is_1 w "TRACY_LOG_ENTRIES_ONLY")
  /\ Async_fd (read_entries_only w t) = Async_fd t.
Proof.
  intros [H1 [H2 [H3 H4]]]. unfold read_entries_only, agrees in *.
  destruct (Z.ltb_spec (print_trace_statics.entries_only (pt_statics t)) 0)
    as [Hlt | Hge].
  - simpl. repeat split; auto; lia.
  - destruct H3 as [H3 | H3]; [lia|]. repeat split; auto; lia.
Qed.

Lemma read_indent_agrees (w : world) (t : tracer) :
  agrees w t -> agrees w (read_indent w t).
Proof.
  unfold read_indent. destruct (_ <? 0); [|auto].
  apply agrees_ext; reflexivity.
Qed.

Lemma read_log_fname_agrees (w : world) (t : tracer) :
  agrees w t -> agrees w (read_log_fname w t).
Proof.
  unfold read_log_fname. destruct (_ <? 0); [|auto].
  apply agrees_ext; reflexivity.
Qed.

Lemma procinfo_agrees (w : world) (t : tracer) :
  agrees w t -> agrees w (snd (procinfo w t)).
Proof.
  unfold procinfo. destruct (_ <? 0); simpl; [|auto].
  apply agrees_ext; reflexivity.
Qed.

Lemma config_read_agrees (w : world) (t : tracer) :
  agrees w t -> agrees w (config_read w t).
Proof.
  intros H. unfold config_read.
  apply read_indent_agrees, read_entries_only_agrees, read_async_agrees,
    read_maxdepth_agrees, H.
Qed.

Lemma print_trace_agrees (w : world) (addr : Z) (dir : string)
    (frames : list Z) (t : tracer) :
  agrees w t -> agrees w (snd (print_trace w addr dir frames t)).
Proof.
  intros H. unfold print_trace.
  pose proof (proj1 (read_maxdepth_agrees w t H)) as A1.
  pose proof (config_read_agrees w t H) as A4. unfold config_read in A4.
  set (t1 := read_maxdepth w t) in *.
  destruct (limit_reached t1); [exact A1|].
  destruct (negb (ARMEL w) && _); [exact A1|].
  set (addr' := if ARMEL w then addr else nth 2 frames 0).
  set (eo := negb (print_trace_statics.entries_only _ =? 0)).
  set (t4 := read_indent w (read_entries_only w (read_async w t1))) in *.
  clearbody t4 eo addr' t1.
  destruct (0 <=? Async_fd t4).
  - destruct (negb eo || Ascii.eqb (deref dir) "E").
    + pose proof (procinfo_agrees w t4 A4) as A5.
      destruct (procinfo w t4) as [pi t5]. simpl in A5.
      destruct (Ascii.eqb (deref dir) "E"); exact A5.
    + destruct (Ascii.eqb (deref dir) "E"); exact A4.
  - pose proof (agrees_silent w _ _ (addr2name_silent w addr' t4) A4) as A5.
    destruct (addr2name w addr' t4) as [[[success fname] funame] t5].
    simpl in A5.
    destruct (success <? 0); [exact A5|].
    destruct (eo && negb (Ascii.eqb (deref dir) "E")); [exact A5|].
    pose proof (procinfo_agrees w _ (read_log_fname_agrees w t5 A5)) as A7.
    destruct (procinfo w (read_log_fname w t5)) as [pi t7]. simpl in A7.
    destruct (negb (success =? 0)); [destruct funame as [name|]|];
      exact A7.
Qed.

Lemma agrees_set_depth (w : world) (t : tracer) (d : Z) :
  agrees w t -> agrees w (set_Callstack_depth (wrap32 d) t).
Proof.
  intros [H1 [H2 [H3 _]]]. unfold agrees. simpl.
  repeat split; auto; apply wrap32_range.
Qed.

Lemma enter_agrees (w : world) (self callsite : Z) (frames : list Z)
    (t : tracer) :
  agrees w t -> agrees w (__cyg_profile_func_enter w self callsite frames t).
Proof.
  intros H. unfold __cyg_profile_func_enter.
  destruct (negb (Tracing t)); [exact H|].
  pose proof (print_trace_agrees w self "ENTER" frames t H) as A.
  destruct (print_trace w self "ENTER" frames t) as [r t']. simpl in A.
  destruct (negb (r =? 0)); [now apply agrees_set_depth | exact A].
Qed.

Lemma exit_agrees (w : world) (self callsite : Z) (frames : list Z)
    (t : tracer) :
  agrees w t -> agrees w (__cyg_profile_func_exit w self callsite frames t).
Proof.
  intros H. unfold __cyg_profile_func_exit.
  destruct (negb (Tracing t)); [exact H|].
  pose proof (print_trace_agrees w self "LEAVE" frames _
                (agrees_set_depth w t (Callstack_depth t - 1) H)) as A.
  destruct (print_trace w self "LEAVE" frames _) as [r t']. simpl in A.
  destruct (r =? 0); [now apply agrees_set_depth | exact A].
Qed.

(** ** The backtrace and the depth limit *)

Lemma read_maxdepth_output (w : world) (t : tracer) :
  sys (read_maxdepth w t) = sys t.
Proof.
  unfold read_maxdepth. destruct (_ <? 0); [|reflexivity].
  destruct (getenv w "TRACY_MAXDEPTH") as [[|c env]|]; reflexivity.
Qed.

Lemma read_maxdepth_depth (w : world) (t : tracer) :
  Callstack_depth (read_maxdepth w t) = Callstack_depth t.
Proof. apply read_maxdepth_quiet. Qed.

(** With too short a backtrace print_trace() goes no further than the
    depth limit. *)
Lemma print_trace_short_backtrace (w : world) (addr : Z) (dir : string)
    (frames : list Z) (t : tracer) :
  ARMEL w = false -> (List.length frames < 3)%nat ->
  print_trace w addr dir frames t = (1, read_maxdepth w t).
Proof.
  intros Harm Hlen. unfold print_trace. rewrite Harm.
  destruct (limit_reached _); [reflexivity|].
  replace (Z.of_nat (List.length (firstn 3 frames)) <? 3) with true;
    [reflexivity|].
  symmetry. apply Z.ltb_lt. rewrite length_firstn. lia.
Qed.

(** C4, as the code has it.  On a non-ARM build, when backtrace() returns
    fewer than three frames print_trace() logs nothing and returns 1, as it
    does past the depth limit: the event is counted, __cyg_profile_func_enter
    increments the depth counter and __cyg_profile_func_exit keeps its
    decrement. *)
Theorem short_backtrace_is_counted (w : world) (self callsite : Z)
    (dir : string) (frames : list Z) (t : tracer) :
  ARMEL w = false -> (List.length frames < 3)%nat -> Tracing t = true ->
  fst (print_trace w self dir frames t) = 1
  /\ output (sys (snd (print_trace w self dir frames t))) = output (sys t)
  /\ Callstack_depth (__cyg_profile_func_enter w self callsite frames t)
     = wrap32 (Callstack_depth t + 1)
  /\ output (sys (__cyg_profile_func_enter w self callsite frames t))
     = output (sys t)
  /\ Callstack_depth (__cyg_profile_func_exit w self callsite frames t)
     = wrap32 (Callstack_depth t - 1)
  /\ output (sys (__cyg_profile_func_exit w self callsite frames t))
     = output (sys t).
Proof.
  intros Harm Hlen Htr.
  unfold __cyg_profile_func_enter, __cyg_profile_func_exit.
  rewrite Htr. cbn [negb].
  rewrite !print_trace_short_backtrace by assumption.
  cbn [fst snd Z.eqb negb]. cbn [Callstack_depth set_Callstack_depth sys].
  rewrite !read_maxdepth_output, !read_maxdepth_depth.
  repeat split.
Qed.

Lemma short_backtrace_is_counted_witness :
  Callstack_depth
    (__cyg_profile_func_enter (prog []) 1000 0 [10; 20] (loaded (mkIo [] [])))
  = wrap32 (0 + 1).
Proof.
  apply (short_backtrace_is_counted (prog []) 1000 0 "ENTER" [10; 20]
           (loaded (mkIo [] []))).
  - reflexivity.
  - simpl. lia.
  - reflexivity.
Defined.

(** C4, as the specification has it, fails: an enter whose backtrace has
    two frames logs nothing and takes the depth counter from 0 to 1. *)
Lemma short_backtrace_enter_counts :
  let t := __cyg_profile_func_enter (prog []) 1000 0 [10; 20]
             (loaded (mkIo [] [])) in
  output (sys t) = [] /\ Callstack_depth (loaded (mkIo [] [])) = 0
  /\ Callstack_depth t = 1.
Proof. vm_compute. repeat split. Qed.

(** C5, as the code has it.  A non-empty $TRACY_MAXDEPTH always sets a
    limit: atoi() of it, as an unsigned.  When atoi() gives 0, as for a
    string with no digits, the limit is 0 and print_trace() returns 1
    without logging for every event at every depth; when it gives a
    negative number the limit is 2^32 less that many, reached only by a
    counter that has wrapped. *)
Theorem maxdepth_not_positive (w : world) (env : string) (addr : Z)
    (dir : string) (frames : list Z) (t : tracer) :
  getenv w "TRACY_MAXDEPTH" = Some env -> env <> "" -> atoi env <= 0 ->
  agrees w t ->
  print_trace_statics.depth_limited (pt_statics (read_maxdepth w t)) = 1
  /\ print_trace_statics.depth_limit (pt_statics (read_maxdepth w t))
     = wrap32 (atoi env)
  /\ (atoi env = 0 ->
      fst (print_trace w addr dir frames t) = 1
      /\ output (sys (snd (print_trace w addr dir frames t)))
         = output (sys t))
  /\ (atoi env < 0 ->
      wrap32 (atoi env) = 2 ^ 32 + atoi env
      /\ (limit_reached (read_maxdepth w t) = true
          <-> 2 ^ 32 + atoi env <= Callstack_depth t)).
Proof.
  intros Henv Hne Hle Hag.
  destruct (read_maxdepth_agrees w t Hag) as [_ Hlim].
  unfold env_depth_limit in Hlim. rewrite Henv in Hlim.
  destruct env as [|c env']; [contradiction|].
  destruct Hlim as [Hd Hl].
  split; [exact Hd|]. split; [exact Hl|].
  assert (Hdepth : 0 <= Callstack_depth t < 2 ^ 32) by apply Hag.
  split.
  - intros H0. unfold print_trace, limit_reached.
    rewrite Hd, Hl, H0, read_maxdepth_depth.
    change (wrap32 0) with 0.
    replace (0 <=? Callstack_depth t) with true
      by (symmetry; apply Z.leb_le; lia).
    cbn [Z.eqb negb andb fst snd]. now rewrite read_maxdepth_output.
  - intros Hneg.
    assert (Hmin : - 2 ^ 31 <= atoi (String c env')).
    { unfold atoi. apply Z.le_max_l. }
    assert (Hw : wrap32 (atoi (String c env')) = 2 ^ 32 + atoi (String c env')).
    { unfold wrap32. symmetry.
      apply (Z.mod_unique _ _ (-1)); lia. }
    split; [exact Hw|].
    unfold limit_reached. rewrite Hd, Hl, Hw, read_maxdepth_depth.
    cbn [Z.eqb negb andb]. apply Z.leb_le.
Qed.

Lemma maxdepth_not_positive_witness :
  fst (print_trace (prog [("TRACY_MAXDEPTH", "abc")]) 1000 "ENTER"
                   (called_from 1000) (loaded (mkIo [] [])))
  = 1.
Proof.
  apply (maxdepth_not_positive (prog [("TRACY_MAXDEPTH", "abc")]) "abc"
           1000 "ENTER" (called_from 1000) (loaded (mkIo [] []))).
  - reflexivity.
  - discriminate.
  - vm_compute. discriminate.
  - apply agrees_loaded.
  - reflexivity.
Defined.

(** C5, as the specification has it, fails: with $TRACY_MAXDEPTH set to
    "abc" the entry of main at depth 0 is not logged, which it is when the
    variable is unset. *)
Lemma maxdepth_abc_is_not_unlimited :
  output (sys (enter (prog [("TRACY_MAXDEPTH", "abc")]) 1000
                     (loaded (mkIo [] []))))
  = []
  /\ output (sys (enter (prog []) 1000 (loaded (mkIo [] []))))
     = [TraceName PrefixNone "ENTER" 0 1 "prog" ":" "main"].
Proof. vm_compute. split; reflexivity. Qed.

(** ** Initialization *)

(** tracy_init() on a $TRACY_SIGNAL it does not understand: the
    diagnostic, then the same two steps as for a signal it understands. *)
Lemma tracy_init_not_understood (w : world) (env : string) (t : tracer) :
  getenv w "TRACY_SIGNAL" = Some env ->
  Ascii.eqb (deref env) "y" || Ascii.eqb (deref env) "Y" = false ->
  atoi env <= 0 ->
  tracy_init w t = set_Tracing false (log (DiagSignal env) t).
Proof.
  intros Henv Hy Hle. unfold tracy_init. rewrite Henv, Hy.
  replace (atoi env <=? 0) with true by (symmetry; apply Z.leb_le; lia).
  unfold signal.
  replace (1 <=? atoi env) with false by (symmetry; apply Z.leb_gt; lia).
  reflexivity.
Qed.

(** C6, on the code.  With $TRACY_SIGNAL set to "abc" tracy_init() logs
    its diagnostic and goes on to call signal(), which installs nothing
    for signal 0, and to clear [Tracing]: no signal turns tracing on, and
    both entry points return at once, whereas with the variable unset
    tracing is on from the start. *)
Theorem tracy_init_bad_signal_disables_tracing :
  let bad := prog [("TRACY_SIGNAL", "abc")] in
  let t := tracy_init bad (loaded (mkIo [] [])) in
  output (sys t) = [DiagSignal "abc"]
  /\ Tracing t = false
  /\ handlers t = []
  /\ (forall signum, deliver signum t = t)
  /\ (forall self callsite frames,
        __cyg_profile_func_enter bad self callsite frames t = t
        /\ __cyg_profile_func_exit bad self callsite frames t = t)
  /\ Tracing (tracy_init (prog []) (loaded (mkIo [] []))) = true.
Proof.
  intros bad t.
  assert (Ht : t = set_Tracing false
                     (log (DiagSignal "abc") (loaded (mkIo [] []))))
    by reflexivity.
  rewrite Ht. repeat split.
Qed.

(** ** Entries only *)

Lemma read_indent_Async_fd (w : world) (t : tracer) :
  Async_fd (read_indent w t) = Async_fd t.
Proof. unfold read_indent. destruct (_ <? 0); reflexivity. Qed.

(** print_trace() for a LEAVE in synchronous mode with entries-only
    configured: once past the depth limit and the backtrace, the value
    returned is addr2name()'s verdict and nothing is logged. *)
Lemma print_trace_leave_entries_only (w : world) (addr : Z)
    (frames : list Z) (t : tracer) :
  agrees w t -> synchronous w ->
  getenv_is_1 w "TRACY_LOG_ENTRIES_ONLY" = true ->
  print_trace w addr "LEAVE" frames t
  = if limit_reached (read_maxdepth w t) then (1, read_maxdepth w t)
    else if negb (ARMEL w) && (Z.of_nat (List.length (firstn 3 frames)) <? 3)
    then (1, read_maxdepth w t)
    else
      let '((success, _, _), t') :=
        addr2name w (if ARMEL w then addr else nth 2 frames 0)
                  (config_read w t) in
      (if success <? 0 then 0 else 1, t').
Proof.
  intros Hag Hsync Heo. unfold print_trace, config_read.
  destruct (read_maxdepth_agrees w t Hag) as [A1 _].
  destruct (read_async_agrees w _ A1) as [A2 [Hfd _]].
  destruct (read_entries_only_agrees w _ A2) as [_ [He Hfd3]].
  specialize (Hfd Hsync).
  set (t1 := read_maxdepth w t) in *.
  destruct (limit_reached t1); [reflexivity|].
  destruct (negb (ARMEL w) && _); [reflexivity|].
  rewrite He, Heo. cbn [Z_of_bool Z.eqb negb].
  replace (0 <=? Async_fd (read_indent w (read_entries_only w
                                            (read_async w t1))))
    with false
    by (symmetry; apply Z.leb_gt; rewrite read_indent_Async_fd; lia).
  destruct (addr2name w _ _) as [[[success fname] funame] t5].
  change (Ascii.eqb (deref "LEAVE") "E") with false.
  cbn [negb andb]. destruct (success <? 0); reflexivity.
Qed.

Lemma wrap32_pred_succ (d : Z) :
  0 <= d < 2 ^ 32 -> wrap32 (wrap32 (d - 1) + 1) = d.
Proof.
  intros H. rewrite wrap32_add_l.
  replace (d - 1 + 1) with d by lia. now apply wrap32_small.
Qed.

(** C8, as the code has it.  In synchronous mode with entries-only
    configured print_trace() logs nothing for a LEAVE; it consults the
    filters before it looks at entries-only, so past the depth limit and
    the backtrace it returns 0 exactly when addr2name() says the address is
    not to be reported, and 1 otherwise; on 0 __cyg_profile_func_exit
    undoes its decrement. *)
Theorem entries_only_leave_consults_filters (w : world)
    (self callsite : Z) (frames : list Z) (t : tracer) :
  agrees w t -> synchronous w ->
  getenv_is_1 w "TRACY_LOG_ENTRIES_ONLY" = true ->
  emitted (snd (print_trace w self "LEAVE" frames t)) = emitted t
  /\ (limit_reached (read_maxdepth w t) = true
      \/ (ARMEL w = false /\ (List.length frames < 3)%nat) ->
      fst (print_trace w self "LEAVE" frames t) = 1)
  /\ (limit_reached (read_maxdepth w t) = false ->
      ARMEL w = true \/ (3 <= List.length frames)%nat ->
      fst (print_trace w self "LEAVE" frames t)
      = if fst (fst (fst (addr2name w (if ARMEL w then self
                                       else nth 2 frames 0)
                                    (config_read w t)))) <? 0
        then 0 else 1)
  /\ (Tracing t = true ->
      Callstack_depth (__cyg_profile_func_exit w self callsite frames t)
      = if fst (print_trace w self "LEAVE" frames
                  (set_Callstack_depth (wrap32 (Callstack_depth t - 1)) t))
           =? 0
        then Callstack_depth t
        else wrap32 (Callstack_depth t - 1)).
Proof.
  intros Hag Hsync Heo.
  pose proof (print_trace_emits w self "LEAVE" frames t) as Hem.
  pose proof (print_trace_leave_entries_only w self frames t Hag Hsync Heo)
    as Hpt.
  assert (Hshort : negb (ARMEL w)
                   && (Z.of_nat (List.length (firstn 3 frames)) <? 3) = true
                   <-> ARMEL w = false /\ (List.length frames < 3)%nat).
  { rewrite andb_true_iff, negb_true_iff, Z.ltb_lt, length_firstn.
    split; intros [H1 H2]; (split; [exact H1 | lia]). }
  split; [|split; [|split]].
  - rewrite Hpt.
    destruct (limit_reached _); [apply read_maxdepth_quiet|].
    destruct (negb (ARMEL w) && _); [apply read_maxdepth_quiet|].
    pose proof (addr2name_quiet w (if ARMEL w then self else nth 2 frames 0)
                  (config_read w t)) as Q.
    destruct (addr2name w _ _) as [[[success fname] funame] t5].
    simpl in *. destruct Q as [_ [_ [_ Q]]]. rewrite Q.
    apply config_read_quiet.
  - rewrite Hpt. intros [Hl | Hs].
    + now rewrite Hl.
    + apply Hshort in Hs. rewrite Hs. now destruct (limit_reached _).
  - intros Hl Hlong. rewrite Hpt, Hl.
    destruct (negb (ARMEL w) && _) eqn:E.
    + destruct (proj1 Hshort eq_refl) as [E1 E2].
      destruct Hlong as [Hlong | Hlong]; [congruence | lia].
    + destruct (addr2name w _ _) as [[[success fname] funame] t5].
      reflexivity.
  - intros Htr. unfold __cyg_profile_func_exit. rewrite Htr. cbn [negb].
    clear Hem Hpt.
    pose proof (print_trace_emits w self "LEAVE" frames
                  (set_Callstack_depth (wrap32 (Callstack_depth t - 1)) t))
      as [_ [Hd _]].
    destruct (print_trace w self "LEAVE" frames
                (set_Callstack_depth (wrap32 (Callstack_depth t - 1)) t))
      as [r t'].
    cbn [fst snd] in *. cbn [Callstack_depth set_Callstack_depth] in Hd.
    destruct (r =? 0); cbn [Callstack_depth set_Callstack_depth].
    + rewrite Hd. apply wrap32_pred_succ, Hag.
    + exact Hd.
Qed.

Lemma entries_only_leave_consults_filters_witness :
  let w := prog [("TRACY_LOG_ENTRIES_ONLY", "1"); ("TRACY_EXFUNS", "g")] in
  emitted (snd (print_trace w 4000 "LEAVE" (called_from 4000)
                  (loaded (mkIo [] []))))
  = emitted (loaded (mkIo [] [])).
Proof.
  intros w.
  apply (entries_only_leave_consults_filters w 4000 0 (called_from 4000)
           (loaded (mkIo [] []))).
  - apply agrees_loaded.
  - left. reflexivity.
  - reflexivity.
Defined.

(** C8, as the specification has it, fails: with entries-only configured
    and g excluded, print_trace() returns 0 for the LEAVE of g, and
    __cyg_profile_func_exit undoes its decrement: the counter stays at 1. *)
Lemma entries_only_leave_suppressed :
  let w := prog [("TRACY_LOG_ENTRIES_ONLY", "1"); ("TRACY_EXFUNS", "g")] in
  let t := set_Callstack_depth 1 (loaded (mkIo [] [])) in
  fst (print_trace w 4000 "LEAVE" (called_from 4000) t) = 0
  /\ Callstack_depth (leave w 4000 t) = 1.
Proof. vm_compute. split; reflexivity. Qed.

(** ** The depth counter at zero *)

Lemma print_trace_limit_reached (w : world) (addr : Z) (dir : string)
    (frames : list Z) (t : tracer) :
  limit_reached (read_maxdepth w t) = true ->
  print_trace w addr dir frames t = (1, read_maxdepth w t).
Proof. intros H. unfold print_trace. now rewrite H. Qed.

(** With a limit in the environment, a counter at 2^32 - 1 has reached
    it. *)
Lemma limit_reached_wrapped (w : world) (limit : Z) (t : tracer) :
  agrees w t -> env_depth_limit w = Some limit ->
  Callstack_depth t = 4294967295 ->
  limit_reached (read_maxdepth w t) = true.
Proof.
  intros Hag Hlim Hd.
  destruct (read_maxdepth_agrees w t Hag) as [_ H]. rewrite Hlim in H.
  destruct H as [H1 H2]. unfold limit_reached.
  rewrite H1, H2, read_maxdepth_depth, Hd. cbn [Z.eqb negb andb].
  apply Z.leb_le.
  assert (0 <= limit < 2 ^ 32); [|lia].
  unfold env_depth_limit in Hlim.
  destruct (getenv w "TRACY_MAXDEPTH") as [[|c env]|]; try discriminate.
  injection Hlim as <-. apply wrap32_range.
Qed.

(** C10, as the code has it.  __cyg_profile_func_exit at depth 0 leaves the
    counter at 4294967295 unless print_trace() returns 0, and a line it
    logs shows that depth.  With a depth limit configured the LEAVE is cut
    off by the limit and the counter stays at 4294967295; an enter that
    follows is cut off as well, and its increment takes the counter to
    0. *)
Theorem exit_at_depth_zero (w : world) (self callsite : Z)
    (frames : list Z) (t : tracer) :
  agrees w t -> Tracing t = true -> Callstack_depth t = 0 ->
  let t' := __cyg_profile_func_exit w self callsite frames t in
  (fst (print_trace w self "LEAVE" frames (set_Callstack_depth 4294967295 t))
   <> 0 -> Callstack_depth t' = 4294967295)
  /\ (emitted t' = emitted t
      \/ exists l, emitted t' = (emitted t ++ [l])%list
                   /\ trace_depth l = Some 4294967295)
  /\ (forall limit, env_depth_limit w = Some limit ->
        output (sys t') = output (sys t)
        /\ Callstack_depth t' = 4294967295
        /\ forall self' callsite' frames',
             output (sys (__cyg_profile_func_enter w self' callsite' frames'
                            t'))
             = output (sys t)
             /\ Callstack_depth (__cyg_profile_func_enter w self' callsite'
                                   frames' t') = 0).
Proof.
  intros Hag Htr Hd t'. subst t'.
  unfold __cyg_profile_func_exit. rewrite Htr, Hd. cbn [negb].
  change (wrap32 (0 - 1)) with 4294967295.
  set (t0 := set_Callstack_depth 4294967295 t).
  assert (Hag0 : agrees w t0).
  { exact (agrees_set_depth w t 4294967295 Hag). }
  pose proof (print_trace_emits w self "LEAVE" frames t0) as Hem.
  split; [|split].
  - destruct (print_trace w self "LEAVE" frames t0) as [r t1].
    cbn [fst snd] in *. intros Hr.
    destruct (Z.eqb_spec r 0) as [E | E]; [contradiction|].
    apply Hem.
  - destruct (print_trace w self "LEAVE" frames t0) as [r t1].
    cbn [fst snd] in *.
    destruct Hem as [_ [_ [_ [_ Hem]]]].
    assert (He : forall d, emitted (set_Callstack_depth d t1) = emitted t1)
      by reflexivity.
    destruct (r =? 0); rewrite ?He.
    + destruct Hem as [Hem | [l [Hem [Hl _]]]]; [now left|].
      right. exists l. auto.
    + destruct Hem as [Hem | [l [Hem [Hl _]]]]; [now left|].
      right. exists l. auto.
  - intros limit Hlim.
    rewrite (print_trace_limit_reached w self "LEAVE" frames t0)
      by (now apply (limit_reached_wrapped w limit)).
    cbn [Z.eqb]. rewrite read_maxdepth_output, read_maxdepth_depth.
    split; [reflexivity|]. split; [reflexivity|].
    intros self' callsite' frames'.
    unfold __cyg_profile_func_enter.
    assert (Ht1 : Tracing (read_maxdepth w t0) = true)
      by (rewrite (proj1 (read_maxdepth_quiet w t0)); exact Htr).
    rewrite Ht1. cbn [negb].
    assert (Hag1 : agrees w (read_maxdepth w t0))
      by now apply read_maxdepth_agrees.
    rewrite (print_trace_limit_reached w self' "ENTER" frames'
               (read_maxdepth w t0))
      by (apply (limit_reached_wrapped w limit); auto;
          now rewrite read_maxdepth_depth).
    cbn [Z.eqb negb]. cbn [sys Callstack_depth set_Callstack_depth].
    rewrite !read_maxdepth_output, !read_maxdepth_depth.
    split; reflexivity.
Qed.

Lemma exit_at_depth_zero_witness :
  Callstack_depth (leave (prog [("TRACY_MAXDEPTH", "2")]) 1000
                         (loaded (mkIo [] [])))
  = 4294967295.
Proof.
  destruct (exit_at_depth_zero (prog [("TRACY_MAXDEPTH", "2")]) 1000 0
              (called_from 1000) (loaded (mkIo [] [])))
    as [_ [_ H]].
  - apply agrees_loaded.
  - reflexivity.
  - reflexivity.
  - apply (H 2). reflexivity.
Defined.

(** C10, as the specification has it, fails in its last part: with the
    limit 1, after the leave of main at depth 0 has wrapped the counter,
    the enter of foo is cut off and its increment, not a decrement, takes
    the counter to 0; the enter of bar that follows is logged. *)
Lemma wrapped_counter_comes_back_by_increment :
  let w := prog [("TRACY_MAXDEPTH", "1")] in
  let t1 := leave w 1000 (loaded (mkIo [] [])) in
  let t2 := enter w 2000 t1 in
  let t3 := enter w 3000 t2 in
  Callstack_depth t1 = 4294967295 /\ output (sys t1) = []
  /\ Callstack_depth t2 = 0 /\ output (sys t2) = []
  /\ output (sys t3) = [TraceName PrefixNone "ENTER" 0 1 "prog" ":" "bar"].
Proof. vm_compute. repeat split. Qed.

(** ** What the entry points count *)

(** __cyg_profile_func_enter counts the event exactly when print_trace()
    returns non-zero. *)
Lemma enter_counts_admitted (w : world) (self callsite : Z)
    (frames : list Z) (t : tracer) :
  Tracing t = true ->
  Callstack_depth (__cyg_profile_func_enter w self callsite frames t)
  = if fst (print_trace w self "ENTER" frames t) =? 0
    then Callstack_depth t
    else wrap32 (Callstack_depth t + 1).
Proof.
  intros Htr. unfold __cyg_profile_func_enter. rewrite Htr. cbn [negb].
  pose proof (print_trace_emits w self "ENTER" frames t) as [_ [Hd _]].
  destruct (print_trace w self "ENTER" frames t) as [r t'].
  cbn [fst snd] in *. destruct (r =? 0); cbn [negb]; [exact Hd|].
  cbn [Callstack_depth set_Callstack_depth]. now rewrite Hd.
Qed.

(** __cyg_profile_func_exit undoes its decrement exactly when
    print_trace() returns 0. *)
Lemma exit_undoes_suppressed (w : world) (self callsite : Z)
    (frames : list Z) (t : tracer) :
  Tracing t = true -> 0 <= Callstack_depth t < 2 ^ 32 ->
  Callstack_depth (__cyg_profile_func_exit w self callsite frames t)
  = if fst (print_trace w self "LEAVE" frames
              (set_Callstack_depth (wrap32 (Callstack_depth t - 1)) t))
       =? 0
    then Callstack_depth t
    else wrap32 (Callstack_depth t - 1).
Proof.
  intros Htr Hd0. unfold __cyg_profile_func_exit. rewrite Htr. cbn [negb].
  pose proof (print_trace_emits w self "LEAVE" frames
                (set_Callstack_depth (wrap32 (Callstack_depth t - 1)) t))
    as [_ [Hd _]].
  destruct (print_trace w self "LEAVE" frames
              (set_Callstack_depth (wrap32 (Callstack_depth t - 1)) t))
    as [r t'].
  cbn [fst snd] in *. cbn [Callstack_depth set_Callstack_depth] in Hd.
  destruct (r =? 0); cbn [Callstack_depth set_Callstack_depth].
  - rewrite Hd. now apply wrap32_pred_succ.
  - exact Hd.
Qed.

(** X30.  A frame leaves the counter where it found it when print_trace()
    gives its LEAVE the verdict it gave its ENTER and what runs in between
    restores the counter. *)
Lemma frame_balanced_when_verdicts_agree (w : world) (self callsite : Z)
    (frames frames' : list Z) (t : tracer) (body : tracer -> tracer) :
  Tracing t = true -> 0 <= Callstack_depth t < 2 ^ 32 ->
  let t1 := __cyg_profile_func_enter w self callsite frames t in
  Tracing (body t1) = true ->
  Callstack_depth (body t1) = Callstack_depth t1 ->
  (fst (print_trace w self "ENTER" frames t) =? 0)
  = (fst (print_trace w self "LEAVE" frames'
            (set_Callstack_depth (wrap32 (Callstack_depth t1 - 1))
                                 (body t1))) =? 0) ->
  Callstack_depth (__cyg_profile_func_exit w self callsite frames' (body t1))
  = Callstack_depth t.
Proof.
  intros Htr Hd t1 Htr1 Hbody Hsame.
  assert (H1 : Callstack_depth t1
               = if fst (print_trace w self "ENTER" frames t) =? 0
                 then Callstack_depth t
                 else wrap32 (Callstack_depth t + 1))
    by now apply enter_counts_admitted.
  assert (Hd1 : 0 <= Callstack_depth t1 < 2 ^ 32).
  { rewrite H1. destruct (_ =? 0); [exact Hd | apply wrap32_range]. }
  rewrite exit_undoes_suppressed by (auto; now rewrite Hbody).
  rewrite Hbody, <- Hsame, H1.
  destruct (fst (print_trace w self "ENTER" frames t) =? 0);
    [reflexivity|].
  cbv iota. unfold wrap32. rewrite Zminus_mod_idemp_l.
  replace (Callstack_depth t + 1 - 1) with (Callstack_depth t) by lia.
  now apply Z.mod_small.
Qed.

(** ** The depth counter and the open frames *)

(** C1, on the code.  With a limit of 3 and g excluded, the enter of g at
    depth 0 is omitted and not counted, but the leave of g decrements the
    counter to 4294967295 before print_trace() compares it with the limit,
    which returns 1 before the filter is asked: the decrement is kept and
    the counter stands at 4294967295 with no frame open.  The enter of foo
    that follows is cut off by the limit, and the enter of bar inside foo
    is logged at depth 0 with one admitted frame open. *)
Theorem depth_counter_unbalanced_by_excluded_frame :
  let w := prog [("TRACY_MAXDEPTH", "3"); ("TRACY_EXFUNS", "g")] in
  let t0 := loaded (mkIo [] []) in
  let t1 := enter w 4000 t0 in
  let t2 := leave w 4000 t1 in
  let t3 := enter w 2000 t2 in
  let t4 := enter w 3000 t3 in
  fst (print_trace w 4000 "ENTER" (called_from 4000) t0) = 0
  /\ Callstack_depth t1 = 0
  /\ fst (print_trace w 4000 "LEAVE" (called_from 4000)
            (set_Callstack_depth 4294967295 t1)) = 1
  /\ Callstack_depth t2 = 4294967295 /\ output (sys t2) = []
  /\ Callstack_depth t3 = 0 /\ output (sys t3) = []
  /\ output (sys t4) = [TraceName PrefixNone "ENTER" 0 1 "prog" ":" "bar"].
Proof. vm_compute. repeat split. Qed.

(** ** The scenarios of the specification *)

(** Scenario S1 of the specification: main calls foo calls bar, no
    filters. *)
Example basic_trace :
  let w := prog [] in
  output (sys (leave w 1000 (leave w 2000 (leave w 3000
            (enter w 3000 (enter w 2000 (enter w 1000
               (loaded (mkIo [] [])))))))))
  = [TraceName PrefixNone "ENTER" 0 1 "prog" ":" "main";
     TraceName PrefixNone "ENTER" 1 1 "prog" ":" "foo";
     TraceName PrefixNone "ENTER" 2 1 "prog" ":" "bar";
     TraceName PrefixNone "LEAVE" 2 1 "prog" ":" "bar";
     TraceName PrefixNone "LEAVE" 1 1 "prog" ":" "foo";
     TraceName PrefixNone "LEAVE" 0 1 "prog" ":" "main"].
Proof. vm_compute. reflexivity. Qed.

(** Scenario S2: the same with a limit of 2. *)
Example max_depth_trace :
  let w := prog [("TRACY_MAXDEPTH", "2")] in
  map trace_depth
      (output (sys (leave w 1000 (leave w 2000 (leave w 3000
                 (enter w 3000 (enter w 2000 (enter w 1000
                    (loaded (mkIo [] []))))))))))
  = [Some 0; Some 1; Some 1; Some 0].
Proof. vm_compute. reflexivity. Qed.

(** Scenario S5: async mode logs addresses and keeps those of the entries
    for the table printed on exit. *)
Example async_trace :
  let w := mkWorld (environment [("TRACY_ASYNC", "1")]) prog_loader
                   (fun _ => None) 3 false in
  let t := leave w 1000 (leave w 2000 (enter w 2000 (enter w 1000
             (loaded (mkIo [] []))))) in
  output (sys t)
  = [TraceAsync PrefixNone "ENTER" 0 1 1004;
     TraceAsync PrefixNone "ENTER" 1 1 2004;
     TraceAsync PrefixNone "LEAVE" 1 1 2004;
     TraceAsync PrefixNone "LEAVE" 0 1 1004]
  /\ backlog t = [1004; 2004]
  /\ at_exit t = true
  /\ skipn 4 (output (sys (resolve_backlog w t)))
     = [SymtabHeader; SymtabName 1004 "prog" "main";
        SymtabName 2004 "prog" "foo"].
Proof. vm_compute. repeat split. Qed.

(** Scenario S6: with $TRACY_SIGNAL=y nothing is traced until SIGPROF is
    delivered, and nothing after it is delivered again. *)
Example signal_toggling :
  let w := prog [("TRACY_SIGNAL", "y")] in
  let t := leave w 1000 (enter w 1000 (tracy_init w (loaded (mkIo [] [])))) in
  let t' := leave w 2000 (enter w 2000 (deliver SIGPROF t)) in
  let t'' := leave w 3000 (enter w 3000 (deliver SIGPROF t')) in
  output (sys t) = []
  /\ output (sys t') = [TraceName PrefixNone "ENTER" 0 1 "prog" ":" "foo";
                        TraceName PrefixNone "LEAVE" 0 1 "prog" ":" "foo"]
  /\ output (sys t'') = output (sys t').
Proof. vm_compute. repeat split. Qed.

(** A function the loader has no name for is looked up in the tables of
    its file, which are read once and kept in [seen]. *)
Example name_from_the_tables :
  let strs := ["000"; "m"; "a"; "i"; "n"; "000"; "f"; "o"; "o"; "000"]%char in
  let w := mkWorld (fun _ => None)
                   (fun addr => Some (mkDlInfo (Some (1, "/usr/lib/libx.so"))
                                               1073741824 None 0))
                   (fun _ => Some (strs, [mkSym 1 4096; mkSym 6 4160]))
                   (-1) false in
  let t := __cyg_profile_func_enter w 0 0 [10; 20; 1073746008]
             (loaded (mkIo [] [])) in
  output (sys t) = [TraceName PrefixNone "ENTER" 0 1 "libx.so" ":" "foo"]
  /\ seen t = [mkDso 1 strs [mkSym 1 4096; mkSym 6 4160]].
Proof. vm_compute. repeat split. Qed.

(** * More about the code *)

(** ** The glob matcher on any pattern *)

Lemma star_loop_mono (f g : string -> option bool) (str : string) (b : bool) :
  (forall t b', f t = Some b' -> g t = Some b') ->
  star_loop f str = Some b -> star_loop g str = Some b.
Proof.
  intros Hfg. induction str as [|c str IH]; simpl.
  - destruct (f "") as [[|]|] eqn:E; try discriminate;
      rewrite (Hfg _ _ E); auto.
  - destruct (f (String c str)) as [[|]|] eqn:E; try discriminate;
      rewrite (Hfg _ _ E); auto.
Qed.

Lemma match_glob_fuel_mono (n : nat) :
  (forall pattern str b,
     match_glob_fuel n pattern str = Some b ->
     forall m, (n <= m)%nat -> match_glob_fuel m pattern str = Some b)
  /\ (forall pattern str b,
        match_eglob_fuel n pattern str = Some b ->
        forall m, (n <= m)%nat -> match_eglob_fuel m pattern str = Some b).
Proof.
  induction n as [|n [IHg IHe]].
  - split; intros; discriminate.
  - split.
    + intros pattern str b H [|m] Hm; [lia|].
      assert (Hnm : (n <= m)%nat) by lia.
      cbn [match_glob_fuel] in *.
      destruct pattern as [|c pattern]; [exact H|].
      destruct (Ascii.eqb c "("); [now apply (IHe _ _ _ H)|].
      destruct (Ascii.eqb c ")"); [now apply (IHg _ _ _ H)|].
      destruct (Ascii.eqb c ":").
      { destruct (find_end_of_glob _ _); [now apply (IHg _ _ _ H) | exact H]. }
      destruct (Ascii.eqb c "*").
      { eapply star_loop_mono; [|exact H].
        intros t b' Ht. now apply (IHg _ _ _ Ht). }
      destruct (Ascii.eqb c "?").
      { destruct str; [exact H | now apply (IHg _ _ _ H)]. }
      destruct str as [|d str]; [exact H|].
      destruct (Ascii.eqb d c); [now apply (IHg _ _ _ H) | exact H].
    + intros pattern str b H [|m] Hm; [lia|].
      assert (Hnm : (n <= m)%nat) by lia.
      cbn [match_eglob_fuel] in *.
      destruct (match_glob_fuel n pattern str) as [[|]|] eqn:E;
        try discriminate; rewrite (IHg _ _ _ E m Hnm); [exact H|].
      destruct (find_end_of_glob pattern ":"); [|exact H].
      now apply (IHe _ _ _ H).
Qed.

(** X1.  match_eglob() returns on every pattern, in the grammar or not, and
    every subject; a larger budget than [glob_fuel] changes nothing. *)
Theorem match_eglob_returns (pattern str : string) :
  exists b,
    match_eglob pattern str = Some b
    /\ forall fuel, (glob_fuel pattern <= fuel)%nat ->
                    match_eglob_fuel fuel pattern str = Some b.
Proof.
  destruct (proj2 (match_glob_fuel_total (glob_fuel pattern)) pattern str)
    as [b Hb]; [unfold glob_fuel; lia|].
  exists b. split; [exact Hb|].
  intros fuel Hf.
  exact (proj2 (match_glob_fuel_mono (glob_fuel pattern)) _ _ _ Hb fuel Hf).
Qed.

Lemma find_end_of_glob_loop_inside (str : string) :
  forall (d : Z) (c : ascii) (p : string),
  find_end_of_glob_loop d str c = Some p ->
  exists pre, str = pre ++ String c p.
Proof.
  induction str as [|ch str IH]; intros d c p; simpl; [discriminate|].
  assert (Hrec : forall d', find_end_of_glob_loop d' str c = Some p ->
                            exists pre, String ch str = pre ++ String c p).
  { intros d' H. destruct (IH _ _ _ H) as [pre ->].
    now exists (String ch pre). }
  destruct ((d =? 0) && Ascii.eqb ch c) eqn:E.
  - intros [= ->]. apply andb_prop in E as [_ E].
    apply Ascii.eqb_eq in E. subst. now exists "".
  - destruct (Ascii.eqb ch "("); [apply Hrec|].
    destruct (Ascii.eqb ch ")"); [|apply Hrec].
    destruct (0 <? d); [apply Hrec | discriminate].
Qed.

(** X2.  What find_end_of_glob() returns points into the string it was
    given, right behind an occurrence of the byte it looked for. *)
Theorem find_end_of_glob_points_behind (str : string) (c : ascii)
    (p : string) :
  find_end_of_glob str c = Some p ->
  exists pre, str = pre ++ String c p.
Proof. apply find_end_of_glob_loop_inside. Qed.

Lemma find_end_of_glob_points_behind_witness :
  exists pre, "foo_(a:b):bar" = pre ++ String ":" "bar".
Proof.
  apply (find_end_of_glob_points_behind "foo_(a:b):bar" ":" "bar").
  reflexivity.
Defined.

(** ** Patterns put together *)

Lemma print_alt_app (a b : glob_alt) :
  print_alt (alt_app a b) = print_alt a ++ ":" ++ print_alt b.
Proof.
  induction a as [s|s a IH]; simpl; [reflexivity|].
  now rewrite IH, !append_assoc.
Qed.

Lemma literals_ok_alt_app (a b : glob_alt) :
  literals_ok_alt (alt_app a b) = literals_ok_alt a && literals_ok_alt b.
Proof.
  induction a as [s|s a IH]; simpl; [reflexivity|].
  now rewrite IH, andb_assoc.
Qed.

Lemma derives_alt_app (a b : glob_alt) (t : string) :
  derives_alt (alt_app a b) t <-> derives_alt a t \/ derives_alt b t.
Proof.
  induction a as [s|s a IH]; simpl; [reflexivity|].
  rewrite IH. tauto.
Qed.

Lemma print_seq_app (s1 s2 : glob_seq) :
  print_seq (seq_app s1 s2) = print_seq s1 ++ print_seq s2.
Proof.
  induction s1 as [|i s1 IH]; simpl; [reflexivity|].
  now rewrite IH, append_assoc.
Qed.

Lemma literals_ok_seq_app (s1 s2 : glob_seq) :
  literals_ok_seq (seq_app s1 s2) = literals_ok_seq s1 && literals_ok_seq s2.
Proof.
  induction s1 as [|i s1 IH]; simpl; [reflexivity|].
  now rewrite IH, andb_assoc.
Qed.

Lemma derives_seq_app (s1 s2 : glob_seq) : forall t : string,
  derives_seq (seq_app s1 s2) t
  <-> exists t1 t2, t = t1 ++ t2 /\ derives_seq s1 t1 /\ derives_seq s2 t2.
Proof.
  induction s1 as [|i s1 IH]; intros t; cbn [seq_app derives_seq].
  - split.
    + intros H. exists "", t. auto.
    + intros [t1 [t2 [-> [-> H]]]]. exact H.
  - split.
    + intros [u1 [u2 [-> [Hi H]]]]. apply IH in H as [v1 [v2 [-> [H1 H2]]]].
      exists (u1 ++ v1), v2. split; [now rewrite append_assoc|].
      split; [|exact H2]. exists u1, v1. auto.
    + intros [t1 [t2 [-> [[u1 [u2 [-> [Hi H1]]]] H2]]]].
      exists u1, (u2 ++ t2). split; [apply append_assoc|].
      split; [exact Hi|]. apply IH. exists u2, t2. auto.
Qed.

Lemma print_seq_literal (p : string) : print_seq (literal p) = p.
Proof. induction p as [|c p IH]; simpl; [reflexivity | now rewrite IH]. Qed.

Lemma literals_ok_literal (p : string) :
  literals_ok_seq (literal p) = plain p.
Proof. induction p as [|c p IH]; simpl; [reflexivity | now rewrite IH]. Qed.

Lemma derives_seq_literal (p : string) : forall t : string,
  derives_seq (literal p) t <-> t = p.
Proof.
  induction p as [|c p IH]; intros t; cbn [literal derives_seq derives_item].
  - reflexivity.
  - split.
    + intros [t1 [t2 [-> [-> H]]]]. apply IH in H. now subst.
    + intros ->. exists (String c ""), p. repeat split. now apply IH.
Qed.

(** match_eglob() on a pattern that is one sequence. *)
Lemma match_eglob_true_derives_seq (s : glob_seq) (t : string) :
  literals_ok_seq s = true ->
  Z.of_nat (String.length (print_seq s)) < 2 ^ 32 ->
  match_eglob (print_seq s) t = Some true <-> derives_seq s t.
Proof. apply (match_eglob_true_derives (AOne s) t). Qed.

(** X3.  Alternation is disjunction: [a:b] matches what [a] matches and what
    [b] matches, for patterns [a] and [b] of the grammar. *)
Theorem match_eglob_alternation (a b : glob_alt) (t : string) :
  literals_ok_alt a = true -> literals_ok_alt b = true ->
  Z.of_nat (String.length (print_alt a ++ ":" ++ print_alt b)) < 2 ^ 32 ->
  match_eglob (print_alt a ++ ":" ++ print_alt b) t = Some true
  <-> match_eglob (print_alt a) t = Some true
      \/ match_eglob (print_alt b) t = Some true.
Proof.
  intros Ha Hb Hlen.
  assert (Hla : Z.of_nat (String.length (print_alt a)) < 2 ^ 32)
    by (rewrite length_append in Hlen; lia).
  assert (Hlb : Z.of_nat (String.length (print_alt b)) < 2 ^ 32)
    by (rewrite !length_append in Hlen; lia).
  rewrite <- print_alt_app in *.
  rewrite !match_eglob_true_derives; auto.
  - apply derives_alt_app.
  - now rewrite literals_ok_alt_app, Ha, Hb.
Qed.

Lemma match_eglob_alternation_witness :
  match_eglob ("foo_*" ++ ":" ++ "bar_(alpha:beta)") "bar_beta" = Some true
  <-> match_eglob "foo_*" "bar_beta" = Some true
      \/ match_eglob "bar_(alpha:beta)" "bar_beta" = Some true.
Proof.
  apply (match_eglob_alternation
           (AOne (SCons (Lit "f") (SCons (Lit "o") (SCons (Lit "o")
                    (SCons (Lit "_") (SCons Star SNil))))))
           (AOne (SCons (Lit "b") (SCons (Lit "a") (SCons (Lit "r")
                    (SCons (Lit "_")
                       (SCons (Group (ACons (literal "alpha")
                                            (AOne (literal "beta"))))
                          SNil))))))
           "bar_beta").
  - reflexivity.
  - reflexivity.
  - reflexivity.
Defined.

(** X4.  One sequence after another matches the strings that split into a
    part the first matches and a part the second matches. *)
Theorem match_eglob_concatenation (s1 s2 : glob_seq) (t : string) :
  literals_ok_seq s1 = true -> literals_ok_seq s2 = true ->
  Z.of_nat (String.length (print_seq s1 ++ print_seq s2)) < 2 ^ 32 ->
  match_eglob (print_seq s1 ++ print_seq s2) t = Some true
  <-> exists t1 t2,
        t = t1 ++ t2
        /\ match_eglob (print_seq s1) t1 = Some true
        /\ match_eglob (print_seq s2) t2 = Some true.
Proof.
  intros H1 H2 Hlen.
  assert (Hl1 : Z.of_nat (String.length (print_seq s1)) < 2 ^ 32)
    by (rewrite length_append in Hlen; lia).
  assert (Hl2 : Z.of_nat (String.length (print_seq s2)) < 2 ^ 32)
    by (rewrite length_append in Hlen; lia).
  rewrite <- print_seq_app in *.
  rewrite match_eglob_true_derives_seq, derives_seq_app;
    [|now rewrite literals_ok_seq_app, H1, H2 | assumption].
  split; intros [t1 [t2 [E [D1 D2]]]]; exists t1, t2;
    (split; [exact E|]); split;
    now apply match_eglob_true_derives_seq.
Qed.

Lemma match_eglob_concatenation_witness :
  match_eglob ("lib(g:x)" ++ "*.so") "libglib-2.0.so" = Some true
  <-> exists t1 t2,
        "libglib-2.0.so" = t1 ++ t2
        /\ match_eglob "lib(g:x)" t1 = Some true
        /\ match_eglob "*.so" t2 = Some true.
Proof.
  apply (match_eglob_concatenation
           (seq_app (literal "lib")
                    (SCons (Group (ACons (literal "g") (AOne (literal "x"))))
                           SNil))
           (SCons Star (literal ".so"))
           "libglib-2.0.so").
  - reflexivity.
  - reflexivity.
  - reflexivity.
Defined.

(** X5.  A pattern without special bytes matches itself and nothing else;
    followed by '*' it matches the strings that begin with it, after '*'
    the strings that end with it. *)
Theorem match_eglob_plain (p t : string) :
  plain p = true ->
  Z.of_nat (String.length p) + 1 < 2 ^ 32 ->
  (match_eglob p t = Some true <-> t = p)
  /\ (match_eglob (p ++ "*") t = Some true <-> exists rest, t = p ++ rest)
  /\ (match_eglob ("*" ++ p) t = Some true <-> exists rest, t = rest ++ p).
Proof.
  intros Hp Hlen.
  assert (Hok : literals_ok_seq (literal p) = true)
    by now rewrite literals_ok_literal.
  split; [|split].
  - rewrite <- (print_seq_literal p) at 1.
    rewrite match_eglob_true_derives_seq;
      [apply derives_seq_literal | exact Hok
       | rewrite print_seq_literal; lia].
  - replace (p ++ "*")
      with (print_seq (seq_app (literal p) (SCons Star SNil)))
      by (now rewrite print_seq_app, print_seq_literal).
    rewrite match_eglob_true_derives_seq.
    + rewrite derives_seq_app. split.
      * intros [t1 [t2 [-> [H1 _]]]]. apply derives_seq_literal in H1.
        subst. now exists t2.
      * intros [rest ->]. exists p, rest. split; [reflexivity|].
        split; [now apply derives_seq_literal|].
        exists rest, "". split; [now rewrite append_nil_r|]. now split.
    + now rewrite literals_ok_seq_app, Hok.
    + rewrite print_seq_app, length_append, print_seq_literal. simpl. lia.
  - replace ("*" ++ p) with (print_seq (SCons Star (literal p)))
      by (simpl; now rewrite print_seq_literal).
    rewrite match_eglob_true_derives_seq.
    + cbn [derives_seq derives_item]. split.
      * intros [t1 [t2 [-> [_ H]]]]. apply derives_seq_literal in H.
        subst. now exists t1.
      * intros [rest ->]. exists rest, p. split; [reflexivity|].
        split; [exact I | now apply derives_seq_literal].
    + exact Hok.
    + simpl. rewrite print_seq_literal. lia.
Qed.

Lemma match_eglob_plain_witness :
  match_eglob ("g_" ++ "*") "g_debug" = Some true
  <-> exists rest, "g_debug" = "g_" ++ rest.
Proof.
  apply (match_eglob_plain "g_" "g_debug").
  - reflexivity.
  - reflexivity.
Defined.

(** ** The basename of a path *)

Lemma after_last_slash_spec (x : string) :
  match after_last_slash x with
  | Some b => slash_free b = true /\ exists dir, x = dir ++ String "/" b
  | None => slash_free x = true
  end.
Proof.
  induction x as [|c x IH]; simpl; [reflexivity|].
  destruct (after_last_slash x) as [b|].
  - destruct IH as [Hb [dir ->]]. split; [exact Hb|].
    now exists (String c dir).
  - destruct (Ascii.eqb_spec c "/") as [-> | Hne].
    + split; [exact IH|]. now exists "".
    + simpl. exact IH.
Qed.

Lemma slash_free_no_last_slash (x : string) :
  slash_free x = true -> after_last_slash x = None.
Proof.
  induction x as [|c x IH]; simpl; [reflexivity|].
  intros H. apply andb_prop in H as [Hc Hx]. rewrite (IH Hx).
  apply negb_true_iff in Hc. now rewrite Hc.
Qed.

Lemma after_last_slash_app (dir b : string) :
  slash_free b = true -> after_last_slash (dir ++ String "/" b) = Some b.
Proof.
  intros Hb. induction dir as [|c dir IH]; simpl.
  - now rewrite (slash_free_no_last_slash b Hb).
  - now rewrite IH.
Qed.

Lemma basename_under_directory (dir path : string) :
  basename (dir ++ String "/" path) = basename path.
Proof.
  unfold basename.
  pose proof (after_last_slash_spec path) as H.
  destruct (after_last_slash path) as [b|].
  - destruct H as [Hb [d ->]].
    replace (dir ++ String "/" (d ++ String "/" b))
      with ((dir ++ String "/" d) ++ String "/" b)
      by (now rewrite append_assoc).
    now rewrite after_last_slash_app.
  - now rewrite after_last_slash_app.
Qed.

(** X6.  hash_path() leaves [word] pointing at the last component of the
    path, the part behind the last '/', with its length and the sum of
    its bytes, both modulo 2^32. *)
Theorem hash_path_last_component (path : string) :
  exists dir,
    path = dir ++ word_st.word (hash_path path)
    /\ (dir = "" \/ exists dir', dir = dir' ++ "/")
    /\ slash_free (word_st.word (hash_path path)) = true
    /\ word_st.length (hash_path path)
       = wrap32 (Z.of_nat (String.length (word_st.word (hash_path path))))
    /\ word_st.hash (hash_path path)
       = wrap32 (byte_sum (word_st.word (hash_path path))).
Proof.
  rewrite hash_path_spec. cbn [word_st.word word_st.length word_st.hash].
  unfold basename. pose proof (after_last_slash_spec path) as H.
  destruct (after_last_slash path) as [b|].
  - destruct H as [Hb [dir ->]]. exists (dir ++ "/").
    split; [now rewrite append_assoc|]. split; [right; now exists dir|].
    auto.
  - exists "". auto.
Qed.

Lemma match_words_result (words : list word_st.t) (path : string) :
  match_words words path = None
  \/ match_words words path = Some (basename path).
Proof.
  assert (Hloop : forall iword ws,
            match_words_loop iword ws = None
            \/ match_words_loop iword ws = Some (word_st.word iword)).
  { intros iword ws. induction ws as [|w ws IH]; simpl; [now left|].
    destruct (negb _); [exact IH|]. destruct (negb _); [exact IH|].
    destruct (negb _); [exact IH | now right]. }
  unfold match_words. destruct words as [|w ws]; [now left|].
  destruct (Hloop (hash_path path) (w :: ws)) as [H | H]; [now left|].
  right. rewrite H. now rewrite hash_path_spec.
Qed.

Lemma match_words_under_directory (words : list word_st.t)
    (dir path : string) :
  match_words words (dir ++ String "/" path) = match_words words path.
Proof.
  unfold match_words. destruct words as [|w ws]; [reflexivity|].
  now rewrite !hash_path_spec, basename_under_directory.
Qed.

(** X7.  match_words() looks at the basename only: whatever the list, the
    result is null or the pointer at the basename, and a directory in front
    of the path changes nothing. *)
Theorem match_words_ignores_directories (words : list word_st.t)
    (dir path : string) :
  (match_words words path = None
   \/ match_words words path = Some (basename path))
  /\ match_words words (dir ++ String "/" path) = match_words words path.
Proof.
  split; [apply match_words_result | apply match_words_under_directory].
Qed.

(** ** Symbol lookup and the load base *)

Lemma getsym_loop_same_comparison (dso : dso_st) (b1 pc1 b2 pc2 : Z)
    (syms : list Elf32_Sym) :
  Forall (fun sym => (if b1 <? st_value sym then pc1 else wrap32 (pc1 - b1))
                     = (if b2 <? st_value sym then pc2
                        else wrap32 (pc2 - b2))) syms ->
  forall closest diff,
    getsym_loop dso b1 pc1 closest diff syms
    = getsym_loop dso b2 pc2 closest diff syms.
Proof.
  induction 1 as [|sym syms Hsym _ IH]; intros closest diff;
    [reflexivity|].
  cbn [getsym_loop].
  set (e1 := if b1 <? st_value sym then pc1 else wrap32 (pc1 - b1)) in *.
  set (e2 := if b2 <? st_value sym then pc2 else wrap32 (pc2 - b2)) in *.
  clearbody e1 e2. subst e1.
  destruct (e2 <? st_value sym); [apply IH|].
  destruct (_ || _); [|apply IH].
  destruct (_ <=? st_name sym); [apply IH|].
  destruct (Ascii.eqb _ _); [apply IH|].
  destruct (_ =? 0); [reflexivity | apply IH].
Qed.

(** X8.  For a shared object, whose symbol values are offsets not above the
    load base, getsym() depends on the address only through its distance
    from the load base: the name found does not change when the object is
    loaded elsewhere. *)
Theorem getsym_relocated (dso : dso_st) (b1 pc1 b2 pc2 : Z) :
  Forall (fun sym => st_value sym <= b1 /\ st_value sym <= b2) (symtab dso) ->
  wrap32 (pc1 - b1) = wrap32 (pc2 - b2) ->
  getsym dso b1 pc1 = getsym dso b2 pc2.
Proof.
  intros Hv Hpc. unfold getsym.
  rewrite (getsym_loop_same_comparison dso b1 pc1 b2 pc2); [reflexivity|].
  eapply Forall_impl; [|exact Hv]. cbv beta. intros sym [H1 H2].
  replace (b1 <? st_value sym) with false by (symmetry; apply Z.ltb_ge; lia).
  replace (b2 <? st_value sym) with false by (symmetry; apply Z.ltb_ge; lia).
  exact Hpc.
Qed.

Lemma getsym_relocated_witness :
  let dso :=
    mkDso 0 ["000"; "m"; "a"; "i"; "n"; "000"; "f"; "o"; "o"; "000"]%char
          [mkSym 1 4096; mkSym 6 4160] in
  getsym dso 1073741824 1073746008 = getsym dso 3221225472 3221229656.
Proof.
  intros dso.
  apply (getsym_relocated dso 1073741824 1073746008 3221225472 3221229656).
  - repeat constructor; vm_compute; congruence.
  - reflexivity.
Defined.

(** X9.  For the executable, whose symbol values are addresses above the
    load base, getsym() does not depend on the load base at all. *)
Theorem getsym_absolute (dso : dso_st) (b1 b2 pc : Z) :
  Forall (fun sym => b1 < st_value sym /\ b2 < st_value sym) (symtab dso) ->
  getsym dso b1 pc = getsym dso b2 pc.
Proof.
  intros Hv. unfold getsym.
  rewrite (getsym_loop_same_comparison dso b1 pc b2 pc); [reflexivity|].
  eapply Forall_impl; [|exact Hv]. cbv beta. intros sym [H1 H2].
  replace (b1 <? st_value sym) with true by (symmetry; apply Z.ltb_lt; lia).
  replace (b2 <? st_value sym) with true by (symmetry; apply Z.ltb_lt; lia).
  reflexivity.
Qed.

Lemma getsym_absolute_witness :
  let dso :=
    mkDso 0 ["000"; "m"; "a"; "i"; "n"; "000"]%char [mkSym 1 134513000] in
  getsym dso 0 134513100 = getsym dso 134512640 134513100.
Proof.
  intros dso. apply (getsym_absolute dso 0 134512640 134513100).
  repeat constructor; vm_compute; congruence.
Defined.

(** ** Reading the ELF image *)

Lemma last_of_type_snoc (type : Z) (headers : list Elf32_Shdr)
    (hdr : Elf32_Shdr) :
  last_of_type type (headers ++ [hdr])
  = if sh_type hdr =? type then Some hdr else last_of_type type headers.
Proof.
  unfold last_of_type. rewrite rev_app_distr. reflexivity.
Qed.

Lemma last_of_type_cons (type : Z) (hdr : Elf32_Shdr)
    (headers : list Elf32_Shdr) :
  last_of_type type (hdr :: headers)
  = match last_of_type type headers with
    | Some last => Some last
    | None => if sh_type hdr =? type then Some hdr else None
    end.
Proof.
  unfold last_of_type. cbn [rev].
  induction (rev headers) as [|h hs IH]; cbn [find app].
  - reflexivity.
  - destruct (sh_type h =? type); [reflexivity | exact IH].
Qed.

Lemma getelf_loop_last (file : list ascii) (n : nat) :
  forall (sec : Z) (strsec symsec : option Elf32_Shdr),
    getelf_loop file n sec strsec symsec
    = (match last_of_type SHT_STRTAB (section_headers file n sec) with
       | Some hdr => Some hdr
       | None => strsec
       end,
       match last_of_type SHT_SYMTAB (section_headers file n sec) with
       | Some hdr => Some hdr
       | None => symsec
       end).
Proof.
  induction n as [|n IH]; intros sec strsec symsec.
  - reflexivity.
  - cbn [getelf_loop section_headers]. rewrite !last_of_type_cons.
    set (hdr := Elf32_Shdr_at file sec).
    destruct (sh_type hdr =? SHT_STRTAB) eqn:Hstr.
    + apply Z.eqb_eq in Hstr.
      assert (Hsym : (sh_type hdr =? SHT_SYMTAB) = false)
        by (apply Z.eqb_neq; rewrite Hstr; discriminate).
      rewrite Hsym, IH.
      destruct (last_of_type SHT_STRTAB _), (last_of_type SHT_SYMTAB _);
        reflexivity.
    + destruct (sh_type hdr =? SHT_SYMTAB) eqn:Hsym; rewrite IH;
        destruct (last_of_type SHT_STRTAB _), (last_of_type SHT_SYMTAB _);
        reflexivity.
Qed.

Lemma getelf_spec (file : list ascii)
    (strs : list ascii) (syms : list Elf32_Sym) :
  getelf file = Some (strs, syms)
  <-> (byte_at file 0 = 127 /\ byte_at file 1 = 69
       /\ byte_at file 2 = 76 /\ byte_at file 3 = 70)
      /\ exists strsec symsec,
           let headers :=
             section_headers file (Z.to_nat (Elf32_Half_at file 48))
                             (Elf32_Word_at file 32) in
           last_of_type SHT_STRTAB headers = Some strsec
           /\ last_of_type SHT_SYMTAB headers = Some symsec
           /\ sh_entsize symsec = sizeof_Elf32_Sym
           /\ strs = bytes_between file (sh_offset strsec)
                                   (sh_offset strsec + sh_size strsec)
           /\ syms = syms_between file (Z.to_nat (sh_size symsec))
                                  (sh_offset symsec)
                                  (sh_offset symsec + sh_size symsec).
Proof.
  unfold getelf. rewrite getelf_loop_last.
  set (headers := section_headers file _ _).
  destruct (byte_at file 0 =? 127) eqn:H0; cbn [negb orb].
  2:{ apply Z.eqb_neq in H0. split; [discriminate | tauto]. }
  destruct (byte_at file 1 =? 69) eqn:H1; cbn [negb orb].
  2:{ apply Z.eqb_neq in H1. split; [discriminate | tauto]. }
  destruct (byte_at file 2 =? 76) eqn:H2; cbn [negb orb].
  2:{ apply Z.eqb_neq in H2. split; [discriminate | tauto]. }
  destruct (byte_at file 3 =? 70) eqn:H3; cbn [negb orb].
  2:{ apply Z.eqb_neq in H3. split; [discriminate | tauto]. }
  apply Z.eqb_eq in H0, H1, H2, H3.
  destruct (last_of_type SHT_STRTAB headers) as [strsec|].
  2:{ split; [discriminate|]. intros [_ (s1 & s2 & Hs & _)]. discriminate. }
  destruct (last_of_type SHT_SYMTAB headers) as [symsec|].
  2:{ split; [discriminate|].
      intros [_ (s1 & s2 & _ & Hs & _)]. discriminate. }
  destruct (sh_entsize symsec =? sizeof_Elf32_Sym) eqn:Hent; cbn [negb].
  - apply Z.eqb_eq in Hent. split.
    + intros [= <- <-]. split; [tauto|]. exists strsec, symsec. tauto.
    + intros [_ (s1 & s2 & [= <-] & [= <-] & _ & -> & ->)]. reflexivity.
  - apply Z.eqb_neq in Hent. split; [discriminate|].
    intros [_ (s1 & s2 & _ & [= <-] & Hs & _)]. contradiction.
Qed.

Lemma byte_at_range (file : list ascii) (off : Z) :
  0 <= byte_at file off < 256.
Proof.
  unfold byte_at. destruct (off <? 0); [lia|].
  generalize (nth (Z.to_nat off) file zero). intros c.
  destruct c as [[] [] [] [] [] [] [] []]; vm_compute; split; congruence.
Qed.

Lemma Elf32_Word_at_range (file : list ascii) (off : Z) :
  0 <= Elf32_Word_at file off < 2 ^ 32.
Proof.
  unfold Elf32_Word_at.
  pose proof (byte_at_range file off).
  pose proof (byte_at_range file (off + 1)).
  pose proof (byte_at_range file (off + 2)).
  pose proof (byte_at_range file (off + 3)).
  change (2 ^ 32) with 4294967296. lia.
Qed.

Lemma section_headers_in (file : list ascii) (n : nat) :
  forall (sec : Z) (hdr : Elf32_Shdr),
    In hdr (section_headers file n sec) ->
    exists off, hdr = Elf32_Shdr_at file off.
Proof.
  induction n as [|n IH]; intros sec hdr Hin; cbn [section_headers] in Hin.
  - destruct Hin.
  - destruct Hin as [<-|Hin]; [now exists sec | exact (IH _ _ Hin)].
Qed.

Lemma syms_between_length (file : list ascii) (n : nat) :
  forall (sym count : Z),
    0 <= count -> count <= Z.of_nat n ->
    List.length (syms_between file n sym (sym + sizeof_Elf32_Sym * count))
    = Z.to_nat count.
Proof.
  unfold sizeof_Elf32_Sym.
  induction n as [|n IH]; intros sym count Hcount Hn.
  - cbn [syms_between List.length]. lia.
  - cbn [syms_between]. destruct (sym <? sym + 16 * count) eqn:Hlt.
    + apply Z.ltb_lt in Hlt. cbn [List.length].
      unfold sizeof_Elf32_Sym.
      replace (sym + 16 * count) with (sym + 16 + 16 * (count - 1)) by lia.
      rewrite IH by lia. lia.
    + apply Z.ltb_ge in Hlt. cbn [List.length]. lia.
Qed.

Lemma syms_between_nth (file : list ascii) (n : nat) :
  forall (sym count : Z) (i : nat),
    Z.of_nat i < count -> count <= Z.of_nat n ->
    nth_error (syms_between file n sym (sym + sizeof_Elf32_Sym * count)) i
    = Some (Elf32_Sym_at file (sym + sizeof_Elf32_Sym * Z.of_nat i)).
Proof.
  unfold sizeof_Elf32_Sym.
  induction n as [|n IH]; intros sym count i Hi Hn.
  - lia.
  - cbn [syms_between]. destruct (sym <? sym + 16 * count) eqn:Hlt.
    2:{ apply Z.ltb_ge in Hlt. lia. }
    destruct i as [|i]; cbn [nth_error].
    + do 2 f_equal. lia.
    + unfold sizeof_Elf32_Sym.
      replace (sym + 16 * count) with (sym + 16 + 16 * (count - 1)) by lia.
      rewrite IH by lia. do 2 f_equal. lia.
Qed.

(** X10.  The symbol table getelf() hands to getsym() has one entry for
    each 16 bytes of the section, and entry [i] is the record read at
    [sh_offset + 16 * i]: name offset in its first word, value in the
    second. *)
Theorem getelf_symbol_records (file : list ascii) (strs : list ascii)
    (syms : list Elf32_Sym) :
  getelf file = Some (strs, syms) ->
  exists symsec,
    last_of_type SHT_SYMTAB
      (section_headers file (Z.to_nat (Elf32_Half_at file 48))
                       (Elf32_Word_at file 32)) = Some symsec
    /\ forall count,
         sh_size symsec = 16 * count ->
         List.length syms = Z.to_nat count
         /\ forall i, Z.of_nat i < count ->
              nth_error syms i
              = Some (mkSym (Elf32_Word_at file
                               (sh_offset symsec + 16 * Z.of_nat i))
                            (Elf32_Word_at file
                               (sh_offset symsec + 16 * Z.of_nat i + 4))).
Proof.
  intros Helf. apply getelf_spec in Helf.
  destruct Helf as [_ (strsec & symsec & _ & Hsym & _ & _ & ->)].
  exists symsec. split; [exact Hsym|]. intros count Hsize.
  assert (Hcount : 0 <= count).
  { pose proof (Elf32_Word_at_range file (Elf32_Word_at file 32)) as _.
    destruct (Z.le_gt_cases 0 count) as [H|H]; [exact H|].
    exfalso. apply find_some in Hsym. destruct Hsym as [Hin _].
    apply in_rev, section_headers_in in Hin. destruct Hin as [sec ->].
    cbn [sh_size Elf32_Shdr_at] in Hsize.
    pose proof (Elf32_Word_at_range file (sec + 20)). lia. }
  rewrite Hsize. split.
  - apply (syms_between_length file _ (sh_offset symsec) count); lia.
  - intros i Hi.
    rewrite (syms_between_nth file _ (sh_offset symsec) count i) by lia.
    reflexivity.
Qed.

(** X11.  getelf() succeeds exactly on an image that begins with the ELF
    magic, has section headers of both types and 16-byte symbol records;
    of several string tables, or symbol tables, the one whose header comes
    last in the file is taken. *)
Theorem getelf_takes_last_tables (file : list ascii)
    (strs : list ascii) (syms : list Elf32_Sym) :
  getelf file = Some (strs, syms)
  <-> (byte_at file 0 = 127 /\ byte_at file 1 = 69
       /\ byte_at file 2 = 76 /\ byte_at file 3 = 70)
      /\ exists strsec symsec,
           let headers :=
             section_headers file (Z.to_nat (Elf32_Half_at file 48))
                             (Elf32_Word_at file 32) in
           last_of_type SHT_STRTAB headers = Some strsec
           /\ last_of_type SHT_SYMTAB headers = Some symsec
           /\ sh_entsize symsec = sizeof_Elf32_Sym
           /\ strs = bytes_between file (sh_offset strsec)
                                   (sh_offset strsec + sh_size strsec)
           /\ syms = syms_between file (Z.to_nat (sh_size symsec))
                                  (sh_offset symsec)
                                  (sh_offset symsec + sh_size symsec).
Proof.
  exact (getelf_spec file strs syms).
Qed.

Lemma getelf_symbol_records_witness :
  getelf small_elf = Some (small_strtab, small_symtab)
  /\ exists symsec,
       last_of_type SHT_SYMTAB
         (section_headers small_elf (Z.to_nat (Elf32_Half_at small_elf 48))
                          (Elf32_Word_at small_elf 32)) = Some symsec
       /\ forall count,
            sh_size symsec = 16 * count ->
            List.length small_symtab = Z.to_nat count
            /\ forall i, Z.of_nat i < count ->
                 nth_error small_symtab i
                 = Some (mkSym (Elf32_Word_at small_elf
                                  (sh_offset symsec + 16 * Z.of_nat i))
                               (Elf32_Word_at small_elf
                                  (sh_offset symsec + 16 * Z.of_nat i + 4))).
Proof.
  split; [vm_compute; reflexivity|].
  apply (getelf_symbol_records small_elf small_strtab small_symtab).
  vm_compute; reflexivity.
Defined.

(** ** Opening the file of a DSO *)

Lemma left_open_app (calls1 calls2 held : list syscall) :
  left_open (calls1 ++ calls2) held = left_open calls2 (left_open calls1 held).
Proof.
  revert held. induction calls1 as [|c calls1 IH]; intros held.
  - reflexivity.
  - cbn [app left_open].
    destruct c as [p [|]|p ok|p [|]|p|p]; apply IH.
Qed.

(** X12.  getdso() leaves nothing open when it fails, whichever step
    failed: the mapping is unmapped and the descriptor closed.  When it
    succeeds exactly one descriptor and one mapping stay open, of the file
    named or of /proc/self/exe, for the caller to release. *)
Theorem getdso_releases_on_failure (fs : files) (fname : string) :
  match getdso_on fs fname with
  | (None, calls) => left_open calls [] = []
  | (Some _, calls) =>
      exists hfile,
        (hfile = fname \/ hfile = "/proc/self/exe")
        /\ left_open calls [] = [sys_mmap hfile true; sys_open hfile true]
  end.
Proof.
  assert (Hrest : forall hfile calls,
    left_open calls [] = [sys_open hfile true] ->
    match
      (if negb (can_fstat fs hfile) then
        (None, (calls ++ [sys_fstat hfile false; sys_close hfile])%list)
      else
        match mapping fs hfile with
        | None =>
            (None, (calls ++ [sys_fstat hfile true; sys_mmap hfile false;
                              sys_close hfile])%list)
        | Some file =>
            match getelf file with
            | None =>
                (None, (calls ++ [sys_fstat hfile true; sys_mmap hfile true;
                                  sys_munmap hfile; sys_close hfile])%list)
            | Some tables =>
                (Some tables,
                 (calls ++ [sys_fstat hfile true; sys_mmap hfile true])%list)
            end
        end)
    with
    | (None, calls) => left_open calls [] = []
    | (Some _, calls) =>
        left_open calls [] = [sys_mmap hfile true; sys_open hfile true]
    end).
  { intros hfile calls Hcalls.
    destruct (can_fstat fs hfile); cbn [negb].
    2:{ rewrite left_open_app, Hcalls. cbn. now rewrite String.eqb_refl. }
    destruct (mapping fs hfile) as [file|].
    2:{ rewrite left_open_app, Hcalls. cbn. now rewrite String.eqb_refl. }
    destruct (getelf file) as [tables|].
    - rewrite left_open_app, Hcalls. reflexivity.
    - rewrite left_open_app, Hcalls. cbn. rewrite String.eqb_refl. cbn.
      now rewrite String.eqb_refl. }
  unfold getdso_on.
  destruct (can_open fs fname).
  - specialize (Hrest fname [sys_open fname true] eq_refl).
    destruct (if negb (can_fstat fs fname) then _ else _) as [[tables|] calls].
    + exists fname. split; [now left | exact Hrest].
    + exact Hrest.
  - destruct (Ascii.eqb (deref fname) "/"); [reflexivity|].
    destruct (can_open fs "/proc/self/exe"); [|reflexivity].
    specialize (Hrest "/proc/self/exe"
                  [sys_open fname false; sys_open "/proc/self/exe" true]
                  eq_refl).
    destruct (if negb (can_fstat fs "/proc/self/exe") then _ else _)
      as [[tables|] calls].
    + exists "/proc/self/exe". split; [now right | exact Hrest].
    + exact Hrest.
Qed.

(** X13.  An absolute name is never looked for elsewhere: every call
    getdso() makes is on the file named, and when that file cannot be
    opened, open() is the only call made. *)
Theorem getdso_absolute_name (fs : files) (fname : string) :
  deref fname = "/"%char ->
  Forall (fun call => path_of call = fname) (snd (getdso_on fs fname))
  /\ (can_open fs fname = false ->
      getdso_on fs fname = (None, [sys_open fname false])).
Proof.
  intros Habs. unfold getdso_on. rewrite Habs, Ascii.eqb_refl.
  destruct (can_open fs fname).
  - split; [|discriminate].
    destruct (can_fstat fs fname); cbn [negb].
    2:{ cbn. repeat constructor. }
    destruct (mapping fs fname) as [file|].
    2:{ cbn. repeat constructor. }
    destruct (getelf file); cbn; repeat constructor.
  - split; [cbn; repeat constructor | reflexivity].
Qed.

Lemma getdso_absolute_name_witness :
  let fs := mkFiles (fun path => String.eqb path "/bin/prog")
                    (fun _ => true) (fun _ => Some small_elf) in
  deref "/bin/prog" = "/"%char
  /\ Forall (fun call => path_of call = "/bin/prog")
            (snd (getdso_on fs "/bin/prog"))
  /\ (can_open fs "/bin/prog" = false ->
      getdso_on fs "/bin/prog" = (None, [sys_open "/bin/prog" false])).
Proof.
  split; [reflexivity|].
  apply (getdso_absolute_name
           (mkFiles (fun path => String.eqb path "/bin/prog")
                    (fun _ => true) (fun _ => Some small_elf)) "/bin/prog").
  reflexivity.
Defined.

(** X14.  A relative name that cannot be opened is taken for the program
    itself: getdso() then gives what it gives for /proc/self/exe. *)
Theorem getdso_relative_name (fs : files) (fname : string) :
  can_open fs fname = false ->
  deref fname <> "/"%char ->
  fst (getdso_on fs fname) = fst (getdso_on fs "/proc/self/exe").
Proof.
  intros Hopen Hrel. unfold getdso_on. rewrite Hopen.
  apply Ascii.eqb_neq in Hrel. rewrite Hrel.
  change (deref "/proc/self/exe") with "/"%char. rewrite Ascii.eqb_refl.
  destruct (can_open fs "/proc/self/exe"); [|reflexivity].
  destruct (can_fstat fs "/proc/self/exe"); cbn [negb]; [|reflexivity].
  destruct (mapping fs "/proc/self/exe") as [file|]; [|reflexivity].
  destruct (getelf file); reflexivity.
Qed.

Lemma getdso_relative_name_witness :
  let fs := mkFiles (fun path => String.eqb path "/proc/self/exe")
                    (fun _ => true) (fun _ => Some small_elf) in
  can_open fs "prog" = false
  /\ deref "prog" <> "/"%char
  /\ fst (getdso_on fs "prog") = Some (small_strtab, small_symtab)
  /\ fst (getdso_on fs "prog") = fst (getdso_on fs "/proc/self/exe").
Proof.
  split; [reflexivity|]. split; [discriminate|].
  split; [vm_compute; reflexivity|].
  apply (getdso_relative_name
           (mkFiles (fun path => String.eqb path "/proc/self/exe")
                    (fun _ => true) (fun _ => Some small_elf)) "prog").
  - reflexivity.
  - discriminate.
Defined.

(** ** The report decisions *)

Lemma strrchr_basename (fname : string) :
  match strrchr fname "/" with
  | None => fname
  | Some base => advance base
  end = basename fname.
Proof.
  unfold basename.
  enough (H : match strrchr fname "/" with
              | None => after_last_slash fname = None
              | Some base => after_last_slash fname = Some (advance base)
              end).
  { destruct (strrchr fname "/"); now rewrite H. }
  induction fname as [|c s IH]; cbn [strrchr after_last_slash].
  - reflexivity.
  - destruct (strrchr s "/") as [base|].
    + now rewrite IH.
    + rewrite IH. destruct (Ascii.eqb c "/"); reflexivity.
Qed.

Lemma report_dso_basename (w : world) (fname : string) (t : tracer) :
  fst (report_dso w fname t) = None
  \/ fst (report_dso w fname t) = Some (basename fname).
Proof.
  unfold report_dso. rewrite strrchr_basename.
  set (t1 := report_dso_read w t).
  destruct (negb _); [|now right].
  destruct (match_words_result
              (report_dso_statics.flist (dso_statics t1)) fname) as [H | H];
    rewrite H.
  - destruct (report_dso_statics.is_whitelist _); [now left | now right].
  - destruct (report_dso_statics.is_whitelist _); [now right | now left].
Qed.

Lemma report_dso_state (w : world) (fname : string) (t : tracer) :
  snd (report_dso w fname t) = report_dso_read w t.
Proof.
  unfold report_dso. destruct (negb _); [|reflexivity].
  destruct (match_words _ _);
    destruct (report_dso_statics.is_whitelist _); reflexivity.
Qed.

Lemma report_dso_read_settled (w : world) (t : tracer) :
  negb (report_dso_statics.report_all (dso_statics (report_dso_read w t)))
  && match report_dso_statics.flist (dso_statics (report_dso_read w t)) with
     | [] => true
     | _ => false
     end = false.
Proof.
  unfold report_dso_read.
  destruct (negb (report_dso_statics.report_all (dso_statics t))
            && match report_dso_statics.flist (dso_statics t) with
               | [] => true
               | _ => false
               end) eqn:E; [|exact E].
  destruct (getenv_mkwords w "TRACY_INLIBS" t) as [[|x l] t1] eqn:E1.
  - destruct (getenv_mkwords w "TRACY_EXLIBS" t1) as [[|y l2] t2] eqn:E2.
    + reflexivity.
    + unfold getenv_mkwords in E2.
      destruct (getenv w "TRACY_EXLIBS") as [env|].
      * destruct (mkwords env (sys t1)) as [l' s']. injection E2 as -> <-.
        cbn. apply andb_false_r.
      * injection E2 as E2 <-. cbn. rewrite E2. apply andb_false_r.
  - unfold getenv_mkwords in E1.
    destruct (getenv w "TRACY_INLIBS") as [env|].
    + destruct (mkwords env (sys t)) as [l' s']. injection E1 as -> <-.
      cbn. apply andb_false_r.
    + injection E1 as E1 <-. cbn. rewrite E1. apply andb_false_r.
Qed.

Lemma report_dso_read_once (w w' : world) (t : tracer) :
  report_dso_read w' (report_dso_read w t) = report_dso_read w t.
Proof.
  unfold report_dso_read at 1. now rewrite report_dso_read_settled.
Qed.

Lemma report_dso_after_read (w w' : world) (fname : string) (t : tracer) :
  report_dso w' fname (report_dso_read w t)
  = (fst (report_dso w fname t), report_dso_read w t).
Proof.
  rewrite (surjective_pairing (report_dso w' fname (report_dso_read w t))).
  rewrite report_dso_state, report_dso_read_once. f_equal.
  unfold report_dso. rewrite report_dso_read_once.
  destruct (negb _); [|reflexivity].
  destruct (match_words _ _);
    destruct (report_dso_statics.is_whitelist _); reflexivity.
Qed.

(** X15.  report_dso() reads the environment once.  Whatever the state it
    is first called in, every later call answers as that first call would
    have answered for the same file, whatever the environment has become
    since, and changes nothing: no allocation, no diagnostic. *)
Theorem report_dso_reads_once (w w' : world) (fname fname' : string)
    (t : tracer) :
  report_dso w' fname' (snd (report_dso w fname t))
  = (fst (report_dso w fname' t), snd (report_dso w fname t)).
Proof.
  rewrite report_dso_state. apply report_dso_after_read.
Qed.

(** X16.  The name report_dso() returns is the basename of the file, the
    part behind its last slash, whichever branch returns it (the word
    list's match or strrchr()), and the directories of the path have no
    part in the decision. *)
Theorem report_dso_names_the_basename (w : world) (dir path : string)
    (t : tracer) :
  (fst (report_dso w path t) = None
   \/ fst (report_dso w path t) = Some (basename path))
  /\ fst (report_dso w (dir ++ String "/" path) t)
     = fst (report_dso w path t).
Proof.
  split; [apply report_dso_basename|].
  unfold report_dso. rewrite !strrchr_basename.
  rewrite basename_under_directory.
  rewrite (match_words_under_directory
             (report_dso_statics.flist (dso_statics (report_dso_read w t)))
             dir path).
  destruct (negb _); [|reflexivity].
  destruct (match_words _ path);
    destruct (report_dso_statics.is_whitelist _); reflexivity.
Qed.

Lemma report_function_state (w : world) (funame : option string)
    (t : tracer) :
  snd (report_function w funame t) = report_function_read w t.
Proof.
  unfold report_function.
  destruct (report_function_statics.report_all _); [reflexivity|].
  destruct funame; [|reflexivity].
  destruct (report_function_statics.pattern _); [|reflexivity].
  destruct (eglob_matches _ _); reflexivity.
Qed.

Lemma report_function_read_settled (w : world) (t : tracer) :
  negb (report_function_statics.report_all
          (fun_statics (report_function_read w t)))
  && match report_function_statics.pattern
             (fun_statics (report_function_read w t)) with
     | None => true
     | Some _ => false
     end = false.
Proof.
  unfold report_function_read.
  destruct (negb (report_function_statics.report_all (fun_statics t))
            && match report_function_statics.pattern (fun_statics t) with
               | None => true
               | Some _ => false
               end) eqn:E; [|exact E].
  unfold getenv_pattern.
  destruct (getenv w "TRACY_INFUNS") as [[|c p]|]; cbn;
    try apply andb_false_r;
    destruct (getenv w "TRACY_EXFUNS") as [[|c' p']|]; cbn;
    try apply andb_false_r; reflexivity.
Qed.

Lemma report_function_read_once (w w' : world) (t : tracer) :
  report_function_read w' (report_function_read w t)
  = report_function_read w t.
Proof.
  unfold report_function_read at 1.
  now rewrite report_function_read_settled.
Qed.

Lemma report_function_after_read (w w' : world) (funame : option string)
    (t : tracer) :
  report_function w' funame (report_function_read w t)
  = (fst (report_function w funame t), report_function_read w t).
Proof.
  rewrite (surjective_pairing
             (report_function w' funame (report_function_read w t))).
  rewrite report_function_state, report_function_read_once. f_equal.
  unfold report_function. rewrite report_function_read_once.
  destruct (report_function_statics.report_all _); [reflexivity|].
  destruct funame; [|reflexivity].
  destruct (report_function_statics.pattern _); [|reflexivity].
  destruct (eglob_matches _ _); reflexivity.
Qed.

(** X17.  report_function() reads the environment once.  Every call after
    the first answers as the first call would have answered for the same
    name, whatever the environment has become, and leaves the state as it
    is. *)
Theorem report_function_reads_once (w w' : world)
    (funame funame' : option string) (t : tracer) :
  report_function w' funame' (snd (report_function w funame t))
  = (fst (report_function w funame' t), snd (report_function w funame t)).
Proof.
  rewrite report_function_state. apply report_function_after_read.
Qed.

Lemma report_function_fresh (w : world) (funame : option string)
    (t : tracer) :
  fun_statics t = report_function_statics.init ->
  fst (report_function w funame t) = function_reported w funame.
Proof.
  intros Hinit. unfold report_function, report_function_read.
  rewrite Hinit. cbn [report_function_statics.report_all
    report_function_statics.pattern report_function_statics.init negb andb].
  unfold getenv_pattern, function_reported. rewrite Hinit.
  destruct (getenv w "TRACY_INFUNS") as [[|c p]|];
    destruct (getenv w "TRACY_EXFUNS") as [[|c' p']|]; cbn;
    destruct funame as [name|]; cbn; try reflexivity;
    destruct (eglob_matches _ _); reflexivity.
Qed.

(** X18.  What report_function() decides when it has not read the
    environment yet: a non-empty $TRACY_INFUNS is a whitelist and makes
    $TRACY_EXFUNS irrelevant; an empty one counts as unset; a function
    whose name is unknown fails every whitelist and passes every
    blacklist; with neither variable every function is reported. *)
Theorem report_function_decision (w : world) (funame : option string)
    (t : tracer) :
  fun_statics t = report_function_statics.init ->
  fst (report_function w funame t) = function_reported w funame
  /\ (forall c p, getenv w "TRACY_INFUNS" = Some (String c p) ->
      fst (report_function w funame t)
      = match funame with
        | Some name => eglob_matches (String c p) name
        | None => false
        end)
  /\ (getenv w "TRACY_INFUNS" = Some "" ->
      forall c p, getenv w "TRACY_EXFUNS" = Some (String c p) ->
      fst (report_function w funame t)
      = match funame with
        | Some name => negb (eglob_matches (String c p) name)
        | None => true
        end).
Proof.
  intros Hinit. rewrite (report_function_fresh w funame t Hinit).
  unfold function_reported. split; [reflexivity|]. split.
  - intros c p ->. reflexivity.
  - intros -> c p ->. reflexivity.
Qed.

Lemma report_function_decision_witness :
  let w := prog [("TRACY_INFUNS", "foo*"); ("TRACY_EXFUNS", "foobar")] in
  fst (report_function w (Some "foobar") (loaded (mkIo [] []))) = true
  /\ fst (report_function w None (loaded (mkIo [] []))) = false.
Proof.
  pose proof (report_function_decision
                (prog [("TRACY_INFUNS", "foo*"); ("TRACY_EXFUNS", "foobar")])
                (Some "foobar") (loaded (mkIo [] [])) eq_refl) as [H1 _].
  pose proof (report_function_decision
                (prog [("TRACY_INFUNS", "foo*"); ("TRACY_EXFUNS", "foobar")])
                None (loaded (mkIo [] [])) eq_refl) as [H2 _].
  split; [exact H1 | exact H2].
Defined.

Lemma mkwords_loop_mallocs (str : string) :
  forall (word : word_st.t) (s : io),
    exists used,
      mallocs s = (used ++ mallocs (snd (mkwords_loop word str s)))%list.
Proof.
  induction str as [|c str IH]; intros word s; cbn [mkwords_loop].
  - now exists [].
  - destruct (negb (Ascii.eqb c ":")); [apply IH|].
    unfold malloc. destruct (mallocs s) as [|[|] ms] eqn:Em.
    + destruct (IH (word_st.mk 0 0 str) s) as [used Hused].
      destruct (mkwords_loop (word_st.mk 0 0 str) str s) as [rest s2].
      cbn [snd] in *. exists used. now rewrite <- Hused.
    + destruct (IH (word_st.mk 0 0 str) (mkIo ms (output s)))
        as [used Hused].
      destruct (mkwords_loop (word_st.mk 0 0 str) str (mkIo ms (output s)))
        as [rest s2].
      cbn [snd mallocs] in *. exists (true :: used). cbn [app].
      f_equal. exact Hused.
    + exists [false]. reflexivity.
Qed.

Lemma mkwords_enough_memory (str : string) (s : io) :
  enough_memory s -> enough_memory (snd (mkwords str s)).
Proof.
  unfold enough_memory. intros H.
  assert (Hsuf : exists used,
            mallocs s = (used ++ mallocs (snd (mkwords str s)))%list).
  { unfold mkwords. destruct str as [|c str]; [now exists []|].
    unfold malloc. destruct (mallocs s) as [|[|] ms] eqn:Em.
    - destruct (mkwords_loop_mallocs (String c str)
                  (word_st.mk 0 0 (String c str)) s) as [used Hused].
      exists used. now rewrite <- Hused.
    - destruct (mkwords_loop_mallocs (String c str)
                  (word_st.mk 0 0 (String c str)) (mkIo ms (output s)))
        as [used Hused].
      exists (true :: used). cbn [mallocs] in Hused. cbn [app].
      f_equal. exact Hused.
    - exists [false]. reflexivity. }
  destruct Hsuf as [used Hused]. rewrite Hused in H.
  apply Forall_app in H. apply H.
Qed.

Lemma mkwords_enough_not_null (c : ascii) (str : string) (s : io) :
  enough_memory s -> fst (mkwords (String c str) s) <> [].
Proof.
  intros H. destruct (mkwords_spec (String c str) s) as [HF _].
  rewrite (built_segments_enough _ H) in HF.
  destruct (split_colons_cons (String c str)) as [seg [more Hs]].
  change (colon_segments (String c str)) with (split_colons (String c str))
    in HF.
  rewrite Hs in HF. intros Hnil. rewrite Hnil in HF. inversion HF.
Qed.

Lemma report_dso_verdict (w : world) (fname : string) (t : tracer) :
  fst (report_dso w fname t)
  = dso_verdict (dso_statics (report_dso_read w t)) fname.
Proof.
  unfold report_dso, dso_verdict. rewrite strrchr_basename.
  destruct (negb _); [|reflexivity].
  destruct (match_words _ _);
    destruct (report_dso_statics.is_whitelist _); reflexivity.
Qed.

Lemma report_dso_read_fresh (w : world) (t : tracer) :
  dso_statics t = report_dso_statics.init ->
  enough_memory (sys t) ->
  dso_statics (report_dso_read w t)
  = match getenv w "TRACY_INLIBS" with
    | Some (String c s) =>
        report_dso_statics.mk false (fst (mkwords (String c s) (sys t))) true
    | _ =>
        match getenv w "TRACY_EXLIBS" with
        | Some (String c s) =>
            report_dso_statics.mk false (fst (mkwords (String c s) (sys t)))
                                  false
        | _ => report_dso_statics.mk true [] false
        end
    end.
Proof.
  intros Hinit Hmem. unfold report_dso_read. rewrite Hinit.
  cbn [report_dso_statics.report_all report_dso_statics.flist
       report_dso_statics.init negb andb].
  assert (Hex : forall t1,
            dso_statics t1 = report_dso_statics.init -> sys t1 = sys t ->
            dso_statics
              match getenv_mkwords w "TRACY_EXLIBS" t1 with
              | (_ :: _, t2) => set_dso_whitelist false t2
              | ([], t2) => set_dso_report_all t2
              end
            = match getenv w "TRACY_EXLIBS" with
              | Some (String c s) =>
                  report_dso_statics.mk false
                    (fst (mkwords (String c s) (sys t))) false
              | _ => report_dso_statics.mk true [] false
              end).
  { intros t1 Hinit1 Hsys. unfold getenv_mkwords. rewrite Hinit1, Hsys.
    destruct (getenv w "TRACY_EXLIBS") as [[|c s]|].
    - reflexivity.
    - pose proof (mkwords_enough_not_null c s (sys t) Hmem) as Hnn.
      destruct (mkwords (String c s) (sys t)) as [[|x l] s1];
        [now elim Hnn | reflexivity].
    - cbn. now rewrite Hinit1. }
  unfold getenv_mkwords at 1. rewrite Hinit.
  destruct (getenv w "TRACY_INLIBS") as [[|c s]|].
  - apply Hex; reflexivity.
  - pose proof (mkwords_enough_not_null c s (sys t) Hmem) as Hnn.
    destruct (mkwords (String c s) (sys t)) as [[|x l] s1];
      [now elim Hnn | reflexivity].
  - apply Hex; [exact Hinit | reflexivity].
Qed.

Lemma report_dso_fresh (w : world) (fname : string) (t : tracer) :
  dso_statics t = report_dso_statics.init ->
  enough_memory (sys t) ->
  Z.of_nat (String.length fname) < 2 ^ 32 ->
  (forall name env, getenv w name = Some env ->
                    Z.of_nat (String.length env) < 2 ^ 32) ->
  fst (report_dso w fname t) = library_reported w fname.
Proof.
  intros Hinit Hmem Hfname Henv.
  assert (Hwords : forall env, getenv w "TRACY_INLIBS" = Some env
                               \/ getenv w "TRACY_EXLIBS" = Some env ->
            match_words (fst (mkwords env (sys t))) fname
            = if existsb (String.eqb (basename fname)) (colon_segments env)
              then Some (basename fname) else None).
  { intros env Hset.
    assert (Hlen : Z.of_nat (String.length env) < 2 ^ 32)
      by (destruct Hset as [H | H]; exact (Henv _ _ H)).
    rewrite (match_words_mkwords env fname (sys t) Hlen Hfname).
    now rewrite (built_segments_enough _ Hmem). }
  rewrite report_dso_verdict, (report_dso_read_fresh w t Hinit Hmem).
  unfold library_reported, dso_verdict.
  destruct (getenv w "TRACY_INLIBS") as [[|c s]|];
    try (cbn [report_dso_statics.report_all report_dso_statics.flist
              report_dso_statics.is_whitelist negb];
         rewrite (Hwords _ (or_introl eq_refl));
         destruct (existsb _ _); reflexivity);
    destruct (getenv w "TRACY_EXLIBS") as [[|c' s']|];
    try reflexivity;
    cbn [report_dso_statics.report_all report_dso_statics.flist
         report_dso_statics.is_whitelist negb];
    rewrite (Hwords _ (or_intror eq_refl));
    destruct (existsb _ _); reflexivity.
Qed.

(** X19.  What report_dso() decides when it has not read the environment
    yet and memory suffices: a non-empty $TRACY_INLIBS lists the basenames
    to report and makes $TRACY_EXLIBS irrelevant; otherwise a non-empty
    $TRACY_EXLIBS lists the basenames not to report; otherwise every file
    is reported.  The strings fit the 32-bit address space. *)
Theorem report_dso_decision (w : world) (fname : string) (t : tracer) :
  dso_statics t = report_dso_statics.init ->
  enough_memory (sys t) ->
  Z.of_nat (String.length fname) < 2 ^ 32 ->
  (forall name env, getenv w name = Some env ->
                    Z.of_nat (String.length env) < 2 ^ 32) ->
  fst (report_dso w fname t) = library_reported w fname
  /\ (forall c s, getenv w "TRACY_INLIBS" = Some (String c s) ->
      (In (basename fname) (colon_segments (String c s)) ->
       fst (report_dso w fname t) = Some (basename fname))
      /\ (~ In (basename fname) (colon_segments (String c s)) ->
          fst (report_dso w fname t) = None)).
Proof.
  intros Hinit Hmem Hfname Henv.
  rewrite (report_dso_fresh w fname t Hinit Hmem Hfname Henv).
  split; [reflexivity|]. intros c s Hin. unfold library_reported.
  rewrite Hin. split.
  - intros H. apply existsb_eqb_In in H. now rewrite H.
  - intros H. destruct (existsb _ _) eqn:E; [|reflexivity].
    apply existsb_eqb_In in E. contradiction.
Qed.

Lemma report_dso_decision_witness :
  fst (report_dso (prog [("TRACY_INLIBS", "libm.so:libc.so")])
                  "/usr/lib/libc.so" (loaded (mkIo [] [])))
  = Some "libc.so".
Proof.
  refine (proj1 (report_dso_decision
                   (prog [("TRACY_INLIBS", "libm.so:libc.so")])
                   "/usr/lib/libc.so" (loaded (mkIo [] [])) _ _ _ _)).
  - reflexivity.
  - constructor.
  - reflexivity.
  - intros name env. unfold prog, environment. cbn [getenv find fst snd].
    destruct (String.eqb "TRACY_INLIBS" name); [|discriminate].
    intros [= <-]. reflexivity.
Defined.

(** ** addr2name: the return code and the cache *)

Lemma report_function_seen (w : world) (funame : option string)
    (t : tracer) :
  seen (snd (report_function w funame t)) = seen t
  /\ dso_statics (snd (report_function w funame t)) = dso_statics t.
Proof.
  rewrite report_function_state. unfold report_function_read.
  destruct (negb _ && _); [|split; reflexivity].
  unfold getenv_pattern.
  destruct (getenv w "TRACY_INFUNS") as [[|c p]|];
    destruct (getenv w "TRACY_EXFUNS") as [[|c' p']|]; split; reflexivity.
Qed.

Lemma report_dso_seen (w : world) (fname : string) (t : tracer) :
  seen (snd (report_dso w fname t)) = seen t
  /\ fun_statics (snd (report_dso w fname t)) = fun_statics t.
Proof.
  rewrite report_dso_state. unfold report_dso_read.
  destruct (negb _ && _); [|split; reflexivity].
  assert (H : forall name t0,
            seen (snd (getenv_mkwords w name t0)) = seen t0
            /\ fun_statics (snd (getenv_mkwords w name t0)) = fun_statics t0).
  { intros name t0. unfold getenv_mkwords.
    destruct (getenv w name) as [env|]; [|split; reflexivity].
    destruct (mkwords env (sys t0)); split; reflexivity. }
  pose proof (H "TRACY_INLIBS" t) as [H1 H1'].
  destruct (getenv_mkwords w "TRACY_INLIBS" t) as [[|x l] t1];
    cbn [snd] in H1, H1'.
  - pose proof (H "TRACY_EXLIBS" t1) as [H2 H2'].
    destruct (getenv_mkwords w "TRACY_EXLIBS" t1) as [[|y l2] t2];
      cbn [snd] in H2, H2'; split; cbn; congruence.
  - split; cbn; congruence.
Qed.

Lemma report_function_output (w : world) (funame : option string)
    (t : tracer) (l : line) :
  In l (output (sys t)) ->
  In l (output (sys (snd (report_function w funame t)))).
Proof.
  rewrite report_function_state. unfold report_function_read.
  destruct (negb _ && _); [|auto].
  unfold getenv_pattern.
  destruct (getenv w "TRACY_INFUNS") as [[|c p]|];
    destruct (getenv w "TRACY_EXFUNS") as [[|c' p']|]; auto.
Qed.

Lemma report_function_killed (w : world) (funame : option string)
    (t : tracer) :
  killed (snd (report_function w funame t)) = killed t.
Proof.
  rewrite report_function_state. unfold report_function_read.
  destruct (negb _ && _); [|reflexivity].
  unfold getenv_pattern.
  destruct (getenv w "TRACY_INFUNS") as [[|c p]|];
    destruct (getenv w "TRACY_EXFUNS") as [[|c' p']|]; reflexivity.
Qed.

Lemma report_dso_killed (w : world) (fname : string) (t : tracer) :
  killed (snd (report_dso w fname t)) = killed t.
Proof.
  rewrite report_dso_state. unfold report_dso_read.
  destruct (negb _ && _); [|reflexivity].
  assert (H : forall name t0,
            killed (snd (getenv_mkwords w name t0)) = killed t0).
  { intros name t0. unfold getenv_mkwords.
    destruct (getenv w name) as [env|]; [|reflexivity].
    destruct (mkwords env (sys t0)); reflexivity. }
  pose proof (H "TRACY_INLIBS" t) as H1.
  destruct (getenv_mkwords w "TRACY_INLIBS" t) as [[|x l] t1];
    cbn [snd] in H1.
  - pose proof (H "TRACY_EXLIBS" t1) as H2.
    destruct (getenv_mkwords w "TRACY_EXLIBS" t1) as [[|y l2] t2];
      cbn [snd] in H2; cbn; congruence.
  - cbn; congruence.
Qed.

Lemma report_function_read_seen (w : world) (t : tracer) :
  seen (report_function_read w t) = seen t
  /\ sys (report_function_read w t) = sys t
  /\ killed (report_function_read w t) = killed t.
Proof.
  unfold report_function_read.
  destruct (negb _ && _); [|repeat split].
  unfold getenv_pattern.
  destruct (getenv w "TRACY_INFUNS") as [[|c p]|];
    destruct (getenv w "TRACY_EXFUNS") as [[|c' p']|]; repeat split.
Qed.

Lemma report_function_read_ext (w : world) (t1 t2 : tracer) :
  fun_statics t1 = fun_statics t2 ->
  fun_statics (report_function_read w t1)
  = fun_statics (report_function_read w t2).
Proof.
  intros H. unfold report_function_read, getenv_pattern. rewrite H.
  destruct (negb _ && _); [|exact H].
  destruct (getenv w "TRACY_INFUNS") as [[|c p]|];
    destruct (getenv w "TRACY_EXFUNS") as [[|c' p']|]; cbn;
    rewrite ?H; reflexivity.
Qed.

(** The last step of every path through addr2name(): the function filter,
    and the code made of its answer. *)
Lemma addr2name_finish (w : world) (v : bool -> Z) (f : option string)
    (x : string) (y : option string) (t0 : tracer) :
  (let (r, t') := report_function w f t0 in ((v r, x, y), t'))
  = ((v (fst (report_function w f t0)), x, y),
     snd (report_function w f t0)).
Proof. destruct (report_function w f t0); reflexivity. Qed.

Lemma addr2name_code (b : bool) (funame : option string) :
  let r := if b then match funame with Some _ => 1 | None => 0 end
           else -1 in
  (r = -1 \/ r = 0 \/ r = 1)
  /\ (r = 0 -> funame = None)
  /\ (r = 1 -> exists name, funame = Some name).
Proof.
  destruct b, funame as [name|]; cbn; repeat split; auto;
    try discriminate; intros _; now exists name.
Qed.

(** X20.  The code addr2name() returns and the name it hands out: the code
    is -1, 0 or 1; with 0 no name was found; with 1 a name was found, and
    it can be read except on one path: the file is not in the cache, its
    tables give a name for the address, and malloc() fails for the cache
    entry, so that the file is unmapped again with the name in it.  Only
    on that path can addr2name() get the process killed. *)
Theorem addr2name_return_code (w : world) (addr : Z) (t : tracer) :
  let r := fst (fst (fst (addr2name w addr t))) in
  let funame := snd (fst (addr2name w addr t)) in
  (r = -1 \/ r = 0 \/ r = 1)
  /\ (r = 0 -> funame = None)
  /\ (r = 1 -> (exists name, funame = Some name) \/ name_unmapped w addr t)
  /\ (killed (snd (addr2name w addr t)) = killed t
      \/ name_unmapped w addr t).
Proof.
  cbv zeta.
  assert (Hok : forall (b : bool) (funame : option string) (x : string)
                       (t0 : tracer),
            killed t0 = killed t ->
            let res := ((if b then match funame with
                                   | Some _ => 1
                                   | None => 0
                                   end
                         else -1, x, funame), t0) in
            (fst (fst (fst res)) = -1 \/ fst (fst (fst res)) = 0
             \/ fst (fst (fst res)) = 1)
            /\ (fst (fst (fst res)) = 0 -> snd (fst res) = None)
            /\ (fst (fst (fst res)) = 1 ->
                (exists name, snd (fst res) = Some name)
                \/ name_unmapped w addr t)
            /\ (killed (snd res) = killed t \/ name_unmapped w addr t)).
  { intros b funame x t0 Hk. cbn [fst snd].
    destruct (addr2name_code b funame) as (H1 & H2 & H3).
    split; [exact H1|]. split; [exact H2|].
    split; [intros H; left; exact (H3 H) | left; exact Hk]. }
  unfold addr2name.
  destruct (dladdr w addr) as [info|] eqn:Einfo.
  2:{ rewrite addr2name_finish.
      apply (Hok (fst (report_function w None t)) None).
      apply report_function_killed. }
  destruct (dli_fname info) as [[fname_ptr fname_text]|] eqn:Efname.
  2:{ rewrite addr2name_finish.
      apply (Hok (fst (report_function w None t)) None).
      apply report_function_killed. }
  pose proof (report_dso_killed w fname_text t) as Hk1.
  pose proof (report_dso_seen w fname_text t) as [Hs1 _].
  destruct (report_dso w fname_text t) as [[fname|] t1] eqn:Edso;
    cbn [snd] in Hk1, Hs1.
  2:{ exact (Hok false None "[???]" t1 Hk1). }
  assert (Hfin : forall t0, killed t0 = killed t ->
                   forall f, killed (snd (report_function w f t0))
                             = killed t)
    by (intros t0 H0 f; now rewrite report_function_killed).
  destruct (dli_sname info) as [sname|] eqn:Esname.
  { rewrite addr2name_finish.
    apply (Hok (fst (report_function w (Some sname) t1)) (Some sname)).
    now apply Hfin. }
  destruct (find_seen fname_ptr (seen t1)) as [dso|] eqn:Efind.
  { rewrite addr2name_finish. apply Hok. now apply Hfin. }
  destruct (getdso w fname_text) as [[strs syms]|] eqn:Etab.
  2:{ rewrite addr2name_finish.
      apply (Hok (fst (report_function w None t1)) None). now apply Hfin. }
  destruct (malloc (sys t1)) as [[|] s] eqn:Emalloc.
  { rewrite addr2name_finish. apply Hok. now apply Hfin. }
  destruct (option_map cstring _) as [name|] eqn:Ename.
  2:{ rewrite addr2name_finish.
      apply (Hok (fst (report_function w None _)) None). now apply Hfin. }
  assert (Hun : name_unmapped w addr t).
  { exists info, fname_ptr, fname_text, strs, syms.
    rewrite Edso. cbn [fst snd]. rewrite Emalloc, <- Hs1. cbn [fst].
    repeat split; try assumption; try discriminate.
    intros Hnone. rewrite Hnone in Ename. discriminate. }
  cbn [fst snd]. split; [now right; right|]. split; [discriminate|].
  split; [intros _; now right | now right].
Qed.

(** X21.  When the loader knows the file and the name of the function,
    addr2name() uses that name: the code is 1 with the loader's name, or
    -1 when a filter excludes it, never 0; no symbol table is looked at,
    so the outcome does not depend on the file on the disk and nothing is
    added to the cache. *)
Theorem addr2name_loader_name (w : world) (addr : Z) (t : tracer)
    (info : Dl_info) (fname : Z * string) (sname : string)
    (disk : string -> option (list ascii * list Elf32_Sym)) :
  dladdr w addr = Some info ->
  dli_fname info = Some fname ->
  dli_sname info = Some sname ->
  let res := addr2name w addr t in
  seen (snd res) = seen t
  /\ ((fst (fst (fst res)) = 1 /\ snd (fst res) = Some sname)
      \/ fst (fst (fst res)) = -1)
  /\ addr2name (mkWorld (getenv w) (dladdr w) disk (mkstemp w) (ARMEL w))
               addr t = res.
Proof.
  intros Hinfo Hfname Hsname. cbv zeta.
  assert (Hrf : forall f t0,
            report_function
              (mkWorld (getenv w) (dladdr w) disk (mkstemp w) (ARMEL w)) f t0
            = report_function w f t0) by reflexivity.
  assert (Hrd : forall f t0,
            report_dso
              (mkWorld (getenv w) (dladdr w) disk (mkstemp w) (ARMEL w)) f t0
            = report_dso w f t0) by reflexivity.
  unfold addr2name. cbn [dladdr]. rewrite Hinfo, Hfname.
  destruct fname as [fname_ptr fname_text]. rewrite Hrd.
  pose proof (report_dso_seen w fname_text t) as [Hs1 _].
  destruct (report_dso w fname_text t) as [[fname|] t1]; cbn [snd] in Hs1.
  2:{ cbn [fst snd]. split; [exact Hs1|]. split; [now right | reflexivity]. }
  rewrite Hsname, Hrf, addr2name_finish. cbn [fst snd].
  pose proof (report_function_seen w (Some sname) t1) as [Hs _].
  split; [congruence|]. split; [|reflexivity].
  destruct (fst (report_function w (Some sname) t1));
    [left; split; reflexivity | now right].
Qed.

Lemma addr2name_loader_name_witness :
  let w := prog [("TRACY_EXFUNS", "bar")] in
  let res := addr2name w 2004 (loaded (mkIo [] [])) in
  fst res = (1, "prog", Some "foo")
  /\ seen (snd res) = []
  /\ ((fst (fst (fst res)) = 1 /\ snd (fst res) = Some "foo")
      \/ fst (fst (fst res)) = -1)
  /\ addr2name (mkWorld (getenv w) (dladdr w) (fun _ => Some ([], []))
                        (mkstemp w) (ARMEL w))
               2004 (loaded (mkIo [] [])) = res.
Proof.
  split; [vm_compute; reflexivity|].
  apply (addr2name_loader_name (prog [("TRACY_EXFUNS", "bar")]) 2004
           (loaded (mkIo [] []))
           (mkDlInfo (Some (1, "/bin/prog")) 0 (Some "foo") 2000)
           (1, "/bin/prog") "foo" (fun _ => Some ([], []))).
  - reflexivity.
  - reflexivity.
  - reflexivity.
Defined.

(** X22.  The cache of addr2name() only grows, by at most one entry a
    call, and only by the tables of the file of the address, when that
    file is not in the cache yet, the loader gave no symbol name and the
    file could be opened: a file whose tables cannot be had is not
    remembered, and no file is entered twice. *)
Theorem addr2name_cache_grows (w : world) (addr : Z) (t : tracer) :
  seen (snd (addr2name w addr t)) = seen t
  \/ exists info fname_ptr fname_text strs syms,
       dladdr w addr = Some info
       /\ dli_fname info = Some (fname_ptr, fname_text)
       /\ dli_sname info = None
       /\ find_seen fname_ptr (seen t) = None
       /\ getdso w fname_text = Some (strs, syms)
       /\ seen (snd (addr2name w addr t))
          = mkDso fname_ptr strs syms :: seen t.
Proof.
  unfold addr2name.
  destruct (dladdr w addr) as [info|] eqn:Einfo.
  2:{ left. rewrite addr2name_finish. apply report_function_seen. }
  destruct (dli_fname info) as [[fname_ptr fname_text]|] eqn:Efname.
  2:{ left. rewrite addr2name_finish. apply report_function_seen. }
  pose proof (report_dso_seen w fname_text t) as [Hs1 _].
  destruct (report_dso w fname_text t) as [[fname|] t1]; cbn [snd] in Hs1.
  2:{ left. exact Hs1. }
  destruct (dli_sname info) as [sname|] eqn:Esname.
  { left. rewrite addr2name_finish. cbn [snd].
    rewrite (proj1 (report_function_seen w _ t1)). exact Hs1. }
  destruct (find_seen fname_ptr (seen t1)) as [dso|] eqn:Efind.
  { left. rewrite addr2name_finish. cbn [snd].
    rewrite (proj1 (report_function_seen w _ t1)). exact Hs1. }
  destruct (getdso w fname_text) as [[strs syms]|] eqn:Edso.
  - destruct (malloc (sys t1)) as [[|] s].
    + rewrite addr2name_finish. cbn [snd].
      rewrite (proj1 (report_function_seen w _ _)).
      right. exists info, fname_ptr, fname_text, strs, syms.
      rewrite <- Hs1. repeat split; try reflexivity; assumption.
    + left. destruct (option_map cstring _) as [name|].
      * cbn [snd].
        destruct (report_function_read_seen w
                    (log DiagMalloc (set_sys s t1))) as (Hs2 & _ & _).
        destruct (report_function_statics.report_all _);
          cbn [seen set_killed]; rewrite Hs2; exact Hs1.
      * rewrite addr2name_finish. cbn [snd].
        rewrite (proj1 (report_function_seen w _ _)). exact Hs1.
  - left. rewrite addr2name_finish. cbn [snd].
    rewrite (proj1 (report_function_seen w _ t1)). exact Hs1.
Qed.

(** X23.  A file that is in the cache is not opened again: the name comes
    from the cached tables, whatever has become of the file on the disk,
    and the cache stays as it is. *)
Theorem addr2name_cache_hit (w : world) (addr : Z) (t : tracer)
    (info : Dl_info) (fname_ptr : Z) (fname_text : string) (dso : dso_st)
    (disk : string -> option (list ascii * list Elf32_Sym)) :
  dladdr w addr = Some info ->
  dli_fname info = Some (fname_ptr, fname_text) ->
  dli_sname info = None ->
  find_seen fname_ptr (seen t) = Some dso ->
  let res := addr2name w addr t in
  seen (snd res) = seen t
  /\ (fst (fst (fst res)) = -1
      \/ snd (fst res)
         = option_map cstring
             (getsym dso (dli_fbase info)
                     (if negb (dli_saddr info =? 0) then dli_saddr info
                      else addr)))
  /\ addr2name (mkWorld (getenv w) (dladdr w) disk (mkstemp w) (ARMEL w))
               addr t = res.
Proof.
  intros Hinfo Hfname Hsname Hfind. cbv zeta.
  assert (Hrf : forall f t0,
            report_function
              (mkWorld (getenv w) (dladdr w) disk (mkstemp w) (ARMEL w)) f t0
            = report_function w f t0) by reflexivity.
  assert (Hrd : forall f t0,
            report_dso
              (mkWorld (getenv w) (dladdr w) disk (mkstemp w) (ARMEL w)) f t0
            = report_dso w f t0) by reflexivity.
  unfold addr2name. cbn [dladdr]. rewrite Hinfo, Hfname, Hrd.
  pose proof (report_dso_seen w fname_text t) as [Hs1 _].
  destruct (report_dso w fname_text t) as [[fname|] t1]; cbn [snd] in Hs1.
  2:{ cbn [fst snd]. split; [exact Hs1|]. split; [now left | reflexivity]. }
  rewrite Hsname, Hs1, Hfind, Hrf, addr2name_finish. cbn [fst snd].
  rewrite (proj1 (report_function_seen w _ t1)).
  split; [exact Hs1|]. split; [now right | reflexivity].
Qed.

Lemma addr2name_cache_hit_witness :
  let w := mkWorld (fun _ => None)
             (fun _ => Some (mkDlInfo (Some (1, "/bin/prog")) 0 None 0))
             (fun _ => None) (-1) false in
  let dso := mkDso 1 small_strtab small_symtab in
  let t := set_seen [dso] (loaded (mkIo [] [])) in
  let res := addr2name w 4100 t in
  fst res = (1, "prog", Some "main")
  /\ seen (snd res) = seen t
  /\ (fst (fst (fst res)) = -1
      \/ snd (fst res) = option_map cstring (getsym dso 0 4100))
  /\ addr2name (mkWorld (getenv w) (dladdr w) (fun _ => Some ([], []))
                        (mkstemp w) (ARMEL w)) 4100 t = res.
Proof.
  split; [vm_compute; reflexivity|].
  apply (addr2name_cache_hit
           (mkWorld (fun _ => None)
              (fun _ => Some (mkDlInfo (Some (1, "/bin/prog")) 0 None 0))
              (fun _ => None) (-1) false)
           4100 (set_seen [mkDso 1 small_strtab small_symtab]
                          (loaded (mkIo [] [])))
           (mkDlInfo (Some (1, "/bin/prog")) 0 None 0) 1 "/bin/prog"
           (mkDso 1 small_strtab small_symtab) (fun _ => Some ([], []))).
  - reflexivity.
  - reflexivity.
  - reflexivity.
  - reflexivity.
Defined.

(** X24.  A file that is not in the cache and passes the library filter
    is opened, and the address is looked up in the tables read from it.
    When malloc() gives memory the tables go to the head of the cache and
    the name found is handed out (unless the function filter rejects it).
    When malloc() fails a diagnostic is logged, nothing is cached and the
    file is unmapped again: if the tables had no name for the address the
    call ends as usual, with 0 or -1; if they had one, the pointer handed
    out is not null but dangles: the code is 1, the name cannot be read,
    and unless every function is reported the function filter reads it
    and the process is killed. *)
Theorem addr2name_cache_miss (w : world) (addr : Z) (t : tracer)
    (info : Dl_info) (fname_ptr : Z) (fname_text : string)
    (strs : list ascii) (syms : list Elf32_Sym) :
  dladdr w addr = Some info ->
  dli_fname info = Some (fname_ptr, fname_text) ->
  dli_sname info = None ->
  find_seen fname_ptr (seen t) = None ->
  getdso w fname_text = Some (strs, syms) ->
  fst (report_dso w fname_text t) <> None ->
  let res := addr2name w addr t in
  let r := fst (fst (fst res)) in
  let funame := snd (fst res) in
  let newdso := mkDso fname_ptr strs syms in
  let found :=
    option_map cstring
      (getsym newdso (dli_fbase info)
              (if negb (dli_saddr info =? 0) then dli_saddr info
               else addr)) in
  if fst (malloc (sys (snd (report_dso w fname_text t))))
  then seen (snd res) = newdso :: seen t
       /\ (r = -1 \/ funame = found)
       /\ killed (snd res) = killed t
  else seen (snd res) = seen t
       /\ In DiagMalloc (output (sys (snd res)))
       /\ match found with
          | None =>
              funame = None /\ (r = 0 \/ r = -1)
              /\ killed (snd res) = killed t
          | Some _ =>
              r = 1 /\ funame = None
              /\ killed (snd res)
                 = killed t
                   || negb (report_function_statics.report_all
                              (fun_statics (report_function_read w t)))
          end.
Proof.
  intros Hinfo Hfname Hsname Hfind Hdso Hlib. cbv zeta.
  unfold addr2name. rewrite Hinfo, Hfname.
  pose proof (report_dso_seen w fname_text t) as [Hs1 Hf1].
  pose proof (report_dso_killed w fname_text t) as Hk1.
  destruct (report_dso w fname_text t) as [[fname|] t1];
    cbn [fst snd] in Hs1, Hf1, Hk1, Hlib |- *; [|now elim Hlib].
  rewrite Hsname, Hs1, Hfind, Hdso.
  destruct (malloc (sys t1)) as [[|] s] eqn:Emalloc; cbn [fst].
  - rewrite addr2name_finish. cbn [fst snd].
    rewrite (proj1 (report_function_seen w _ _)), report_function_killed.
    split; [reflexivity|]. split; [now right | exact Hk1].
  - assert (Hdiag : In DiagMalloc
                      (output (sys (log DiagMalloc (set_sys s t1))))).
    { unfold log. cbn. apply in_or_app. right. now left. }
    destruct (option_map cstring _) as [name|].
    + cbn [fst snd].
      destruct (report_function_read_seen w
                  (log DiagMalloc (set_sys s t1))) as (Hs2 & Hy2 & Hk2).
      assert (Hread : fun_statics
                        (report_function_read w
                           (log DiagMalloc (set_sys s t1)))
                      = fun_statics (report_function_read w t)).
      { apply report_function_read_ext. exact Hf1. }
      rewrite <- Hread.
      destruct (report_function_statics.report_all _);
        cbn [seen sys killed set_killed negb]; rewrite ?Hs2, ?Hy2, ?Hk2.
      * split; [exact Hs1|]. split; [exact Hdiag|].
        split; [reflexivity|]. split; [reflexivity|].
        cbn [killed log set_sys]. now rewrite Hk1, orb_false_r.
      * split; [exact Hs1|]. split; [exact Hdiag|].
        split; [reflexivity|]. split; [reflexivity|].
        now rewrite orb_true_r.
    + rewrite addr2name_finish. cbn [fst snd].
      rewrite (proj1 (report_function_seen w _ _)), report_function_killed.
      split; [exact Hs1|].
      split; [now apply report_function_output|].
      split; [reflexivity|].
      split; [destruct (fst (report_function w None _)); auto | exact Hk1].
Qed.

Lemma addr2name_cache_miss_witness :
  let fs := mkFiles (fun path => String.eqb path "/bin/prog")
                    (fun _ => true) (fun _ => Some small_elf) in
  let w := world_on fs (environment [("TRACY_EXFUNS", "foo")])
             (fun _ => Some (mkDlInfo (Some (1, "/bin/prog")) 0 None 0))
             (-1) false in
  let t := loaded (mkIo [false] []) in
  let res := addr2name w 4100 t in
  fst res = (1, "prog", None)
  /\ seen (snd res) = []
  /\ In DiagMalloc (output (sys (snd res)))
  /\ fst (fst (fst res)) = 1 /\ snd (fst res) = None
  /\ killed (snd res) = true.
Proof.
  split; [vm_compute; reflexivity|].
  apply (addr2name_cache_miss
           (world_on
              (mkFiles (fun path => String.eqb path "/bin/prog")
                       (fun _ => true) (fun _ => Some small_elf))
              (environment [("TRACY_EXFUNS", "foo")])
              (fun _ => Some (mkDlInfo (Some (1, "/bin/prog")) 0 None 0))
              (-1) false)
           4100 (loaded (mkIo [false] []))
           (mkDlInfo (Some (1, "/bin/prog")) 0 None 0) 1 "/bin/prog"
           small_strtab small_symtab).
  - reflexivity.
  - reflexivity.
  - reflexivity.
  - reflexivity.
  - vm_compute; reflexivity.
  - vm_compute; discriminate.
Defined.

(** The same with memory for the cache entry: the name is read from the
    tables and the file stays mapped. *)
Example name_from_the_file :
  let fs := mkFiles (fun path => String.eqb path "/bin/prog")
                    (fun _ => true) (fun _ => Some small_elf) in
  let w := world_on fs (fun _ => None)
             (fun _ => Some (mkDlInfo (Some (1, "/bin/prog")) 0 None 0))
             (-1) false in
  let res := addr2name w 4100 (loaded (mkIo [] [])) in
  fst res = (1, "prog", Some "main")
  /\ seen (snd res) = [mkDso 1 small_strtab small_symtab]
  /\ killed (snd res) = false.
Proof. vm_compute. repeat split. Qed.

(** The hook on the path where the file is unmapped: the diagnostic is the
    only line logged, and the process is killed before the trace line is
    printed, even though every function is to be reported. *)
Example name_from_unmapped_file :
  let fs := mkFiles (fun path => String.eqb path "/bin/prog")
                    (fun _ => true) (fun _ => Some small_elf) in
  let w := world_on fs (fun _ => None)
             (fun _ => Some (mkDlInfo (Some (1, "/bin/prog")) 0 None 0))
             (-1) false in
  let t := __cyg_profile_func_enter w 0 0 [10; 20; 4100]
             (loaded (mkIo [false] [])) in
  output (sys t) = [DiagMalloc]
  /\ killed t = true
  /\ Callstack_depth t = 0
  /\ seen t = [].
Proof. vm_compute. repeat split. Qed.

(** ** One call of print_trace() *)

(** X25.  One call of print_trace() returns 0 or 1, changes neither the
    depth counter nor the tracing flag, and adds at most one line to the
    trace; a line it adds shows the depth counter as it is, and is
    followed by the return of 1: what is omitted (0) leaves no line. *)
Theorem print_trace_one_line (w : world) (addr : Z) (dir : string)
    (frames : list Z) (t : tracer) :
  let r := fst (print_trace w addr dir frames t) in
  let t' := snd (print_trace w addr dir frames t) in
  (r = 0 \/ r = 1)
  /\ Callstack_depth t' = Callstack_depth t
  /\ Tracing t' = Tracing t
  /\ (emitted t' = emitted t
      \/ exists l, emitted t' = (emitted t ++ [l])%list
                   /\ trace_depth l = Some (Callstack_depth t) /\ r = 1).
Proof.
  destruct (print_trace_emits w addr dir frames t) as (H1 & H2 & _ & H4 & H5).
  cbv zeta. auto.
Qed.

(** ** The depth limit *)

Lemma print_trace_below_limit (w : world) (addr : Z) (dir : string)
    (frames : list Z) (t : tracer) (limit : Z) :
  agrees w t -> env_depth_limit w = Some limit ->
  below_limit limit t ->
  below_limit limit (snd (print_trace w addr dir frames t)).
Proof.
  intros Hag Hlim Hbelow. unfold below_limit in *.
  destruct (limit_reached (read_maxdepth w t)) eqn:Hreached.
  - rewrite (print_trace_limit_reached w addr dir frames t Hreached).
    cbn [snd].
    destruct (read_maxdepth_quiet w t) as (_ & _ & _ & He). now rewrite He.
  - destruct (print_trace_emits w addr dir frames t)
      as (_ & _ & _ & _ & [He | (l & He & Hl & _)]).
    + now rewrite He.
    + rewrite He. apply Forall_app. split; [exact Hbelow|].
      constructor; [|constructor]. intros d Hd. rewrite Hl in Hd.
      injection Hd as <-.
      destruct (read_maxdepth_agrees w t Hag) as [_ H]. rewrite Hlim in H.
      destruct H as [H1 H2]. unfold limit_reached in Hreached.
      rewrite H1, H2, read_maxdepth_depth in Hreached.
      cbn [Z.eqb negb andb] in Hreached. now apply Z.leb_gt in Hreached.
Qed.

Lemma agrees_set_Tracing (w : world) (b : bool) (t : tracer) :
  agrees w t -> agrees w (set_Tracing b t).
Proof. apply agrees_ext; reflexivity. Qed.

Lemma step_agrees (w : world) (e : event) (t : tracer) :
  agrees w t -> agrees w (step w e t).
Proof.
  intros Hag. unfold step. destruct (killed t); [exact Hag|].
  destruct e as [self callsite frames|self callsite frames|n].
  - now apply enter_agrees.
  - now apply exit_agrees.
  - unfold deliver, toggle_tracing.
    destruct (existsb _ _); [now apply agrees_set_Tracing | exact Hag].
Qed.

Lemma step_below_limit (w : world) (e : event) (t : tracer) (limit : Z) :
  agrees w t -> env_depth_limit w = Some limit ->
  below_limit limit t -> below_limit limit (step w e t).
Proof.
  intros Hag Hlim Hbelow. unfold step. destruct (killed t); [exact Hbelow|].
  destruct e as [self callsite frames|self callsite frames|n].
  - unfold __cyg_profile_func_enter.
    destruct (negb (Tracing t)); [exact Hbelow|].
    pose proof (print_trace_below_limit w self "ENTER" frames t limit
                  Hag Hlim Hbelow) as H.
    destruct (print_trace w self "ENTER" frames t) as [r t'].
    cbn [snd] in H. destruct (negb (r =? 0)); exact H.
  - unfold __cyg_profile_func_exit.
    destruct (negb (Tracing t)); [exact Hbelow|].
    pose proof (print_trace_below_limit w self "LEAVE" frames
                  (set_Callstack_depth (wrap32 (Callstack_depth t - 1)) t)
                  limit (agrees_set_depth w t _ Hag) Hlim Hbelow) as H.
    destruct (print_trace w self "LEAVE" frames _) as [r t'].
    cbn [snd] in H. destruct (r =? 0); exact H.
  - unfold deliver, toggle_tracing.
    destruct (existsb _ _); exact Hbelow.
Qed.

(** X26.  The depth limit holds for the whole trace: with $TRACY_MAXDEPTH
    giving the limit L, no sequence of hook calls and signals makes the
    library emit a trace line at depth L or deeper, whatever the filters
    and the other settings are, and the statics of print_trace() keep
    agreeing with the environment. *)
Theorem trace_below_depth_limit (w : world) (events : list event)
    (t : tracer) (limit : Z) :
  agrees w t -> env_depth_limit w = Some limit ->
  below_limit limit t ->
  agrees w (run w events t) /\ below_limit limit (run w events t).
Proof.
  revert t. induction events as [|e events IH]; intros t Hag Hlim Hbelow.
  - split; assumption.
  - cbn [run]. apply IH; [now apply step_agrees | exact Hlim|].
    now apply step_below_limit.
Qed.

Lemma trace_below_depth_limit_witness :
  let w := prog [("TRACY_MAXDEPTH", "2")] in
  let events := [ev_enter 1000 0 (called_from 1000);
                 ev_enter 2000 0 (called_from 2000);
                 ev_enter 3000 0 (called_from 3000);
                 ev_exit 3000 0 (called_from 3000);
                 ev_exit 2000 0 (called_from 2000)] in
  map trace_depth (emitted (run w events (loaded (mkIo [] []))))
  = [Some 0; Some 1; Some 1]
  /\ agrees w (run w events (loaded (mkIo [] [])))
  /\ below_limit 2 (run w events (loaded (mkIo [] []))).
Proof.
  split; [vm_compute; reflexivity|].
  apply (trace_below_depth_limit (prog [("TRACY_MAXDEPTH", "2")])
           [ev_enter 1000 0 (called_from 1000);
            ev_enter 2000 0 (called_from 2000);
            ev_enter 3000 0 (called_from 3000);
            ev_exit 3000 0 (called_from 3000);
            ev_exit 2000 0 (called_from 2000)]
           (loaded (mkIo [] [])) 2).
  - apply agrees_loaded.
  - reflexivity.
  - constructor.
Defined.

(** ** Tracing switched by a signal *)

(** While tracing is off the hooks return at once. *)
Lemma run_idle (w : world) (events : list event)
    (t : tracer) :
  Tracing t = false ->
  Forall (fun e => match e with
                   | ev_signal signum =>
                       existsb (Z.eqb signum) (handlers t) = false
                   | _ => True
                   end) events ->
  run w events t = t.
Proof.
  intros Hoff Hevents. induction Hevents as [|e events He _ IH].
  - reflexivity.
  - cbn [run].
    assert (Hstep : step w e t = t).
    { unfold step. destruct (killed t); [reflexivity|].
      destruct e as [self callsite frames|self callsite frames|n].
      - unfold __cyg_profile_func_enter. now rewrite Hoff.
      - unfold __cyg_profile_func_exit. now rewrite Hoff.
      - unfold deliver. now rewrite He. }
    rewrite Hstep. exact IH.
Qed.

(** X27.  With $TRACY_SIGNAL naming a signal signal() accepts ('y' or
    'Y' for SIGPROF, or a number from 1 to 64 other than SIGKILL, SIGSTOP
    and the two signals 32 and 33 that glibc keeps for itself),
    tracy_init() installs toggle_tracing() for it, switches tracing off
    and logs nothing.  Until that signal is delivered the hooks do nothing
    at all, whatever is called: nothing is read from the environment,
    logged or counted.  The first delivery switches tracing on and the
    second puts the library back where tracy_init() left it. *)
Theorem tracy_init_installs_handler (w : world) (env : string)
    (t : tracer) :
  getenv w "TRACY_SIGNAL" = Some env ->
  1 <= env_signal env <= 64 ->
  env_signal env <> 9 -> env_signal env <> 19 ->
  env_signal env <> 32 -> env_signal env <> 33 ->
  let t1 := tracy_init w t in
  Tracing t1 = false
  /\ handlers t1 = env_signal env :: handlers t
  /\ sys t1 = sys t
  /\ Callstack_depth t1 = Callstack_depth t
  /\ (forall events,
        Forall (fun e => match e with
                         | ev_signal signum =>
                             existsb (Z.eqb signum) (handlers t1) = false
                         | _ => True
                         end) events ->
        run w events t1 = t1)
  /\ Tracing (deliver (env_signal env) t1) = true
  /\ deliver (env_signal env) (deliver (env_signal env) t1) = t1.
Proof.
  intros Henv Hrange H9 H19 H32 H33. cbv zeta.
  assert (Hinit : tracy_init w t
                  = set_Tracing false
                      (set_handlers (env_signal env :: handlers t) t)).
  { unfold tracy_init, env_signal in *. rewrite Henv.
    assert (Hsig : forall n, 1 <= n <= 64 -> n <> 9 -> n <> 19 ->
                     n <> 32 -> n <> 33 ->
                     forall t0, signal n t0
                                = set_handlers (n :: handlers t0) t0).
    { intros n Hn Hn9 Hn19 Hn32 Hn33 t0. unfold signal.
      replace (1 <=? n) with true by (symmetry; apply Z.leb_le; lia).
      replace (n <=? 64) with true by (symmetry; apply Z.leb_le; lia).
      replace (n =? 9) with false by (symmetry; apply Z.eqb_neq; lia).
      replace (n =? 19) with false by (symmetry; apply Z.eqb_neq; lia).
      replace (n =? 32) with false by (symmetry; apply Z.eqb_neq; lia).
      replace (n =? 33) with false by (symmetry; apply Z.eqb_neq; lia).
      reflexivity. }
    destruct (Ascii.eqb (deref env) "y" || Ascii.eqb (deref env) "Y").
    - now rewrite Hsig.
    - destruct (Z.leb_spec (atoi env) 0) as [Hle | Hgt]; [lia|].
      now rewrite Hsig. }
  rewrite Hinit. clear Hinit. generalize (env_signal env). intros n.
  assert (Hd : forall b,
            deliver n (set_Tracing b (set_handlers (n :: handlers t) t))
            = set_Tracing (negb b) (set_handlers (n :: handlers t) t)).
  { intros b. unfold deliver, toggle_tracing.
    cbn [handlers set_Tracing set_handlers existsb].
    now rewrite Z.eqb_refl. }
  rewrite !Hd.
  split; [reflexivity|]. split; [reflexivity|]. split; [reflexivity|].
  split; [reflexivity|]. split; [|split; reflexivity].
  intros events Hevents. now apply run_idle.
Qed.

Lemma tracy_init_installs_handler_witness :
  let w := prog [("TRACY_SIGNAL", "10")] in
  let t1 := tracy_init w (loaded (mkIo [] [])) in
  Tracing t1 = false
  /\ handlers t1 = [10]
  /\ sys t1 = mkIo [] []
  /\ Callstack_depth t1 = 0
  /\ (forall events,
        Forall (fun e => match e with
                         | ev_signal signum =>
                             existsb (Z.eqb signum) (handlers t1) = false
                         | _ => True
                         end) events ->
        run w events t1 = t1)
  /\ Tracing (deliver 10 t1) = true
  /\ deliver 10 (deliver 10 t1) = t1.
Proof.
  apply (tracy_init_installs_handler (prog [("TRACY_SIGNAL", "10")]) "10"
           (loaded (mkIo [] []))).
  - reflexivity.
  - vm_compute. split; discriminate.
  - vm_compute. discriminate.
  - vm_compute. discriminate.
  - vm_compute. discriminate.
  - vm_compute. discriminate.
Defined.

(** ** Async mode *)

Lemma keeps_filters_refl (t : tracer) : keeps_filters t t.
Proof. repeat split. Qed.

Lemma keeps_filters_trans (t1 t2 t3 : tracer) :
  keeps_filters t1 t2 -> keeps_filters t2 t3 -> keeps_filters t1 t3.
Proof.
  unfold keeps_filters. intros (A1 & A2 & A3 & A4) (B1 & B2 & B3 & B4).
  repeat split; congruence.
Qed.

Lemma config_read_keeps_filters (w : world) (t : tracer) :
  keeps_filters t (config_read w t).
Proof.
  unfold config_read.
  apply keeps_filters_trans with (read_maxdepth w t).
  { unfold read_maxdepth. destruct (_ <? 0); [|apply keeps_filters_refl].
    destruct (getenv w "TRACY_MAXDEPTH") as [[|c env]|]; repeat split. }
  apply keeps_filters_trans with (read_async w (read_maxdepth w t)).
  { generalize (read_maxdepth w t). intros t0. unfold read_async.
    destruct (_ <? 0); [|apply keeps_filters_refl].
    destruct (getenv_is_1 w "TRACY_ASYNC"); [|repeat split].
    destruct (Async_fd _ <? 0); repeat split. }
  apply keeps_filters_trans
    with (read_entries_only w (read_async w (read_maxdepth w t))).
  { generalize (read_async w (read_maxdepth w t)). intros t0.
    unfold read_entries_only. destruct (_ <? 0); repeat split. }
  generalize (read_entries_only w (read_async w (read_maxdepth w t))).
  intros t0. unfold read_indent. destruct (_ <? 0); repeat split.
Qed.

Lemma procinfo_keeps_filters (w : world) (t : tracer) :
  keeps_filters t (snd (procinfo w t)).
Proof. unfold procinfo. destruct (_ <? 0); repeat split. Qed.

Lemma emitted_log_trace (l : line) (t : tracer) :
  is_trace l = true -> emitted (log l t) = (emitted t ++ [l])%list.
Proof.
  intros H. unfold emitted, log. cbn [sys set_sys LOGIT output].
  rewrite filter_app. cbn [filter]. now rewrite H.
Qed.

(** X28.  In async mode print_trace() resolves nothing: past the depth
    limit and the backtrace it returns 1 for every event, consults
    neither filter and leaves the cache alone; it logs the address at the
    current depth (for a LEAVE only if not entries-only, and then without
    the direction word) and appends the address of an ENTER, and of
    nothing else, to the backlog file. *)
Theorem print_trace_async (w : world) (addr : Z) (dir : string)
    (frames : list Z) (t : tracer) :
  agrees w t -> ~ synchronous w ->
  match env_depth_limit w with
  | Some limit => Callstack_depth t < limit
  | None => True
  end ->
  ARMEL w = true \/ (3 <= List.length frames)%nat ->
  let res := print_trace w addr dir frames t in
  let addr' := if ARMEL w then addr else nth 2 frames 0 in
  let is_entry := Ascii.eqb (deref dir) "E" in
  let entries_only := getenv_is_1 w "TRACY_LOG_ENTRIES_ONLY" in
  fst res = 1
  /\ dso_statics (snd res) = dso_statics t
  /\ fun_statics (snd res) = fun_statics t
  /\ seen (snd res) = seen t
  /\ backlog (snd res)
     = (backlog t ++ if is_entry then [addr'] else [])%list
  /\ if entries_only && negb is_entry
     then emitted (snd res) = emitted t
     else exists pi width,
            emitted (snd res)
            = (emitted t
               ++ [TraceAsync pi (if entries_only then "" else dir)
                              (Callstack_depth t) width addr'])%list.
Proof.
  intros Hag Hasync Hlimit Hframes. cbv zeta. unfold print_trace.
  (* the limit is not reached *)
  destruct (read_maxdepth_agrees w t Hag) as [Hag1 Hlim].
  assert (Hnot : limit_reached (read_maxdepth w t) = false).
  { unfold limit_reached. destruct (env_depth_limit w) as [limit|].
    - destruct Hlim as [H1 H2]. rewrite H1, H2, read_maxdepth_depth.
      cbn [Z.eqb negb andb]. apply Z.leb_gt. exact Hlimit.
    - now rewrite Hlim. }
  rewrite Hnot.
  (* the backtrace is long enough *)
  assert (Hbt : negb (ARMEL w)
                && (Z.of_nat (List.length (firstn 3 frames)) <? 3) = false).
  { destruct Hframes as [-> | Hlen]; [reflexivity|].
    apply andb_false_iff. right. apply Z.ltb_ge. rewrite length_firstn.
    lia. }
  rewrite Hbt.
  (* the settings *)
  pose proof (config_read_keeps_filters w t) as Hkeep.
  pose proof (config_read_quiet w t) as Hquiet.
  unfold config_read in Hkeep, Hquiet.
  destruct (read_async_agrees w _ Hag1) as (Hag2 & _ & Hfd).
  specialize (Hfd Hasync).
  destruct (read_entries_only_agrees w _ Hag2) as (Hag3 & Heo & Hfd3).
  rewrite Heo.
  assert (Hfd4 : (0 <=? Async_fd
                          (read_indent w
                             (read_entries_only w
                                (read_async w (read_maxdepth w t)))))
                 = true).
  { apply Z.leb_le. rewrite read_indent_Async_fd, Hfd3. exact Hfd. }
  rewrite Hfd4.
  set (t4 := read_indent w _) in *. clearbody t4.
  destruct Hkeep as (K1 & K2 & K3 & K4).
  destruct Hquiet as (_ & Q2 & _ & Q4).
  assert (Heob : negb (Z_of_bool (getenv_is_1 w "TRACY_LOG_ENTRIES_ONLY")
                       =? 0)
                 = getenv_is_1 w "TRACY_LOG_ENTRIES_ONLY")
    by (destruct (getenv_is_1 w "TRACY_LOG_ENTRIES_ONLY"); reflexivity).
  rewrite Heob.
  set (eo := getenv_is_1 w "TRACY_LOG_ENTRIES_ONLY").
  set (is_entry := Ascii.eqb (deref dir) "E").
  set (addr' := if ARMEL w then addr else nth 2 frames 0).
  cbn [fst snd].
  assert (Hlogged :
    let t5 := if negb eo || is_entry
              then let (pi, t0) := procinfo w t4 in
                   log (TraceAsync pi (if eo then "" else dir)
                                   (Callstack_depth t0) (indent_width t0)
                                   addr') t0
              else t4 in
    keeps_filters t t5
    /\ if eo && negb is_entry then emitted t5 = emitted t
       else exists pi width,
              emitted t5
              = (emitted t
                 ++ [TraceAsync pi (if eo then "" else dir)
                                (Callstack_depth t) width addr'])%list).
  { cbv zeta. destruct eo, is_entry; cbn [negb orb andb];
      try (split; [repeat split; assumption | exact Q4]);
      pose proof (procinfo_keeps_filters w t4) as (P1 & P2 & P3 & P4);
      pose proof (procinfo_quiet w t4) as (_ & R2 & _ & R4);
      destruct (procinfo w t4) as [pi t5]; cbn [snd] in *;
      (split; [repeat split; cbn; congruence|]);
      exists pi, (indent_width t5);
      rewrite emitted_log_trace by reflexivity;
      rewrite R4, Q4, R2, Q2; reflexivity. }
  cbv zeta in Hlogged. destruct Hlogged as [(L1 & L2 & L3 & L4) Hemit].
  set (t5 := if negb eo || is_entry then _ else t4) in *. clearbody t5.
  split; [reflexivity|].
  destruct is_entry; cbn [backlog set_backlog dso_statics fun_statics seen];
    repeat split; try assumption.
  - now rewrite L4.
  - rewrite L4. now rewrite app_nil_r.
Qed.

Lemma print_trace_async_witness :
  let w := mkWorld (environment [("TRACY_ASYNC", "1")]) prog_loader
                   (fun _ => None) 3 false in
  let res := print_trace w 2000 "ENTER" (called_from 2000)
                         (loaded (mkIo [] [])) in
  fst res = 1
  /\ dso_statics (snd res) = report_dso_statics.init
  /\ fun_statics (snd res) = report_function_statics.init
  /\ seen (snd res) = []
  /\ backlog (snd res) = [2004]
  /\ exists pi width,
       emitted (snd res) = [TraceAsync pi "ENTER" 0 width 2004].
Proof.
  apply (print_trace_async
           (mkWorld (environment [("TRACY_ASYNC", "1")]) prog_loader
                    (fun _ => None) 3 false)
           2000 "ENTER" (called_from 2000) (loaded (mkIo [] []))).
  - apply agrees_loaded.
  - unfold synchronous. cbn. intros [H | H]; [discriminate | lia].
  - exact I.
  - right. cbn. lia.
Defined.

(** ** The table printed on exit *)

Lemma logs_diagnostics_refl (t : tracer) : logs_diagnostics t t.
Proof. exists []. split; [now rewrite app_nil_r | constructor]. Qed.

Lemma logs_diagnostics_trans (t1 t2 t3 : tracer) :
  logs_diagnostics t1 t2 -> logs_diagnostics t2 t3 ->
  logs_diagnostics t1 t3.
Proof.
  intros (d1 & H1 & F1) (d2 & H2 & F2). exists (d1 ++ d2)%list. split.
  - now rewrite H2, H1, app_assoc.
  - apply Forall_app. now split.
Qed.

Lemma logs_diagnostics_same (t t' : tracer) :
  sys t' = sys t -> logs_diagnostics t t'.
Proof.
  intros H. exists []. split; [now rewrite H, app_nil_r | constructor].
Qed.

Lemma getenv_mkwords_logs (w : world) (name : string) (t : tracer) :
  logs_diagnostics t (snd (getenv_mkwords w name t)).
Proof.
  unfold getenv_mkwords. destruct (getenv w name) as [env|];
    [|apply logs_diagnostics_refl].
  destruct (mkwords_spec env (sys t)) as [_ H].
  destruct (mkwords env (sys t)) as [l s]. cbn [snd] in *.
  eexists. split; [exact H|].
  destruct (_ <? _)%nat; repeat constructor.
Qed.

Lemma report_dso_logs (w : world) (fname : string) (t : tracer) :
  logs_diagnostics t (snd (report_dso w fname t)).
Proof.
  rewrite report_dso_state. unfold report_dso_read.
  destruct (negb _ && _); [|apply logs_diagnostics_refl].
  pose proof (getenv_mkwords_logs w "TRACY_INLIBS" t) as H1.
  destruct (getenv_mkwords w "TRACY_INLIBS" t) as [[|x l] t1];
    cbn [snd] in H1.
  - pose proof (getenv_mkwords_logs w "TRACY_EXLIBS" t1) as H2.
    destruct (getenv_mkwords w "TRACY_EXLIBS" t1) as [[|y l2] t2];
      cbn [snd] in H2;
      (eapply logs_diagnostics_trans; [exact H1|]);
      (eapply logs_diagnostics_trans; [exact H2|]);
      now apply logs_diagnostics_same.
  - eapply logs_diagnostics_trans; [exact H1|].
    now apply logs_diagnostics_same.
Qed.

Lemma report_function_sys (w : world) (funame : option string)
    (t : tracer) :
  sys (snd (report_function w funame t)) = sys t.
Proof.
  rewrite report_function_state. unfold report_function_read.
  destruct (negb _ && _); [|reflexivity].
  unfold getenv_pattern.
  destruct (getenv w "TRACY_INFUNS") as [[|c p]|];
    destruct (getenv w "TRACY_EXFUNS") as [[|c' p']|]; reflexivity.
Qed.

Lemma addr2name_logs (w : world) (addr : Z) (t : tracer) :
  logs_diagnostics t (snd (addr2name w addr t)).
Proof.
  unfold addr2name.
  assert (Hfin : forall t0, logs_diagnostics t t0 ->
            forall f, logs_diagnostics t (snd (report_function w f t0))).
  { intros t0 H0 f. eapply logs_diagnostics_trans; [exact H0|].
    apply logs_diagnostics_same, report_function_sys. }
  destruct (dladdr w addr) as [info|].
  2:{ rewrite addr2name_finish. apply Hfin, logs_diagnostics_refl. }
  destruct (dli_fname info) as [[fname_ptr fname_text]|].
  2:{ rewrite addr2name_finish. apply Hfin, logs_diagnostics_refl. }
  pose proof (report_dso_logs w fname_text t) as H1.
  destruct (report_dso w fname_text t) as [[fname|] t1]; cbn [snd] in H1;
    [|exact H1].
  destruct (dli_sname info) as [sname|].
  { rewrite addr2name_finish. now apply Hfin. }
  destruct (find_seen fname_ptr (seen t1)) as [dso|].
  { rewrite addr2name_finish. now apply Hfin. }
  destruct (getdso w fname_text) as [[strs syms]|].
  - unfold malloc. destruct (mallocs (sys t1)) as [|[|] ms].
    + rewrite addr2name_finish. apply Hfin.
      eapply logs_diagnostics_trans; [exact H1|].
      now apply logs_diagnostics_same.
    + rewrite addr2name_finish. apply Hfin.
      eapply logs_diagnostics_trans; [exact H1|].
      exists []. split; [cbn; now rewrite app_nil_r | constructor].
    + assert (H2 : logs_diagnostics t
                     (log DiagMalloc (set_sys (mkIo ms (output (sys t1)))
                                              t1))).
      { eapply logs_diagnostics_trans; [exact H1|].
        exists [DiagMalloc]. split; [reflexivity | repeat constructor]. }
      destruct (option_map cstring _) as [name|].
      * cbn [snd].
        assert (H3 : logs_diagnostics t
                       (report_function_read w
                          (log DiagMalloc
                               (set_sys (mkIo ms (output (sys t1))) t1)))).
        { eapply logs_diagnostics_trans; [exact H2|].
          apply logs_diagnostics_same.
          apply (proj1 (proj2 (report_function_read_seen w _))). }
        destruct (report_function_statics.report_all _); exact H3.
      * rewrite addr2name_finish. now apply Hfin.
  - rewrite addr2name_finish. now apply Hfin.
Qed.

Lemma symtab_addresses_diagnostics (diags : list line) :
  Forall (eq DiagMalloc) diags ->
  flat_map symtab_address diags = []
  /\ Forall (fun l => is_trace l = false) diags
  /\ filter is_table diags = []
  /\ Forall (fun l => is_table l = true \/ l = DiagMalloc) diags.
Proof.
  induction 1 as [|l diags <- _ (IH1 & IH2 & IH3 & IH4)].
  - repeat split; constructor.
  - split; [exact IH1|]. split; [constructor; [reflexivity | exact IH2]|].
    split; [exact IH3|]. constructor; [now right | exact IH4].
Qed.

Lemma subsequence_nil_l (ys : list Z) : subsequence [] ys.
Proof.
  induction ys as [|y ys IH]; [constructor | now apply subsequence_skip].
Qed.

Lemma resolve_backlog_loop_table (w : world) (addrs : list Z) :
  forall t : tracer,
    exists rest,
      output (sys (resolve_backlog_loop w addrs t))
      = (output (sys t) ++ rest)%list
      /\ Forall (fun l => is_trace l = false) rest
      /\ subsequence (flat_map symtab_address rest) addrs
      /\ quiet_step t (resolve_backlog_loop w addrs t)
      /\ backlog (resolve_backlog_loop w addrs t) = backlog t.
Proof.
  induction addrs as [|addr addrs IH]; intros t; cbn [resolve_backlog_loop].
  - exists []. split; [now rewrite app_nil_r|]. split; [constructor|].
    split; [constructor|]. split; [apply quiet_step_refl | reflexivity].
  - pose proof (addr2name_logs w addr t) as (diags & Hout & Hdiags).
    pose proof (addr2name_silent w addr t)
      as (S1 & S2 & _ & _ & _ & S6 & _ & S8 & S9).
    destruct (symtab_addresses_diagnostics diags Hdiags)
      as (Hd1 & Hd2 & _ & _).
    destruct (addr2name w addr t) as [[[r fname] funame] t1].
    cbn [snd] in *.
    assert (Hnext : forall (l : line) (t2 : tracer),
              output (sys t2) = (output (sys t1) ++ [l])%list
              \/ output (sys t2) = output (sys t1) ->
              is_trace l = false ->
              flat_map symtab_address [l] = [addr]
              \/ output (sys t2) = output (sys t1) ->
              quiet_step t1 t2 -> backlog t2 = backlog t1 ->
              exists rest,
                output (sys (resolve_backlog_loop w addrs t2))
                = (output (sys t) ++ rest)%list
                /\ Forall (fun l => is_trace l = false) rest
                /\ subsequence (flat_map symtab_address rest)
                               (addr :: addrs)
                /\ quiet_step t (resolve_backlog_loop w addrs t2)
                /\ backlog (resolve_backlog_loop w addrs t2) = backlog t).
    { intros l t2 Hl Hnt Haddr Hq2 Hb2.
      destruct (IH t2) as (rest & Hrest & Hr1 & Hr2 & Hq & Hb).
      assert (Hquiet : quiet_step t (resolve_backlog_loop w addrs t2)).
      { apply quiet_step_trans with t1; [repeat split; assumption|].
        apply quiet_step_trans with t2; assumption. }
      destruct Hl as [Hl | Hl].
      - exists (diags ++ l :: rest)%list.
        split; [rewrite Hrest, Hl, Hout; now rewrite <- !app_assoc|].
        split; [apply Forall_app; split; [exact Hd2 | now constructor]|].
        split; [|split; [exact Hquiet | now rewrite Hb, Hb2]].
        rewrite flat_map_app, Hd1. cbn [app flat_map].
        destruct Haddr as [Haddr | Haddr].
        + cbn [flat_map] in Haddr. rewrite app_nil_r in Haddr.
          rewrite Haddr. cbn [app]. now apply subsequence_take.
        + rewrite Hl in Haddr. exfalso.
          apply (f_equal (@List.length line)) in Haddr.
          rewrite length_app in Haddr. cbn in Haddr. lia.
      - exists (diags ++ rest)%list.
        split; [rewrite Hrest, Hl, Hout; now rewrite <- app_assoc|].
        split; [apply Forall_app; now split|].
        split; [|split; [exact Hquiet | now rewrite Hb, Hb2]].
        rewrite flat_map_app, Hd1. cbn [app]. now apply subsequence_skip. }
    destruct (r =? 1).
    + destruct funame as [name|].
      * apply (Hnext (SymtabName addr fname name)
                     (log (SymtabName addr fname name) t1)).
        -- now left.
        -- reflexivity.
        -- now left.
        -- repeat split. now apply emitted_log_diag.
        -- reflexivity.
      * exists diags. split; [exact Hout|]. split; [exact Hd2|].
        split; [rewrite Hd1; apply subsequence_nil_l|].
        split; [repeat split; assumption | exact S6].
    + destruct (r =? 0).
      * apply (Hnext (SymtabAddr addr fname)
                     (log (SymtabAddr addr fname) t1)).
        -- now left.
        -- reflexivity.
        -- now left.
        -- repeat split. now apply emitted_log_diag.
        -- reflexivity.
      * apply (Hnext DiagMalloc t1).
        -- now right.
        -- reflexivity.
        -- now right.
        -- apply quiet_step_refl.
        -- reflexivity.
Qed.

(** *** The table of a backlog the loader resolves *)

Lemma mkwords_loop_mallocs_only (str : string) :
  forall (word : word_st.t) (s1 s2 : io),
    mallocs s1 = mallocs s2 ->
    fst (mkwords_loop word str s1) = fst (mkwords_loop word str s2)
    /\ mallocs (snd (mkwords_loop word str s1))
       = mallocs (snd (mkwords_loop word str s2)).
Proof.
  induction str as [|c str IH]; intros word s1 s2 Hm; cbn [mkwords_loop].
  - split; [reflexivity | exact Hm].
  - destruct (negb (Ascii.eqb c ":")); [now apply IH|].
    unfold malloc. rewrite Hm. destruct (mallocs s2) as [|[|] ms] eqn:E2.
    + destruct (IH (word_st.mk 0 0 str) s1 s2 (eq_trans Hm (eq_sym E2)))
        as [H1 H2].
      destruct (mkwords_loop (word_st.mk 0 0 str) str s1) as [r1 s1'].
      destruct (mkwords_loop (word_st.mk 0 0 str) str s2) as [r2 s2'].
      cbn [fst snd] in *. split; [now rewrite H1 | exact H2].
    + destruct (IH (word_st.mk 0 0 str) (mkIo ms (output s1))
                  (mkIo ms (output s2)) eq_refl) as [H1 H2].
      destruct (mkwords_loop (word_st.mk 0 0 str) str (mkIo ms (output s1)))
        as [r1 s1'].
      destruct (mkwords_loop (word_st.mk 0 0 str) str (mkIo ms (output s2)))
        as [r2 s2'].
      cbn [fst snd] in *. split; [now rewrite H1 | exact H2].
    + split; reflexivity.
Qed.

Lemma mkwords_mallocs_only (str : string) (s1 s2 : io) :
  mallocs s1 = mallocs s2 ->
  fst (mkwords str s1) = fst (mkwords str s2)
  /\ mallocs (snd (mkwords str s1)) = mallocs (snd (mkwords str s2)).
Proof.
  intros Hm. unfold mkwords. destruct str as [|c str]; [now split|].
  unfold malloc. rewrite Hm. destruct (mallocs s2) as [|[|] ms] eqn:E2.
  - apply mkwords_loop_mallocs_only. now rewrite Hm, E2.
  - now apply mkwords_loop_mallocs_only.
  - split; reflexivity.
Qed.

Lemma getenv_mkwords_ext (w : world) (name : string) (t1 t2 : tracer) :
  dso_statics t1 = dso_statics t2 ->
  mallocs (sys t1) = mallocs (sys t2) ->
  fst (getenv_mkwords w name t1) = fst (getenv_mkwords w name t2)
  /\ dso_statics (snd (getenv_mkwords w name t1))
     = dso_statics (snd (getenv_mkwords w name t2))
  /\ mallocs (sys (snd (getenv_mkwords w name t1)))
     = mallocs (sys (snd (getenv_mkwords w name t2))).
Proof.
  intros Hd Hm. unfold getenv_mkwords. rewrite Hd.
  destruct (getenv w name) as [env|]; [|repeat split; assumption].
  destruct (mkwords_mallocs_only env (sys t1) (sys t2) Hm) as [H1 H2].
  destruct (mkwords env (sys t1)) as [l1 s1].
  destruct (mkwords env (sys t2)) as [l2 s2].
  cbn [fst snd] in *. subst l2. repeat split. exact H2.
Qed.

Lemma report_dso_read_ext (w : world) (t1 t2 : tracer) :
  dso_statics t1 = dso_statics t2 ->
  mallocs (sys t1) = mallocs (sys t2) ->
  dso_statics (report_dso_read w t1) = dso_statics (report_dso_read w t2).
Proof.
  intros Hd Hm. unfold report_dso_read. rewrite Hd.
  destruct (negb _ && _); [|exact Hd].
  destruct (getenv_mkwords_ext w "TRACY_INLIBS" t1 t2 Hd Hm)
    as (H1 & Hd1 & Hm1).
  destruct (getenv_mkwords w "TRACY_INLIBS" t1) as [l1 u1].
  destruct (getenv_mkwords w "TRACY_INLIBS" t2) as [l2 u2].
  cbn [fst snd] in *. subst l2. destruct l1 as [|x l1].
  - destruct (getenv_mkwords_ext w "TRACY_EXLIBS" u1 u2 Hd1 Hm1)
      as (H2 & Hd2 & Hm2).
    destruct (getenv_mkwords w "TRACY_EXLIBS" u1) as [k1 v1].
    destruct (getenv_mkwords w "TRACY_EXLIBS" u2) as [k2 v2].
    cbn [fst snd] in *. subst k2.
    destruct k1; cbn; now rewrite Hd2.
  - cbn. now rewrite Hd1.
Qed.

Lemma report_function_verdict (w : world) (funame : option string)
    (t1 t2 : tracer) :
  fun_statics (report_function_read w t1)
  = fun_statics (report_function_read w t2) ->
  fst (report_function w funame t1) = fst (report_function w funame t2).
Proof.
  intros H. unfold report_function. cbv zeta. rewrite H.
  destruct (report_function_statics.report_all _); [reflexivity|].
  destruct funame; [|reflexivity].
  destruct (report_function_statics.pattern _); [|reflexivity].
  destruct (eglob_matches _ _); reflexivity.
Qed.

Lemma report_dso_read_statics (w : world) (t : tracer) :
  fun_statics (report_dso_read w t) = fun_statics t
  /\ killed (report_dso_read w t) = killed t.
Proof.
  rewrite <- (report_dso_state w "" t).
  split; [apply report_dso_seen | apply report_dso_killed].
Qed.

Lemma report_function_read_statics (w : world) (t : tracer) :
  dso_statics (report_function_read w t) = dso_statics t.
Proof.
  rewrite <- (report_function_state w None t). apply report_function_seen.
Qed.

(** What the walk over a backlog keeps: the two filters answer as they
    would have in the state [t0]. *)
Lemma same_filters_report_function (w : world) (t0 t : tracer)
    (funame : option string) :
  same_filters w t0 t ->
  fst (report_function w funame t) = fst (report_function w funame t0)
  /\ same_filters w t0 (snd (report_function w funame t))
  /\ sys (snd (report_function w funame t)) = sys t
  /\ killed (snd (report_function w funame t)) = killed t.
Proof.
  intros [I1 I2]. split; [now apply report_function_verdict|].
  split; [|split; [apply report_function_sys | apply report_function_killed]].
  rewrite report_function_state. split.
  - rewrite <- I1. apply report_dso_read_ext.
    + apply report_function_read_statics.
    + now rewrite (proj1 (proj2 (report_function_read_seen w t))).
  - now rewrite report_function_read_once.
Qed.

Lemma same_filters_report_dso (w : world) (t0 t : tracer) (fname : string) :
  same_filters w t0 t ->
  fst (report_dso w fname t) = fst (report_dso w fname t0)
  /\ same_filters w t0 (snd (report_dso w fname t))
  /\ logs_diagnostics t (snd (report_dso w fname t))
  /\ killed (snd (report_dso w fname t)) = killed t.
Proof.
  intros [I1 I2]. split; [now rewrite !report_dso_verdict, I1|].
  split; [|split; [apply report_dso_logs | apply report_dso_killed]].
  rewrite report_dso_state. split.
  - now rewrite report_dso_read_once.
  - rewrite <- I2. apply report_function_read_ext.
    apply report_dso_read_statics.
Qed.

Lemma same_filters_log (w : world) (t0 t : tracer) (l : line) :
  same_filters w t0 t -> same_filters w t0 (log l t).
Proof.
  intros [I1 I2]. split.
  - rewrite <- I1. now apply report_dso_read_ext.
  - rewrite <- I2. now apply report_function_read_ext.
Qed.

Lemma resolve_backlog_loop_step (w : world) (addr : Z) (addrs : list Z)
    (t : tracer) :
  resolve_backlog_loop w (addr :: addrs) t
  = let res := addr2name w addr t in
    if fst (fst (fst res)) =? 1
    then
      match snd (fst res) with
      | Some name =>
          resolve_backlog_loop w addrs
            (log (SymtabName addr (snd (fst (fst res))) name) (snd res))
      | None => set_killed true (snd res)
      end
    else
      resolve_backlog_loop w addrs
        (if fst (fst (fst res)) =? 0
         then log (SymtabAddr addr (snd (fst (fst res)))) (snd res)
         else snd res).
Proof.
  cbn [resolve_backlog_loop].
  destruct (addr2name w addr t) as [[[r fname] funame] t1]. reflexivity.
Qed.

(** addr2name() on an address the loader resolves by itself. *)
Lemma addr2name_loader_resolved (w : world) (addr : Z) (t : tracer) :
  loader_resolves w addr = true ->
  addr2name w addr t
  = let unknown :=
      ((if fst (report_function w None t) then 0 else -1, "[???]",
        @None string), snd (report_function w None t)) in
    match dladdr w addr with
    | None => unknown
    | Some info =>
        match dli_fname info with
        | None => unknown
        | Some (_, fname_text) =>
            match dli_sname info with
            | None => unknown
            | Some sname =>
                match fst (report_dso w fname_text t) with
                | Some fname =>
                    ((if fst (report_function w (Some sname)
                                (snd (report_dso w fname_text t)))
                      then 1 else -1, fname, Some sname),
                     snd (report_function w (Some sname)
                            (snd (report_dso w fname_text t))))
                | None =>
                    ((-1, "[???]", None), snd (report_dso w fname_text t))
                end
            end
        end
    end.
Proof.
  unfold loader_resolves, addr2name. intros H.
  destruct (dladdr w addr) as [info|]; [|apply addr2name_finish].
  destruct (dli_fname info) as [[fname_ptr fname_text]|];
    [|apply addr2name_finish].
  destruct (dli_sname info) as [sname|]; [|discriminate].
  destruct (report_dso w fname_text t) as [[fname|] t1]; cbn [fst snd];
    [|reflexivity].
  apply (addr2name_finish w (fun r : bool => if r then 1 else -1)).
Qed.

Lemma resolve_backlog_loop_resolved (w : world) (t0 : tracer)
    (addrs : list Z) :
  Forall (fun addr => loader_resolves w addr = true) addrs ->
  forall t : tracer,
    same_filters w t0 t ->
    exists rest,
      output (sys (resolve_backlog_loop w addrs t))
      = (output (sys t) ++ rest)%list
      /\ filter is_table rest = flat_map (table_line w t0) addrs
      /\ Forall (fun l => is_table l = true \/ l = DiagMalloc) rest
      /\ killed (resolve_backlog_loop w addrs t) = killed t.
Proof.
  induction 1 as [|addr addrs Haddr _ IH]; intros t Hsame; cbn [flat_map].
  - cbn [resolve_backlog_loop].
    exists []. split; [now rewrite app_nil_r|]. repeat split; constructor.
  - (* one more line, or none, and then the rest of the walk *)
    assert (Hnext : forall (diags lines : list line) (t2 : tracer),
              output (sys t2) = (output (sys t) ++ diags ++ lines)%list ->
              Forall (eq DiagMalloc) diags ->
              lines = table_line w t0 addr ->
              same_filters w t0 t2 -> killed t2 = killed t ->
              exists rest,
                output (sys (resolve_backlog_loop w addrs t2))
                = (output (sys t) ++ rest)%list
                /\ filter is_table rest
                   = (table_line w t0 addr
                      ++ flat_map (table_line w t0) addrs)%list
                /\ Forall (fun l => is_table l = true \/ l = DiagMalloc)
                          rest
                /\ killed (resolve_backlog_loop w addrs t2) = killed t).
    { intros diags lines t2 Hout Hdiags Hlines Hsame2 Hk2.
      destruct (IH t2 Hsame2) as (rest & Hrest & Hr1 & Hr2 & Hr3).
      destruct (symtab_addresses_diagnostics diags Hdiags)
        as (_ & _ & Hd3 & Hd4).
      assert (Htable : filter is_table lines = lines
                       /\ Forall (fun l => is_table l = true
                                           \/ l = DiagMalloc) lines).
      { rewrite Hlines. unfold table_line.
        destruct (dladdr w addr) as [info|];
          [destruct (dli_fname info) as [[p text]|];
           [destruct (fst (report_dso w text t0));
            [destruct (dli_sname info)|]|]|];
          repeat match goal with
                 | |- context [if ?b then _ else _] => destruct b
                 end;
          split; try reflexivity; repeat constructor. }
      destruct Htable as [Ht1 Ht2].
      exists (diags ++ lines ++ rest)%list.
      split; [rewrite Hrest, Hout; now rewrite <- !app_assoc|].
      split; [now rewrite !filter_app, Hd3, Ht1, Hr1, Hlines|].
      split; [|now rewrite Hr3].
      apply Forall_app. split; [exact Hd4|]. apply Forall_app. now split. }
    rewrite resolve_backlog_loop_step,
      (addr2name_loader_resolved w addr t Haddr).
    assert (Hun :
      table_line w t0 addr
      = (if fst (report_function w None t0)
         then [SymtabAddr addr "[???]"] else []) ->
      let res := ((if fst (report_function w None t) then 0 else -1,
                   "[???]", @None string),
                  snd (report_function w None t)) in
      exists rest,
        output
          (sys
             (if fst (fst (fst res)) =? 1
              then
                match snd (fst res) with
                | Some name =>
                    resolve_backlog_loop w addrs
                      (log (SymtabName addr (snd (fst (fst res))) name)
                           (snd res))
                | None => set_killed true (snd res)
                end
              else
                resolve_backlog_loop w addrs
                  (if fst (fst (fst res)) =? 0
                   then log (SymtabAddr addr (snd (fst (fst res))))
                            (snd res)
                   else snd res)))
        = (output (sys t) ++ rest)%list
        /\ filter is_table rest
           = (table_line w t0 addr
              ++ flat_map (table_line w t0) addrs)%list
        /\ Forall (fun l => is_table l = true \/ l = DiagMalloc) rest
        /\ killed
             (if fst (fst (fst res)) =? 1
              then
                match snd (fst res) with
                | Some name =>
                    resolve_backlog_loop w addrs
                      (log (SymtabName addr (snd (fst (fst res))) name)
                           (snd res))
                | None => set_killed true (snd res)
                end
              else
                resolve_backlog_loop w addrs
                  (if fst (fst (fst res)) =? 0
                   then log (SymtabAddr addr (snd (fst (fst res))))
                            (snd res)
                   else snd res))
           = killed t).
    { intros Hline. cbv zeta. cbn [fst snd].
      destruct (same_filters_report_function w t0 t None Hsame)
        as (Hv & Hsame1 & Hsys1 & Hk1).
      destruct (fst (report_function w None t)) eqn:Eb; cbn [Z.eqb].
      - apply (Hnext [] [SymtabAddr addr "[???]"]).
        + unfold log. cbn. now rewrite Hsys1.
        + constructor.
        + now rewrite Hline, <- Hv.
        + now apply same_filters_log.
        + exact Hk1.
      - apply (Hnext [] []).
        + now rewrite Hsys1, app_nil_r.
        + constructor.
        + now rewrite Hline, <- Hv.
        + exact Hsame1.
        + exact Hk1. }
    unfold loader_resolves in Haddr.
    destruct (dladdr w addr) as [info|] eqn:Einfo.
    2:{ apply Hun. unfold table_line. now rewrite Einfo. }
    destruct (dli_fname info) as [[fname_ptr fname_text]|] eqn:Efname.
    2:{ apply Hun. unfold table_line. now rewrite Einfo, Efname. }
    destruct (dli_sname info) as [sname|] eqn:Esname; [|discriminate].
    assert (Hline : table_line w t0 addr
                    = match fst (report_dso w fname_text t0) with
                      | Some fname =>
                          if fst (report_function w (Some sname) t0)
                          then [SymtabName addr fname sname] else []
                      | None => []
                      end).
    { unfold table_line. rewrite Einfo, Efname, Esname.
      now destruct (fst (report_dso w fname_text t0)). }
    destruct (same_filters_report_dso w t0 t fname_text Hsame)
      as (Hv1 & Hsame1 & (diags & Hout1 & Hdiags) & Hk1).
    destruct (fst (report_dso w fname_text t)) as [fname|] eqn:Efst;
      cbn [fst snd].
    + destruct (same_filters_report_function w t0
                  (snd (report_dso w fname_text t)) (Some sname) Hsame1)
        as (Hv2 & Hsame2 & Hsys2 & Hk2).
      destruct (fst (report_function w (Some sname)
                       (snd (report_dso w fname_text t)))) eqn:Eb;
        cbn [Z.eqb].
      * apply (Hnext diags [SymtabName addr fname sname]).
        -- unfold log. cbn. rewrite Hsys2, Hout1.
           now rewrite <- app_assoc.
        -- exact Hdiags.
        -- now rewrite Hline, <- Hv1, <- Hv2.
        -- now apply same_filters_log.
        -- exact (eq_trans Hk2 Hk1).
      * apply (Hnext diags []).
        -- now rewrite Hsys2, Hout1, app_nil_r.
        -- exact Hdiags.
        -- now rewrite Hline, <- Hv1, <- Hv2.
        -- exact Hsame2.
        -- exact (eq_trans Hk2 Hk1).
    + cbn [Z.eqb].
      apply (Hnext diags []).
      * now rewrite Hout1, app_nil_r.
      * exact Hdiags.
      * now rewrite Hline, <- Hv1.
      * exact Hsame1.
      * exact Hk1.
Qed.

(** X29.  resolve_backlog() prints the header SYMTAB: and then goes through
    the backlog in the order it was written.  For a backlog of addresses
    the loader resolves by itself (it knows the name of the function, or
    not even the file) the table is exactly this: for each address in
    turn, the line with the basename of its file and the name of its
    function if both filters let it pass, the line with [???] and the
    address if no file is known and the function filter lets an unknown
    name pass, and no line otherwise, the filters answering as they do in
    the state the table is begun in; apart from the table only allocation
    diagnostics are logged, and the process is not killed.  For any
    backlog the addresses of the table are the backlog with some left
    out, no trace line is emitted, and the depth counter, the tracing
    flag and the backlog stay as they are. *)
Theorem resolve_backlog_table (w : world) (t : tracer) :
  exists rest,
    output (sys (resolve_backlog w t))
    = (output (sys t) ++ SymtabHeader :: rest)%list
    /\ Forall (fun l => is_trace l = false) rest
    /\ subsequence (flat_map symtab_address rest) (backlog t)
    /\ emitted (resolve_backlog w t) = emitted t
    /\ Callstack_depth (resolve_backlog w t) = Callstack_depth t
    /\ Tracing (resolve_backlog w t) = Tracing t
    /\ backlog (resolve_backlog w t) = backlog t
    /\ (Forall (fun addr => loader_resolves w addr = true) (backlog t) ->
        filter is_table rest = flat_map (table_line w t) (backlog t)
        /\ Forall (fun l => is_table l = true \/ l = DiagMalloc) rest
        /\ killed (resolve_backlog w t) = killed t).
Proof.
  unfold resolve_backlog.
  destruct (resolve_backlog_loop_table w (backlog t) (log SymtabHeader t))
    as (rest & Hout & Hr1 & Hr2 & (Q1 & Q2 & _ & Q4) & Hb).
  exists rest.
  split; [|split; [|split; [|split; [|split; [|split; [|split]]]]]].
  - rewrite Hout. unfold log. cbn [sys set_sys LOGIT output].
    now rewrite <- app_assoc.
  - exact Hr1.
  - exact Hr2.
  - rewrite Q4. now apply emitted_log_diag.
  - exact Q2.
  - exact Q1.
  - exact Hb.
  - intros Hres.
    destruct (resolve_backlog_loop_resolved w t (backlog t) Hres
                (log SymtabHeader t))
      as (rest' & Hout' & Hf & Hall & Hk).
    { apply same_filters_log. split; reflexivity. }
    rewrite Hout in Hout'. apply app_inv_head in Hout'. subst rest'.
    split; [exact Hf|]. split; [exact Hall | exact Hk].
Qed.

Lemma resolve_backlog_table_witness :
  let w := mkWorld (environment [("TRACY_ASYNC", "1");
                                 ("TRACY_EXFUNS", "foo")])
                   prog_loader (fun _ => None) 3 false in
  let t := set_backlog [1004; 2004; 3004; 7] (loaded (mkIo [] [])) in
  output (sys (resolve_backlog w t))
  = [SymtabHeader; SymtabName 1004 "prog" "main";
     SymtabName 3004 "prog" "bar"; SymtabAddr 7 "[???]"]
  /\ exists rest,
       output (sys (resolve_backlog w t))
       = (output (sys t) ++ SymtabHeader :: rest)%list
       /\ filter is_table rest = flat_map (table_line w t) (backlog t).
Proof.
  intros w t. split; [vm_compute; reflexivity|].
  destruct (resolve_backlog_table w t)
    as (rest & Hout & _ & _ & _ & _ & _ & _ & Hres).
  exists rest. split; [exact Hout|]. apply Hres.
  vm_compute. repeat constructor.
Defined.

(** ** A frame of the program *)

Lemma frame_balanced_when_verdicts_agree_witness :
  let w := prog [("TRACY_EXFUNS", "foo")] in
  let t := enter w 1000 (loaded (mkIo [] [])) in
  Callstack_depth t = 1
  /\ Callstack_depth
       (__cyg_profile_func_exit w 2000 0 (called_from 2000)
          (__cyg_profile_func_enter w 2000 0 (called_from 2000) t))
     = Callstack_depth t.
Proof.
  split; [reflexivity|].
  apply (frame_balanced_when_verdicts_agree
           (prog [("TRACY_EXFUNS", "foo")]) 2000 0
           (called_from 2000) (called_from 2000)
           (enter (prog [("TRACY_EXFUNS", "foo")]) 1000
                  (loaded (mkIo [] [])))
           (fun t => t)).
  - reflexivity.
  - vm_compute. split; [discriminate | reflexivity].
  - reflexivity.
  - reflexivity.
  - vm_compute. reflexivity.
Defined.
